(** * mogptk: channel stacking, multi-output likelihoods and kernels

    A shallow embedding of [mogptk/gpr/util.py], [mogptk/gpr/likelihood.py]
    and [mogptk/gpr/multioutput.py].

    Conventions.
    - A two-dimensional torch tensor is a [matrix]: its column count and its
      rows.  The row count is the length of the row list, so that a tensor of
      shape (0, D) still knows D.
    - Code that only moves tensor entries around ([merge_data], [split_data],
      the dispatch of [MultiOutputLikelihood]) is embedded polymorphically in
      the entry type; the cast of a channel number to the tensor's dtype and
      [.long()] are parameters.  Numerical code (kernels, likelihood formulas)
      is embedded over the real numbers: rounding is not modelled.  Where
      the code is there to tell values apart that are not real numbers (NaN
      in the moments of Student's t, NaN and the infinities in [validate_y]),
      the entry type has them.
    - Python exceptions are values of [exn], fallible functions return
      [result].  *)

From Stdlib Require Import Reals Lra Lia ZArith.
From stdpp Require Import base option list strings gmap sorting.

(** ** Exceptions *)

Inductive exn : Type :=
| ValueError (msg : string)
| IndexError
| RuntimeError
| AttributeError
| NotImplementedError.

Inductive result (T : Type) : Type :=
| Ok (v : T)
| Err (e : exn).
Arguments Ok {T} v.
Arguments Err {T} e.

#[global] Instance result_bind : MBind result := λ T U k r,
  match r with
  | Ok v => k v
  | Err e => Err e
  end.
#[global] Instance result_ret : MRet result := λ T v, Ok v.

Definition of_option {T : Type} (e : exn) (o : option T) : result T :=
  match o with
  | Some v => Ok v
  | None => Err e
  end.

(** ** Two-dimensional tensors *)

Record matrix (A : Type) : Type := Mat {
  ncols : nat;
  rows : list (list A)
}.
Arguments Mat {A} ncols rows.
Arguments ncols {A} m.
Arguments rows {A} m.

(** [X.shape[0]] *)
Definition nrows {A : Type} (X : matrix A) : nat := length (rows X).

(** Every row has [X.shape[1]] entries. *)
Definition wf_matrix {A : Type} (X : matrix A) : Prop :=
  Forall (λ r, length r = ncols X) (rows X).

(** [X[a:b, :]] for [0 <= a]: a slice keeps the column count and clamps at the
    end of the tensor. *)
Definition slice_rows {A : Type} (a b : nat) (X : matrix A) : matrix A :=
  Mat (ncols X) (take (b - a) (drop a (rows X))).

(** In-place update of the rows [n .. n+k-1]: row [n+q] becomes [f q row]. *)
Definition update_slice {B : Type} (n k : nat) (f : nat → B → B) (l : list B) : list B :=
  imap (λ p r, if decide (n ≤ p < n + k) then f (p - n) r else r) l.

(** Python's [sum] on a list of counts. *)
Definition sum_list (N : list nat) : nat := foldr Nat.add 0 N.

(** ** util.py *)

Module Util.
Section util.
Context {A : Type}.
(** [0.0] of the configured dtype, and the cast of a channel number to it. *)
Variable zero : A.
Variable of_channel : nat → A.

(** [torch.zeros((n, m))] *)
Definition zeros (n m : nat) : matrix A := Mat m (replicate n (replicate m zero)).

(** Broadcasting of a source row to [d] columns: a source with [d] columns
    is taken as it is, a source with one column is repeated [d] times. *)
Definition broadcast_row (d : nat) (src_cols : nat) (r : list A) : list A :=
  if decide (src_cols = d) then r else r ≫= replicate d.

(** [X[n:n+k, 0] = channel] *)
Definition assign_channel (n k channel : nat) (X : matrix A) : matrix A :=
  Mat (ncols X) (update_slice n k (λ _ r, <[0 := of_channel channel]> r) (rows X)).

(** [X[n:n+k, 1:] = x]; torch refuses a source whose column count is neither
    that of the target nor one. *)
Definition assign_payload (n k : nat) (x : matrix A) (X : matrix A) : result (matrix A) :=
  if decide (ncols x = ncols X - 1 ∨ ncols x = 1) then
    Ok (Mat (ncols X)
          (update_slice n k
             (λ q r, match rows x !! q with
                     | Some xr => take 1 r ++ broadcast_row (ncols X - 1) (ncols x) xr
                     | None => r
                     end) (rows X)))
  else Err RuntimeError.

(** [Y[n:n+k, :] = y] *)
Definition assign_rows (n k : nat) (y : matrix A) (Y : matrix A) : result (matrix A) :=
  if decide (ncols y = ncols Y ∨ ncols y = 1) then
    Ok (Mat (ncols Y)
          (update_slice n k
             (λ q r, match rows y !! q with
                     | Some yr => broadcast_row (ncols Y) (ncols y) yr
                     | None => r
                     end) (rows Y)))
  else Err RuntimeError.

(** The body of [for channel, x in enumerate(xs)], on the loop state
    [(n, X, Y)]; [Y] is [None] when [ys is None]. *)
Definition merge_step (ys : option (list (matrix A))) (channel : nat) (x : matrix A)
    (st : nat * matrix A * option (matrix A)) : result (nat * matrix A * option (matrix A)) :=
  let '(n, X, Y) := st in
  let Nc := nrows x in
  X1 ← assign_payload n Nc x (assign_channel n Nc channel X) ;
  Y1 ← match ys, Y with
       | Some ys, Some Y =>
           y ← of_option IndexError (ys !! channel) ;
           Y' ← assign_rows n Nc y Y ;
           Ok (Some Y')
       | _, _ => Ok Y
       end ;
  Ok (n + Nc, X1, Y1).

Fixpoint merge_loop (ys : option (list (matrix A))) (channel : nat) (xs : list (matrix A))
    (st : nat * matrix A * option (matrix A)) : result (nat * matrix A * option (matrix A)) :=
  match xs with
  | [] => Ok st
  | x :: xs' =>
      st' ← merge_step ys channel x st ;
      merge_loop ys (S channel) xs' st'
  end.

(** [merge_data(xs, ys=None)].  The two [isinstance] tests are settled by
    the types.  [N[i]] is in range in the second test because the lengths
    agree after the first, so the test compares the two lists of row
    counts. *)
Definition merge_data (xs : list (matrix A)) (ys : option (list (matrix A)))
    : result (list nat * matrix A * option (matrix A)) :=
  let output_dims := length xs in
  if match ys with Some l => bool_decide (length l ≠ output_dims) | None => false end then
    Err (ValueError "inputs must have the same number of output dimensions")
  else
  let N := nrows <$> xs in
  if match ys with Some l => bool_decide (nrows <$> l ≠ N) | None => false end then
    Err (ValueError "inputs must have the same number of data points per output dimension")
  else
  x0 ← of_option IndexError (xs !! 0) ;
  let X := zeros (sum_list N) (1 + ncols x0) in
  let Y := match ys with Some _ => Some (zeros (sum_list N) 1) | None => None end in
  st ← merge_loop ys 0 xs (0, X, Y) ;
  Ok (N, st.1.2, st.2).

(** The inner loop of [split_data]: [xs.append(X[n:n+N[channel],:])]. *)
Fixpoint split_loop (N : list nat) (n : nat) (X : matrix A) : list (matrix A) :=
  match N with
  | [] => []
  | k :: N' => slice_rows n (n + k) X :: split_loop N' (n + k) X
  end.

(** What [split_data] returns: [data[0]] when one tensor was passed, the
    tuple of all of [data] otherwise. *)
Inductive split_result : Type :=
| Single (pieces : list (matrix A))
| Tuple (data : list (list (matrix A))).

(** [split_data(N, *Xs)].  [len(X.shape) == 2] holds by the type. *)
Definition split_data (N : list nat) (Xs : list (matrix A)) : result split_result :=
  if bool_decide (Forall (λ X, nrows X = sum_list N) Xs) then
    let data := (λ X, split_loop N 0 X) <$> Xs in
    match data with
    | [d] => Ok (Single d)
    | _ => Ok (Tuple data)
    end
  else Err (ValueError "inputs must have number of data points that correspond to N").

(** The pieces [xs] with the channel number written in front of every
    row: what stacking and splitting again yields. *)
Definition tag (channel : nat) (x : matrix A) : list (list A) :=
  (λ r, of_channel channel :: r) <$> rows x.
Definition tag_channels_from (channel : nat) (xs : list (matrix A)) : list (matrix A) :=
  imap (λ c x, Mat (1 + ncols x) (tag (channel + c) x)) xs.
Definition tag_channels (xs : list (matrix A)) : list (matrix A) :=
  tag_channels_from 0 xs.

End util.
End Util.

(** ** likelihood.py: the likelihood interface *)

(** What a likelihood method hands back: a tensor, or a scalar (a Python
    float such as [np.nan], or a zero-dimensional tensor such as
    [self.scale().square()]) that broadcasts on assignment. *)
Inductive tvalue (A : Type) : Type :=
| Scalar (a : A)
| Tensor (m : matrix A).
Arguments Scalar {A} a.
Arguments Tensor {A} m.

(** [predict] returns the mean alone, or the triple (mean, lower, upper). *)
Inductive predict_out (A : Type) : Type :=
| Point (mu : tvalue A)
| Interval (mu lower upper : tvalue A).
Arguments Point {A} mu.
Arguments Interval {A} mu lower upper.

Module Likelihood.
(** The methods of a [Likelihood] subclass, as functions of the values of
    their tensor arguments.  [MultiOutputLikelihood] never passes [X] on to
    the likelihoods it wraps. *)
Record t (A : Type) : Type := Make {
  log_prob : matrix A → matrix A → result (tvalue A);
  variational_expectation : matrix A → matrix A → matrix A → result (matrix A);
  mean : matrix A → result (tvalue A);
  variance : matrix A → result (tvalue A);
  sample : matrix A → result (tvalue A);
  predict : matrix A → matrix A → option (A * A) → option A → nat → result (predict_out A)
}.
Arguments Make {A}.
Arguments log_prob {A}.
Arguments variational_expectation {A}.
Arguments mean {A}.
Arguments variance {A}.
Arguments sample {A}.
Arguments predict {A}.
End Likelihood.

(** ** Index tensors, gathering and scattering *)

Section indexing.
Context {A : Type}.

(** [torch.nonzero(m).reshape(-1)] of a one-dimensional boolean mask whose
    first entry has index [p]. *)
Fixpoint nonzero_from (p : nat) (m : list bool) : list nat :=
  match m with
  | [] => []
  | b :: m' => if b then p :: nonzero_from (S p) m' else nonzero_from (S p) m'
  end.

(** [f[r, :]] with an index tensor [r]: a new tensor made of the rows
    named by [r]. *)
Definition gather_rows (r : list nat) (f : matrix A) : result (matrix A) :=
  rs ← of_option IndexError (mapM (λ p, rows f !! p) r) ;
  Ok (Mat (ncols f) rs).

(** [f[:, r]] with an index tensor [r]: a new tensor made of the columns
    named by [r]. *)
Definition gather_cols (r : list nat) (f : matrix A) : result (matrix A) :=
  if forallb (λ p, bool_decide (p < ncols f)) r then
    rs ← of_option IndexError (mapM (λ row, mapM (λ p, row !! p) r) (rows f)) ;
    Ok (Mat (length r) rs)
  else Err IndexError.

(** The rows of [v] broadcast to the shape ([n], [m]); [None] when [v] does
    not broadcast to it. *)
Definition broadcast_to (n m : nat) (v : tvalue A) : option (list (list A)) :=
  match v with
  | Scalar a => Some (replicate n (replicate m a))
  | Tensor V =>
      if decide ((nrows V = n ∨ nrows V = 1) ∧ (ncols V = m ∨ ncols V = 1)) then
        let widen := λ row : list A, if decide (ncols V = m) then row else row ≫= replicate m in
        Some (if decide (nrows V = n) then widen <$> rows V
              else rows V ≫= (λ row, replicate n (widen row)))
      else None
  end.

(** Writes [src !! k] at position [r !! k] of [l], for every [k]. *)
Definition scatter {B : Type} (r : list nat) (src : list B) (l : list B) : list B :=
  foldl (λ acc '(p, x), <[p := x]> acc) l (zip r src).

(** [res[r, :] = v] *)
Definition index_put_rows (r : list nat) (v : tvalue A) (res : matrix A) : result (matrix A) :=
  src ← of_option RuntimeError (broadcast_to (length r) (ncols res) v) ;
  Ok (Mat (ncols res) (scatter r src (rows res))).

(** [f[:, r] = v] *)
Definition index_put_cols (r : list nat) (v : tvalue A) (f : matrix A) : result (matrix A) :=
  src ← of_option RuntimeError (broadcast_to (nrows f) (length r) v) ;
  Ok (Mat (ncols f) (zip_with (λ row srow, scatter r srow row) (rows f) src)).
End indexing.

(** ** The tensor store

    Tensors are Python objects: a variable holds a reference.  The store maps
    references to tensor values; a method that allocates returns a reference
    that was not in the store, a method that writes in place changes the value
    at a reference it was given. *)

Abbreviation ref := positive.
Abbreviation store A := (gmap positive (matrix A)).

Section store.
Context {A : Type}.

Definition M (T : Type) : Type := store A → result (T * store A).

Definition ret {T : Type} (v : T) : M T := λ h, Ok (v, h).
Definition bind {T U : Type} (c : M T) (k : T → M U) : M U :=
  λ h, match c h with
       | Ok (v, h') => k v h'
       | Err e => Err e
       end.
Definition lift {T : Type} (r : result T) : M T :=
  λ h, match r with Ok v => Ok (v, h) | Err e => Err e end.

(** Dereference. *)
Definition read (l : ref) : M (matrix A) :=
  λ h, match h !! l with Some m => Ok (m, h) | None => Err RuntimeError end.
(** In-place write. *)
Definition write (l : ref) (m : matrix A) : M unit :=
  λ h, Ok (tt, <[l := m]> h).
(** A new tensor object. *)
Definition alloc (m : matrix A) : M ref :=
  λ h, let l := fresh (dom h) in Ok (l, <[l := m]> h).

(** [for i in range(n): body(i)], counting from [i]. *)
Fixpoint for_range (i n : nat) (body : nat → M unit) : M unit :=
  match n with
  | 0 => ret tt
  | S n' => bind (body i) (λ _, for_range (S i) n' body)
  end.
End store.

Notation "x ⇐ c ;; k" := (bind c (λ x, k))
  (at level 100, c at next level, right associativity, only parsing).

(** ** likelihood.py: MultiOutputLikelihood *)

Module MultiOutputLikelihood.
Section mol.
Context {A : Type}.
(** [.long()] on an entry, [0.0], [+] of the dtype, and the content of
    memory handed out by [torch.empty] at a row and a column. *)
Variable long : A → Z.
Variable zero : A.
Variable add : A → A → A.
Variable uninit : nat → nat → A.

(** The instance: [self.likelihoods]; [self.output_dims] is its length. *)
Record t : Type := Make { likelihoods : list (Likelihood.t A) }.
Definition output_dims (self : t) : nat := length (likelihoods self).

(** [__init__]: a likelihood that is not a [Likelihood], and a nested
    [MultiOutputLikelihood], are excluded by the type of the list. *)
Definition init (ls : list (Likelihood.t A)) : result t :=
  if decide (length ls = 0) then Err (ValueError "must pass at least one likelihood")
  else Ok (Make ls).

(** [torch.empty(shape)] *)
Definition empty (n m : nat) : matrix A :=
  Mat m ((λ p, (λ q, uninit p q) <$> seq 0 m) <$> seq 0 n).

(** [_channel_indices(X)] *)
Definition _channel_indices (self : t) (X : matrix A) : result (list (list nat)) :=
  if decide (ncols X = 0) then Err IndexError else
  c ← of_option IndexError (mapM (λ row, long <$> row !! 0) (rows X)) ;
  let m := (λ j : nat, (λ cp, bool_decide (cp = Z.of_nat j)) <$> c) <$> seq 0 (output_dims self) in
  Ok (nonzero_from 0 <$> m).

(** [self.likelihoods[i]] and [r[i]] *)
Definition likelihood_at (self : t) (i : nat) : result (Likelihood.t A) :=
  of_option IndexError (likelihoods self !! i).
Definition indices_at (r : list (list nat)) (i : nat) : result (list nat) :=
  of_option IndexError (r !! i).

(** [res[r[i],:] = v] on the tensor object [res]. *)
Definition put_rows (res : ref) (ri : list nat) (v : tvalue A) : M unit :=
  cur ⇐ read res ;;
  new ⇐ lift (index_put_rows ri v cur) ;;
  write res new.

Definition log_prob (self : t) (y f X : ref) : M ref :=
  Xv ⇐ read X ;;
  r ⇐ lift (_channel_indices self Xv) ;;
  fv ⇐ read f ;;
  res ⇐ alloc (empty (nrows fv) (ncols fv)) ;;
  _ ⇐ for_range 0 (output_dims self) (λ i,
        L ⇐ lift (likelihood_at self i) ;;
        ri ⇐ lift (indices_at r i) ;;
        yv ⇐ read y ;;
        ysub ⇐ lift (gather_rows ri yv) ;;
        fv ⇐ read f ;;
        fsub ⇐ lift (gather_rows ri fv) ;;
        v ⇐ lift (Likelihood.log_prob L ysub fsub) ;;
        put_rows res ri v) ;;
  ret res.

(** [v.sum()]: the sum of all the entries. *)
Definition tensor_sum (v : matrix A) : A := foldl add zero (concat (rows v)).

(** [q] is a Python local holding a zero-dimensional tensor; [+=] adds the
    sum of the channel's tensor to it. *)
Fixpoint variational_expectation_loop (self : t) (r : list (list nat)) (y mu var : ref)
    (i n : nat) (q : A) : M A :=
  match n with
  | 0 => ret q
  | S n' =>
      L ⇐ lift (likelihood_at self i) ;;
      ri ⇐ lift (indices_at r i) ;;
      yv ⇐ read y ;;
      ysub ⇐ lift (gather_rows ri yv) ;;
      muv ⇐ read mu ;;
      musub ⇐ lift (gather_rows ri muv) ;;
      varv ⇐ read var ;;
      varsub ⇐ lift (gather_rows ri varv) ;;
      e ⇐ lift (Likelihood.variational_expectation L ysub musub varsub) ;;
      variational_expectation_loop self r y mu var (S i) n' (add q (tensor_sum e))
  end.

Definition variational_expectation (self : t) (y mu var X : ref) : M A :=
  Xv ⇐ read X ;;
  r ⇐ lift (_channel_indices self Xv) ;;
  variational_expectation_loop self r y mu var 0 (output_dims self) zero.

(** [mean] and [variance] have the same body, up to the method called on
    the channel's likelihood. *)
Definition moment (method : Likelihood.t A → matrix A → result (tvalue A))
    (self : t) (f X : ref) : M ref :=
  Xv ⇐ read X ;;
  r ⇐ lift (_channel_indices self Xv) ;;
  fv ⇐ read f ;;
  res ⇐ alloc (empty (nrows fv) (ncols fv)) ;;
  _ ⇐ for_range 0 (output_dims self) (λ i,
        L ⇐ lift (likelihood_at self i) ;;
        ri ⇐ lift (indices_at r i) ;;
        fv ⇐ read f ;;
        fsub ⇐ lift (gather_rows ri fv) ;;
        v ⇐ lift (method L fsub) ;;
        put_rows res ri v) ;;
  ret res.

Definition mean : t → ref → ref → M ref := moment Likelihood.mean.
Definition variance : t → ref → ref → M ref := moment Likelihood.variance.

Definition sample (self : t) (f X : ref) : M ref :=
  Xv ⇐ read X ;;
  r ⇐ lift (_channel_indices self Xv) ;;
  _ ⇐ for_range 0 (output_dims self) (λ i,
        L ⇐ lift (likelihood_at self i) ;;
        ri ⇐ lift (indices_at r i) ;;
        fv ⇐ read f ;;
        fsub ⇐ lift (gather_cols ri fv) ;;
        v ⇐ lift (Likelihood.sample L fsub) ;;
        cur ⇐ read f ;;
        new ⇐ lift (index_put_cols ri v cur) ;;
        write f new) ;;
  ret f.

(** What [MultiOutputLikelihood.predict] returns: one tensor object, or
    three. *)
Inductive predict_refs : Type :=
| PointRef (res : ref)
| IntervalRef (res lower upper : ref).

(** A channel's [predict] must hand back one tensor where one is assigned
    and three where three are unpacked. *)
Definition expect_point (o : predict_out A) : result (tvalue A) :=
  match o with
  | Point v => Ok v
  | Interval _ _ _ => Err RuntimeError
  end.
Definition expect_interval (o : predict_out A) : result (tvalue A * tvalue A * tvalue A) :=
  match o with
  | Point _ => Err RuntimeError
  | Interval a b c => Ok (a, b, c)
  end.

Definition predict (self : t) (mu var : ref) (ci : option (A * A)) (sigma : option A)
    (n : nat) (X : ref) : M predict_refs :=
  Xv ⇐ read X ;;
  r ⇐ lift (_channel_indices self Xv) ;;
  muv ⇐ read mu ;;
  res ⇐ alloc (empty (nrows muv) (ncols muv)) ;;
  match ci with
  | None =>
      _ ⇐ for_range 0 (output_dims self) (λ i,
            L ⇐ lift (likelihood_at self i) ;;
            ri ⇐ lift (indices_at r i) ;;
            muv ⇐ read mu ;;
            musub ⇐ lift (gather_rows ri muv) ;;
            varv ⇐ read var ;;
            varsub ⇐ lift (gather_rows ri varv) ;;
            o ⇐ lift (Likelihood.predict L musub varsub ci sigma n) ;;
            v ⇐ lift (expect_point o) ;;
            put_rows res ri v) ;;
      ret (PointRef res)
  | Some _ =>
      lower ⇐ alloc (empty (nrows muv) (ncols muv)) ;;
      upper ⇐ alloc (empty (nrows muv) (ncols muv)) ;;
      _ ⇐ for_range 0 (output_dims self) (λ i,
            L ⇐ lift (likelihood_at self i) ;;
            ri ⇐ lift (indices_at r i) ;;
            muv ⇐ read mu ;;
            musub ⇐ lift (gather_rows ri muv) ;;
            varv ⇐ read var ;;
            varsub ⇐ lift (gather_rows ri varv) ;;
            o ⇐ lift (Likelihood.predict L musub varsub ci sigma n) ;;
            abc ⇐ lift (expect_interval o) ;;
            _ ⇐ put_rows res ri abc.1.1 ;;
            _ ⇐ put_rows lower ri abc.1.2 ;;
            put_rows upper ri abc.2) ;;
      ret (IntervalRef res lower upper)
  end.

(** *** The loops, read as functions of the tensor values

    What the loop bodies above compute once the tensors behind the
    references are known: one channel's rows and the value its likelihood
    hands back, and the tensor that results from writing every channel's
    value in turn. *)

Definition log_prob_step (self : t) (r : list (list nat)) (yv fv : matrix A) (i : nat)
    : result (list nat * tvalue A) :=
  L ← likelihood_at self i ;
  ri ← indices_at r i ;
  ysub ← gather_rows ri yv ;
  fsub ← gather_rows ri fv ;
  v ← Likelihood.log_prob L ysub fsub ;
  Ok (ri, v).

Definition moment_step (method : Likelihood.t A → matrix A → result (tvalue A))
    (self : t) (r : list (list nat)) (fv : matrix A) (i : nat)
    : result (list nat * tvalue A) :=
  L ← likelihood_at self i ;
  ri ← indices_at r i ;
  fsub ← gather_rows ri fv ;
  v ← method L fsub ;
  Ok (ri, v).

Definition predict_step (self : t) (r : list (list nat)) (muv varv : matrix A)
    (ci : option (A * A)) (sigma : option A) (n : nat) (i : nat)
    : result (list nat * predict_out A) :=
  L ← likelihood_at self i ;
  ri ← indices_at r i ;
  musub ← gather_rows ri muv ;
  varsub ← gather_rows ri varv ;
  o ← Likelihood.predict L musub varsub ci sigma n ;
  Ok (ri, o).

(** The step of [predict], cut down to the mean, or to one of the three
    tensors of the interval. *)
Definition predict_point_step (self : t) (r : list (list nat)) (muv varv : matrix A)
    (ci : option (A * A)) (sigma : option A) (n : nat) (i : nat)
    : result (list nat * tvalue A) :=
  s ← predict_step self r muv varv ci sigma n i ;
  v ← expect_point s.2 ;
  Ok (s.1, v).
Definition predict_interval_step (pick : tvalue A * tvalue A * tvalue A → tvalue A)
    (self : t) (r : list (list nat)) (muv varv : matrix A)
    (ci : option (A * A)) (sigma : option A) (n : nat) (i : nat)
    : result (list nat * tvalue A) :=
  s ← predict_step self r muv varv ci sigma n i ;
  abc ← expect_interval s.2 ;
  Ok (s.1, pick abc).

(** [for i in range(n): res[r[i],:] = v[i]], counting from [i]. *)
Fixpoint rows_loop (step : nat → result (list nat * tvalue A)) (i n : nat) (res : matrix A)
    : result (matrix A) :=
  match n with
  | 0 => Ok res
  | S n' =>
      s ← step i ;
      res' ← index_put_rows s.1 s.2 res ;
      rows_loop step (S i) n' res'
  end.

(** The body of the loop of [sample] on the value of [f]. *)
Definition sample_step (self : t) (r : list (list nat)) (i : nat) (cur : matrix A)
    : result (matrix A) :=
  L ← likelihood_at self i ;
  ri ← indices_at r i ;
  fsub ← gather_cols ri cur ;
  v ← Likelihood.sample L fsub ;
  index_put_cols ri v cur.

Fixpoint cols_loop (step : nat → matrix A → result (matrix A)) (i n : nat) (cur : matrix A)
    : result (matrix A) :=
  match n with
  | 0 => Ok cur
  | S n' => cur' ← step i cur ; cols_loop step (S i) n' cur'
  end.

(** The loop of [predict] with a confidence interval, on the values of
    the three result tensors. *)
Fixpoint rows_loop3 (step : nat → result (list nat * predict_out A)) (i n : nat)
    (cur : matrix A * matrix A * matrix A) : result (matrix A * matrix A * matrix A) :=
  match n with
  | 0 => Ok cur
  | S n' =>
      s ← step i ;
      abc ← expect_interval s.2 ;
      a ← index_put_rows s.1 abc.1.1 cur.1.1 ;
      b ← index_put_rows s.1 abc.1.2 cur.1.2 ;
      c ← index_put_rows s.1 abc.2 cur.2 ;
      rows_loop3 step (S i) n' (a, b, c)
  end.

(** One channel's term of [variational_expectation], and the sum. *)
Definition variational_expectation_step (self : t) (r : list (list nat))
    (yv muv varv : matrix A) (i : nat) : result A :=
  L ← likelihood_at self i ;
  ri ← indices_at r i ;
  ysub ← gather_rows ri yv ;
  musub ← gather_rows ri muv ;
  varsub ← gather_rows ri varv ;
  e ← Likelihood.variational_expectation L ysub musub varsub ;
  Ok (tensor_sum e).

Fixpoint sum_loop (step : nat → result A) (i n : nat) (q : A) : result A :=
  match n with
  | 0 => Ok q
  | S n' => e ← step i ; sum_loop step (S i) n' (add q e)
  end.

(** The channel number in column 0 of row [p] of [X]. *)
Definition channel_of (X : matrix A) (p : nat) : option Z :=
  row ← rows X !! p ; long <$> row !! 0.

(** *** What dispatching per channel means

    [rows_routed r step m res]: for every channel [i], the rows of [res]
    at the positions [r[i]] are, in order, the rows of the value that the
    step of channel [i] hands back (broadcast to [m] columns). *)
Definition rows_routed (r : list (list nat)) (step : nat → result (list nat * tvalue A))
    (m : nat) (res : matrix A) : Prop :=
  ∀ i ri, r !! i = Some ri →
    ∃ v src, step i = Ok (ri, v)
      ∧ broadcast_to (length ri) m v = Some src
      ∧ ∀ k p, ri !! k = Some p → rows res !! p = src !! k.

(** [cols_routed self r fv res]: for every channel [i], the columns of
    [res] at the positions [r[i]] are, in order, the columns of what
    likelihood [i] samples from the columns [r[i]] of [fv]. *)
Definition cols_routed (self : t) (r : list (list nat)) (fv res : matrix A) : Prop :=
  ∀ i ri, r !! i = Some ri →
    ∃ L fsub v src,
      likelihoods self !! i = Some L
      ∧ gather_cols ri fv = Ok fsub
      ∧ Likelihood.sample L fsub = Ok v
      ∧ broadcast_to (nrows fv) (length ri) v = Some src
      ∧ ∀ q row srow k p x,
          rows res !! q = Some row → src !! q = Some srow → ri !! k = Some p →
          srow !! k = Some x → row !! p = Some x.

(** [sum_routed step n q]: [q] is the sum, from [0.0] on and in channel
    order, of the terms of the [n] channels. *)
Definition sum_routed (step : nat → result A) (n : nat) (q : A) : Prop :=
  ∃ es, length es = n ∧ (∀ i e, es !! i = Some e → step i = Ok e) ∧ q = foldl add zero es.

(** *** validate_y

    [validate_y_of L] is the method [validate_y] of the likelihood [L]: it
    returns nothing, or raises.  The likelihoods of this file do not look
    at [X] there.  With one likelihood, [X] is not looked at at all; with
    several, [X] has to be a tensor. *)
Variable validate_y_of : Likelihood.t A → matrix A → result unit.

(** [for i in range(n): self.likelihoods[i].validate_y(y[r[i],:], X=X)],
    counting from [i]. *)
Fixpoint validate_y_loop (self : t) (r : list (list nat)) (y : matrix A) (i n : nat)
    : result unit :=
  match n with
  | 0 => Ok tt
  | S n' =>
      L ← likelihood_at self i ;
      ri ← indices_at r i ;
      ysub ← gather_rows ri y ;
      _ ← validate_y_of L ysub ;
      validate_y_loop self r y (S i) n'
  end.

Definition validate_y (self : t) (y X : matrix A) : result unit :=
  if decide (output_dims self = 1) then
    L ← likelihood_at self 0 ;
    validate_y_of L y
  else
    r ← _channel_indices self X ;
    validate_y_loop self r y 0 (output_dims self).

End mol.
End MultiOutputLikelihood.

(** ** likelihood.py: numerical part, over the reals *)

#[global] Instance Rle_decision (x y : R) : Decision (x <= y)%R := Rle_dec x y.
#[global] Instance Rlt_decision (x y : R) : Decision (x < y)%R := Rlt_dec x y.
#[global] Instance Req_decision : EqDecision R := Req_dec_T.

(** Python's [int(x)] on a float: truncation towards zero. *)
Definition py_int (x : R) : Z :=
  if decide (0 <= x)%R then Int_part x else (- Int_part (- x))%Z.

(** Python's [l[i]] on the first axis: a negative index counts from the
    end, an index outside the tensor raises. *)
Definition py_index {T : Type} (l : list T) (i : Z) : result T :=
  if decide (0 ≤ i)%Z then of_option IndexError (l !! Z.to_nat i)
  else if decide (- Z.of_nat (length l) ≤ i)%Z then
    of_option IndexError (l !! Z.to_nat (Z.of_nat (length l) + i))
  else Err IndexError.

(** Entrywise application. *)
Definition mat_map {A B : Type} (h : A → B) (X : matrix A) : matrix B :=
  Mat (ncols X) (map (map h) (rows X)).

Section links.
(** [torch.erf], which the standard library of reals does not have. *)
Variable erf : R → R.

(** The link functions; [self.link == exp] and [self.link != inv_probit]
    compare function objects, so a callable of the user's own is none of
    the five. *)
Inductive link : Type :=
| identity
| square
| exp
| inv_probit
| logistic
| custom (h : R → R).

(** The value of a link, over the reals.  Floating point saturates where
    the reals do not: [exp] underflows to 0 and overflows to infinity, and
    [logistic] is exactly 1 from about 37 on.  What is stated of the links
    keeps to bounds that hold there as well. *)
Definition apply_link (l : link) (x : R) : R :=
  match l with
  | identity => x
  | square => x * x
  | exp => Rtrigo_def.exp x
  | inv_probit =>
      let jitter := 1 / 1000 in
      (1 / 2) * (1 + erf (x / sqrt 2)) * (1 - 2 * jitter) + jitter
  | logistic => 1 / (1 + Rtrigo_def.exp (- x))
  | custom h => h x
  end%R.

Definition is_inv_probit (l : link) : bool :=
  match l with inv_probit => true | _ => false end.
End links.

Module GaussHermiteQuadrature.
(** [self.t] and [self.w], of shape (deg, 1); [self.deg] is their length. *)
Record t : Type := Make { nodes : list R; weights : list R }.

(** [__init__(deg, t_scale, w_scale)]; [hermgauss] is
    [np.polynomial.hermite.hermgauss]. *)
Definition init (hermgauss : nat → list R * list R) (deg : nat) (t_scale w_scale : option R) : t :=
  let '(t0, w0) := hermgauss deg in
  Make (match t_scale with Some s => (λ x, x * s)%R <$> t0 | None => t0 end)
       (match w_scale with Some s => (λ x, x * s)%R <$> w0 | None => w0 end).

(** [__call__(mu, var, F)] for [mu] and [var] of the documented shape
    (N, 1): [F] receives the (N, deg) tensor of the points
    [mu + sqrt(var) * t], and its (N, deg) result is multiplied with [w].
    Arguments of other shapes, some of which torch would broadcast, are
    outside of what is modelled and are reported as an error. *)
Definition call (self : t) (mu var : matrix R) (F : matrix R → result (tvalue R))
    : result (matrix R) :=
  if decide (ncols mu = 1 ∧ ncols var = 1 ∧ nrows mu = nrows var) then
    let pts := zip_with (λ mrow vrow,
                  (λ tk, nth 0 mrow 0 + sqrt (nth 0 vrow 0) * tk)%R <$> nodes self)
                 (rows mu) (rows var) in
    v ← F (Mat (length (nodes self)) pts) ;
    match v with
    | Tensor Fv =>
        if decide (ncols Fv = length (weights self)) then
          Ok (Mat 1 ((λ row, [foldr Rplus 0 (zip_with Rmult row (weights self))]%R) <$> rows Fv))
        else Err RuntimeError
    | Scalar _ => Err RuntimeError
    end
  else Err RuntimeError.
End GaussHermiteQuadrature.

Module LikelihoodBase.
Section base.
(** The standard normal draws behind
    [torch.distributions.normal.Normal(loc, scale).sample([n])], and the
    samples made of them: the entry of sample [s] at row [p] and column [q]
    is [loc[p,q] + scale[p,q] * eps s p q]. *)
Variable eps : nat → nat → nat → R.

Definition Normal_draws (loc scale : matrix R) (n : nat) : list (matrix R) :=
  (λ s, Mat (ncols loc)
          (imap (λ p lrow,
             imap (λ q l, (l + nth q (nth p (rows scale) []) 0 * eps s p q)%R) lrow)
           (rows loc))) <$> seq 0 n.

(** [Normal(loc, scale).sample([n])].  [Normal] checks its arguments when
    it is built ([validate_args] is on by default): a scale with an entry
    that is not positive raises a [ValueError] before anything is drawn.
    The message of torch goes on to name the distribution and to print the
    tensors; its opening words stand for it. *)
Definition Normal_sample (loc scale : matrix R) (n : nat) : result (list (matrix R)) :=
  if forallb (forallb (λ v, bool_decide (0 < v)%R)) (rows scale) then
    Ok (Normal_draws loc scale n)
  else Err (ValueError "Expected parameter scale").

(** The values across the first axis at row [p], column [q]. *)
Definition cell (T : list (matrix R)) (p q : nat) : list R :=
  omap (λ m, rows m !! p ≫= (.!! q)) T.

(** [T.sort(dim=0)] of a tensor of shape (n, N, c): the values, ascending
    along the first axis. *)
Definition sort0 (N c : nat) (T : list (matrix R)) : list (matrix R) :=
  (λ s, Mat c ((λ p, (λ q, nth s (merge_sort Rle (cell T p q)) 0%R) <$> seq 0 c) <$> seq 0 N))
    <$> seq 0 (length T).

(** [Likelihood.predict]; [mean] and [sample] are the methods of the
    subclass.  The name [mu] is rebound by the first statement, so the
    normal distribution is built around the predicted mean, and [var] is
    handed to it as its scale.  The samples have the shape (n, N, 1): a list
    of [n] tensors of the shape of [mu]; [sample] is taken to keep that
    shape, as its docstring says. *)
Definition predict (quadrature : GaussHermiteQuadrature.t)
    (mean : matrix R → result (tvalue R))
    (sample : list (matrix R) → result (list (matrix R)))
    (mu var : matrix R) (ci : option (R * R)) (sigma : option R) (n : nat)
    : result (predict_out R) :=
  mu ← GaussHermiteQuadrature.call quadrature mu var mean ;
  match ci with
  | None => Ok (Point (Tensor mu))
  | Some (ci0, ci1) =>
      samples_f ← Normal_sample mu var n ;
      samples_y ← sample samples_f ;
      let samples_y := sort0 (nrows mu) (ncols mu) samples_y in
      let lower := py_int (ci0 * INR n + 1 / 2)%R in
      let upper := py_int (ci1 * INR n + 1 / 2)%R in
      lo ← py_index samples_y lower ;
      up ← py_index samples_y upper ;
      Ok (Interval (Tensor mu) (Tensor lo) (Tensor up))
  end.

(** The predictive pipeline as the specification words it, to compare
    [predict] with: the latent samples are drawn from the normal
    distribution whose mean is the argument [mu] and whose variance is the
    argument [var]; they go through [sample], are sorted, and the rows at
    the two rounded indices are returned. *)
Definition predict_spec (quadrature : GaussHermiteQuadrature.t)
    (mean : matrix R → result (tvalue R))
    (sample : list (matrix R) → result (list (matrix R)))
    (mu var : matrix R) (ci : option (R * R)) (sigma : option R) (n : nat)
    : result (predict_out R) :=
  point ← GaussHermiteQuadrature.call quadrature mu var mean ;
  match ci with
  | None => Ok (Point (Tensor point))
  | Some (ci0, ci1) =>
      samples_f ← Normal_sample mu (mat_map sqrt var) n ;
      samples_y ← sample samples_f ;
      let samples_y := sort0 (nrows mu) (ncols mu) samples_y in
      lo ← py_index samples_y (py_int (ci0 * INR n + 1 / 2)%R) ;
      up ← py_index samples_y (py_int (ci1 * INR n + 1 / 2)%R) ;
      Ok (Interval (Tensor point) (Tensor lo) (Tensor up))
  end.
End base.
End LikelihoodBase.

(** ** likelihood.py: entry by entry

    [log_prob(y, f)] takes [y] of the documented shape (N, 1) and [f] of
    shape (N, M), and works entry by entry, every row of [f] against the
    entry of [y] in that row.  Other shapes, some of which torch would
    broadcast, are outside of what is modelled and are reported as an
    error.  The logarithm and the quotient are those of the real numbers:
    they agree with torch, up to rounding, inside the support of the
    likelihood, where torch returns a number. *)

Definition against_column (h : R → R → R) (y f : matrix R) : result (matrix R) :=
  if decide (ncols y = 1 ∧ nrows y = nrows f) then
    Ok (Mat (ncols f) (zip_with (λ yrow frow, h (nth 0 yrow 0%R) <$> frow) (rows y) (rows f)))
  else Err RuntimeError.

(** ** likelihood.py: the observations that validate_y is given

    [validate_y] is there to refuse observations, so it is modelled on
    every float it can meet: a number, an infinity, or NaN.  Its tests
    compare with constants and involve no rounding. *)
Inductive observation : Type :=
| Number (x : R)
| Infinite (negative : bool)
| NotANumber.

(** [a < c], [a <= c] and [a != c] for a constant [c], as IEEE 754 has
    them: a comparison with NaN is false, except [!=], which is true. *)
Definition lt_const (c : R) (a : observation) : bool :=
  match a with
  | Number x => bool_decide (x < c)%R
  | Infinite negative => negative
  | NotANumber => false
  end.
Definition le_const (c : R) (a : observation) : bool :=
  match a with
  | Number x => bool_decide (x <= c)%R
  | Infinite negative => negative
  | NotANumber => false
  end.
Definition ne_const (c : R) (a : observation) : bool :=
  match a with
  | Number x => negb (bool_decide (x = c))
  | _ => true
  end.

(** [torch.any] of a test on the entries. *)
Definition any_entry {B : Type} (test : B → bool) (y : matrix B) : bool :=
  existsb (existsb test) (rows y).

Module BernoulliLikelihood.
Section bernoulli.
Variable erf : R → R.
Variable eps : nat → nat → nat → R.

Record t : Type := Make { link_of : link; quadrature : GaussHermiteQuadrature.t }.

(** [__init__(link=inv_probit, quadratures=20)], through
    [Likelihood.__init__]. *)
Definition init (hermgauss : nat → list R * list R) (l : link) (quadratures : nat) : t :=
  Make l (GaussHermiteQuadrature.init hermgauss quadratures (Some (sqrt 2)) (Some (1 / sqrt PI)%R)).

Definition mean (self : t) (f : matrix R) : result (tvalue R) :=
  Ok (Tensor (mat_map (apply_link erf (link_of self)) f)).

Definition sample {T : Type} (self : t) (f : T) : result T := Ok f.

Definition predict (self : t) (mu var : matrix R) (ci : option (R * R)) (sigma : option R)
    (n : nat) : result (predict_out R) :=
  if negb (is_inv_probit (link_of self)) then
    LikelihoodBase.predict eps (quadrature self) (mean self) (sample self) mu var ci sigma n
  else
    if decide (ncols mu = ncols var ∧ nrows mu = nrows var) then
      let p := Mat (ncols mu)
                 (zip_with (zip_with (λ m v, apply_link erf (link_of self) (m / sqrt (1 + v))%R))
                    (rows mu) (rows var)) in
      match ci, sigma with
      | None, None => Ok (Point (Tensor p))
      | _, _ => Ok (Interval (Tensor p) (Tensor p) (Tensor p))
      end
    else Err RuntimeError.

Definition validate_y (self : t) (y : matrix observation) : result unit :=
  if any_entry (λ a, ne_const 0 a && ne_const 1 a) y
  then Err (ValueError "y must have only 0.0 and 1.0 values")
  else Ok tt.

(** [torch.where(0.5 <= y, p, 1.0-p)] *)
Definition log_prob (self : t) (y f : matrix R) : result (matrix R) :=
  against_column (λ y f,
    let p := apply_link erf (link_of self) f in
    ln (if decide (1 / 2 <= y)%R then p else (1 - p)%R)) y f.

Definition variance (self : t) (f : matrix R) : matrix R :=
  mat_map (λ x, (apply_link erf (link_of self) x
                 - apply_link erf (link_of self) x * apply_link erf (link_of self) x)%R) f.
End bernoulli.
End BernoulliLikelihood.

(** A float that is a real number or NaN. *)
Inductive xreal : Type :=
| NaN
| Real (r : R).

Module StudentTLikelihood.
(** [self.dof] and the value of the parameter [self.scale]. *)
Record t : Type := Make { dof : R; scale : R }.

(** [torch.full(shape, np.nan)] *)
Definition full_nan (n m : nat) : matrix xreal := Mat m (replicate n (replicate m NaN)).

Definition mean (self : t) (f : matrix xreal) : tvalue xreal :=
  if decide (dof self <= 1)%R then Tensor (full_nan (nrows f) (ncols f))
  else Tensor f.

Definition variance (self : t) (f : matrix xreal) : tvalue xreal :=
  if decide (dof self <= 2)%R then Scalar NaN
  else Scalar (Real (scale self * scale self * dof self / (dof self - 2))%R).
End StudentTLikelihood.

(** ** multioutput.py: vectors and the kernel base class

    Vectors of shape (D,) are lists of reals; an (N, M, D) tensor is an
    (N, M) matrix of such vectors.  The operations below are total: where
    torch raises because the lengths of two vectors disagree, they stop at the
    shorter one.  They agree with torch on operands of equal length, which is
    what a kernel with [input_dims] columns everywhere works on. *)

Section vectors.
Local Open Scope R_scope.

Definition vadd (a b : list R) : list R := zip_with Rplus a b.
Definition vsub (a b : list R) : list R := zip_with Rminus a b.
Definition vmul (a b : list R) : list R := zip_with Rmult a b.
Definition vscale (c : R) (a : list R) : list R := Rmult c <$> a.
(** [a**2] *)
Definition vsquare (a : list R) : list R := (λ x, x * x) <$> a.
(** [1.0/a] *)
Definition vinv (a : list R) : list R := (λ x, 1 / x) <$> a.
(** [a.sum()] and [a.prod()] *)
Definition vsum (a : list R) : R := foldr Rplus 0 a.
Definition vprod (a : list R) : R := foldr Rmult 1 a.
(** [a.dot(b)], and [torch.tensordot(T, b, dims=1)] at one entry of [T]. *)
Definition dot (a b : list R) : R := vsum (vmul a b).

(** Entry [n], [m] of a matrix; [0] outside of it. *)
Definition entry (K : matrix R) (n m : nat) : R := nth m (nth n (rows K) []) 0.

(** [K.T] *)
Definition mat_transpose (K : matrix R) : matrix R :=
  Mat (nrows K) ((λ q, (λ row, nth q row 0) <$> rows K) <$> seq 0 (ncols K)).

(** [torch.diag(K)] of a square matrix. *)
Definition mat_diag (K : matrix R) : list R := imap (λ p row, nth p row 0) (rows K).

(** The (N, M) tensor whose entry for the rows [x1] of [X1] and [x2] of [X2]
    is [F x1 x2]. *)
Definition pairwise {B : Type} (F : list R → list R → B) (X1 X2 : matrix R) : matrix B :=
  Mat (nrows X2) ((λ x1, F x1 <$> rows X2) <$> rows X1).

(** The rows of the (n, m) matrix whose entry at row [a] and column [b] is
    [f a b]. *)
Definition table (n m : nat) (f : nat → nat → R) : list (list R) :=
  (λ a, (λ b, f a b) <$> seq 0 m) <$> seq 0 n.

(** Entrywise combination of two tensors of one shape. *)
Definition mat_zip_with {B C D : Type} (h : B → C → D) (T : matrix B)
    (U : matrix C) : matrix D :=
  Mat (ncols T) (zip_with (zip_with h) (rows T) (rows U)).
End vectors.

#[global] Instance result_fmap : FMap result := λ T U h r,
  match r with
  | Ok v => Ok (h v)
  | Err e => Err e
  end.

Module Kernel.
Section kernel.
Local Open Scope R_scope.

(** [torch.index_select(X, dim=1, index=dims)] *)
Definition index_select (dims : list nat) (X : matrix R) : result (matrix R) :=
  if forallb (λ d, bool_decide (d < ncols X)%nat) dims then
    Ok (Mat (length dims) ((λ row, (λ d, nth d row 0) <$> dims) <$> rows X))
  else Err IndexError.

(** Modelled from the spec: [Kernel._active_input], which is not among the
    sources; it restricts X1 and X2 to the active input dimensions, and
    leaves them alone when no active dimensions were declared. *)
Definition _active_input (active_dims : option (list nat)) (X1 : matrix R)
    (X2 : option (matrix R)) : result (matrix R * option (matrix R)) :=
  match active_dims with
  | None => Ok (X1, X2)
  | Some dims =>
      X1' ← index_select dims X1 ;
      match X2 with
      | None => Ok (X1', None)
      | Some X2 => X2' ← index_select dims X2 ; Ok (X1', Some X2')
      end
  end.

(** [X2 = X1] when [X2 is None] *)
Definition second (X1 : matrix R) (X2 : option (matrix R)) : matrix R :=
  match X2 with Some X2 => X2 | None => X1 end.

(** Modelled from the spec: [Kernel.distance], [Kernel.squared_distance] and
    [Kernel.average], which are not among the sources: the difference tau of
    two points, its entrywise square, and the average position
    avg = (x + x')/2, for every pair of a row of X1 and a row of X2. *)
Definition distance (X1 : matrix R) (X2 : option (matrix R)) : matrix (list R) :=
  pairwise vsub X1 (second X1 X2).
Definition squared_distance (X1 : matrix R) (X2 : option (matrix R)) : matrix (list R) :=
  pairwise (λ x1 x2, vsquare (vsub x1 x2)) X1 (second X1 X2).
Definition average (X1 : matrix R) (X2 : option (matrix R)) : matrix (list R) :=
  pairwise (λ x1 x2, vscale (1 / 2) (vadd x1 x2)) X1 (second X1 X2).

(** Modelled from the spec: a single-output [Kernel], which is not among the
    sources, through the two methods the multi-output kernels call: [K], the
    covariance matrix of two point sets, and [K_diag], its diagonal. *)
Record t : Type := Make {
  K : matrix R → option (matrix R) → result (matrix R);
  K_diag : matrix R → result (list R)
}.

(** The contract of a single-output kernel: [K] has the shape
    (|X1|, |X2|), is symmetric, and [K_diag] is the diagonal of [K]. *)
Record contract (k : t) : Prop := {
  K_shape : ∀ X1 X2 G, K k X1 (Some X2) = Ok G →
    nrows G = nrows X1 ∧ ncols G = nrows X2 ∧ wf_matrix G;
  K_symmetric : ∀ X1 X2, mat_transpose <$> K k X1 (Some X2) = K k X2 (Some X1);
  K_diagonal : ∀ X1 G, K k X1 (Some X1) = Ok G → K_diag k X1 = Ok (mat_diag G)
}.
End kernel.
End Kernel.

(** [self.p()[i]] for a parameter [p], and [self.p] for a parameter that
    exists only when [1 < output_dims]. *)
Definition at_channel {T : Type} (p : list T) (i : nat) : result T :=
  of_option IndexError (p !! i).
Definition attribute {T : Type} (p : option T) : result T :=
  of_option AttributeError p.

(** ** multioutput.py: the kernels *)

Module IndependentMultiOutputKernel.
Section imo.
Local Open Scope R_scope.

(** [__init__] passes neither [input_dims] nor [active_dims] on, so no
    active dimensions are declared. *)
Record t : Type := Make { kernels : list Kernel.t }.
Definition output_dims (self : t) : nat := length (kernels self).

Definition Ksub (self : t) (i j : nat) (X1 : matrix R) (X2 : option (matrix R))
    : result (matrix R) :=
  X ← Kernel._active_input None X1 X2 ;
  if decide (i = j) then
    k ← at_channel (kernels self) i ;
    Kernel.K k X.1 X.2
  else
    let X2 := Kernel.second X.1 X.2 in
    Ok (Mat (nrows X2) (replicate (nrows X.1) (replicate (nrows X2) 0))).

Definition Ksub_diag (self : t) (i : nat) (X1 : matrix R) : result (list R) :=
  X ← Kernel._active_input None X1 None ;
  k ← at_channel (kernels self) i ;
  Kernel.K_diag k X.1.
End imo.
End IndependentMultiOutputKernel.

Module MultiOutputSpectralKernel.
Section mosm.
Local Open Scope R_scope.

(** [delay] and [phase] are attributes only when [1 < output_dims]. *)
Record t : Type := Make {
  output_dims : nat;
  input_dims : nat;
  active_dims : option (list nat);
  magnitude : list R;
  mean : list (list R);
  variance : list (list R);
  delay : option (list (list R));
  phase : option (list R)
}.

(** [np.power(2.0*np.pi, float(self.input_dims)/2.0)] *)
Definition twopi (self : t) : R := Rpower (2 * PI) (INR (input_dims self) / 2).

Definition Ksub (self : t) (i j : nat) (X1 : matrix R) (X2 : option (matrix R))
    : result (matrix R) :=
  X ← Kernel._active_input (active_dims self) X1 X2 ;
  let tau := Kernel.distance X.1 X.2 in
  if decide (i = j) then
    variance ← at_channel (variance self) i ;
    magnitude_i ← at_channel (magnitude self) i ;
    let alpha := magnitude_i * magnitude_i * twopi self * sqrt (vprod variance) in
    mean_i ← at_channel (mean self) i ;
    Ok (mat_map (λ tau,
          alpha * Rtrigo_def.exp (- (1 / 2) * dot (vsquare tau) variance)
                * cos (2 * PI * dot tau mean_i)) tau)
  else
    variance_i ← at_channel (variance self) i ;
    variance_j ← at_channel (variance self) j ;
    let inv_variances := vinv (vadd variance_i variance_j) in
    mean_i ← at_channel (mean self) i ;
    mean_j ← at_channel (mean self) j ;
    let diff_mean := vsub mean_i mean_j in
    magnitude_i ← at_channel (magnitude self) i ;
    magnitude_j ← at_channel (magnitude self) j ;
    let magnitude := magnitude_i * magnitude_j
                     * Rtrigo_def.exp (- (PI * PI) * dot diff_mean (vmul inv_variances diff_mean)) in
    let mean := vmul inv_variances (vadd (vmul variance_i mean_j) (vmul variance_j mean_i)) in
    let variance := vmul (vmul (vscale 2 variance_i) inv_variances) variance_j in
    delays ← attribute (delay self) ;
    delay_i ← at_channel delays i ;
    delay_j ← at_channel delays j ;
    let delay := vsub delay_i delay_j in
    phases ← attribute (phase self) ;
    phase_i ← at_channel phases i ;
    phase_j ← at_channel phases j ;
    let phase := phase_i - phase_j in
    let alpha := magnitude * twopi self * sqrt (vprod variance) in
    Ok (mat_map (λ tau,
          alpha * Rtrigo_def.exp (- (1 / 2) * dot (vsquare (vadd tau delay)) variance)
                * cos (2 * PI * (dot (vadd tau delay) mean + phase))) tau).

Definition Ksub_diag (self : t) (i : nat) (X1 : matrix R) : result (list R) :=
  variance ← at_channel (variance self) i ;
  magnitude_i ← at_channel (magnitude self) i ;
  let alpha := magnitude_i * magnitude_i * twopi self * sqrt (vprod variance) in
  Ok (replicate (nrows X1) alpha).
End mosm.
End MultiOutputSpectralKernel.

Module UncoupledMultiOutputSpectralKernel.
Section umosm.
Local Open Scope R_scope.

(** [magnitude] is a square matrix here, of shape
    (output_dims, output_dims). *)
Record t : Type := Make {
  output_dims : nat;
  input_dims : nat;
  active_dims : option (list nat);
  magnitude : list (list R);
  mean : list (list R);
  variance : list (list R);
  delay : option (list (list R));
  phase : option (list R)
}.

Definition twopi (self : t) : R := Rpower (2 * PI) (INR (input_dims self) / 2).

(** [M.tril()]: the entries above the diagonal become zero. *)
Definition tril (M : list (list R)) : list (list R) :=
  imap (λ a row, imap (λ b x, if decide (b ≤ a)%nat then x else 0) row) M.

(** [self.magnitude().tril().mm(self.magnitude().tril().T)] *)
Definition magnitude_product (self : t) : list (list R) :=
  let L := tril (magnitude self) in
  (λ row_a, (λ row_b, dot row_a row_b) <$> L) <$> L.

(** [magnitude[i,j]] *)
Definition at_pair (M : list (list R)) (i j : nat) : result R :=
  of_option IndexError (M !! i ≫= (.!! j)).

Definition Ksub (self : t) (i j : nat) (X1 : matrix R) (X2 : option (matrix R))
    : result (matrix R) :=
  X ← Kernel._active_input (active_dims self) X1 X2 ;
  let tau := Kernel.distance X.1 X.2 in
  let magnitude := magnitude_product self in
  if decide (i = j) then
    variance ← at_channel (variance self) i ;
    magnitude_ii ← at_pair magnitude i i ;
    let alpha := magnitude_ii * twopi self * sqrt (vprod variance) in
    mean_i ← at_channel (mean self) i ;
    Ok (mat_map (λ tau,
          alpha * Rtrigo_def.exp (- (1 / 2) * dot (vsquare tau) variance)
                * cos (2 * PI * dot tau mean_i)) tau)
  else
    variance_i ← at_channel (variance self) i ;
    variance_j ← at_channel (variance self) j ;
    let inv_variances := vinv (vadd variance_i variance_j) in
    mean_i ← at_channel (mean self) i ;
    mean_j ← at_channel (mean self) j ;
    let diff_mean := vsub mean_i mean_j in
    magnitude_ij ← at_pair magnitude i j ;
    let magnitude := magnitude_ij
                     * Rtrigo_def.exp (- (PI * PI) * dot diff_mean (vmul inv_variances diff_mean)) in
    let mean := vmul inv_variances (vadd (vmul variance_i mean_j) (vmul variance_j mean_i)) in
    let variance := vmul (vmul (vscale 2 variance_i) inv_variances) variance_j in
    delays ← attribute (delay self) ;
    delay_i ← at_channel delays i ;
    delay_j ← at_channel delays j ;
    let delay := vsub delay_i delay_j in
    phases ← attribute (phase self) ;
    phase_i ← at_channel phases i ;
    phase_j ← at_channel phases j ;
    let phase := phase_i - phase_j in
    let alpha := magnitude * twopi self * sqrt (vprod variance) in
    Ok (mat_map (λ tau,
          alpha * Rtrigo_def.exp (- (1 / 2) * dot (vsquare (vadd tau delay)) variance)
                * cos (2 * PI * dot (vadd tau delay) mean + phase)) tau).

Definition Ksub_diag (self : t) (i : nat) (X1 : matrix R) : result (list R) :=
  let magnitude := magnitude_product self in
  variance ← at_channel (variance self) i ;
  magnitude_ii ← at_pair magnitude i i ;
  let alpha := magnitude_ii * twopi self * sqrt (vprod variance) in
  Ok (replicate (nrows X1) alpha).
End umosm.
End UncoupledMultiOutputSpectralKernel.

Module CrossSpectralKernel.
Section csm.
Local Open Scope R_scope.

(** [amplitude] and [shift] have shape (output_dims, Rq), [mean] and
    [variance] shape (input_dims,). *)
Record t : Type := Make {
  output_dims : nat;
  input_dims : nat;
  Rq : nat;
  active_dims : option (list nat);
  amplitude : list (list R);
  mean : list R;
  variance : list R;
  shift : list (list R)
}.

Definition Ksub (self : t) (i j : nat) (X1 : matrix R) (X2 : option (matrix R))
    : result (matrix R) :=
  X ← Kernel._active_input (active_dims self) X1 X2 ;
  let tau := Kernel.distance X.1 X.2 in
  if decide (i = j) then
    amplitude ← at_channel (amplitude self) i ;
    Ok (mat_map (λ tau,
          let exp := Rtrigo_def.exp (- (1 / 2) * dot (vsquare tau) (variance self)) in
          let cos := cos (2 * PI * dot tau (mean self)) in
          vsum ((λ a, a * exp * cos) <$> amplitude)) tau)
  else
    shift_i ← at_channel (shift self) i ;
    shift_j ← at_channel (shift self) j ;
    let shift := vsub shift_i shift_j in
    amplitude_i ← at_channel (amplitude self) i ;
    amplitude_j ← at_channel (amplitude self) j ;
    let amplitude := sqrt <$> vmul amplitude_i amplitude_j in
    Ok (mat_map (λ tau,
          let exp := Rtrigo_def.exp (- (1 / 2) * dot (vsquare tau) (variance self)) in
          vsum (zip_with (λ a s, a * exp * cos (2 * PI * (dot tau (mean self) + s)))
                  amplitude shift)) tau).

Definition Ksub_diag (self : t) (i : nat) (X1 : matrix R) : result (list R) :=
  amplitude_i ← at_channel (amplitude self) i ;
  Ok (replicate (nrows X1) (vsum amplitude_i)).
End csm.
End CrossSpectralKernel.

(** [[f(x) for x in l]] for a fallible [f]: the first failure is raised. *)
Fixpoint collect {T U : Type} (f : T → result U) (l : list T) : result (list U) :=
  match l with
  | [] => Ok []
  | x :: l' => y ← f x ; ys ← collect f l' ; Ok (y :: ys)
  end.

Module LinearModelOfCoregionalizationKernel.
Section lmc.
Local Open Scope R_scope.

(** [weight] has shape (output_dims, Q, Rq); [__init__] declares no active
    dimensions. *)
Record t : Type := Make {
  output_dims : nat;
  input_dims : nat;
  kernels : list Kernel.t;
  weight : list (list (list R))
}.

(** [torch.tensordot(torch.stack(Ks, dim=2), weight, dims=1)]: the
    stacked tensor has the shape of the first matrix. *)
Definition stack_dot (Ks : list (matrix R)) (weight : list R) : result (matrix R) :=
  match Ks with
  | [] => Err RuntimeError
  | K0 :: _ =>
      Ok (Mat (ncols K0)
            (table (nrows K0) (ncols K0) (λ n m, dot ((λ Kq, entry Kq n m) <$> Ks) weight)))
  end.

(** The same for vectors stacked along [dim=1]. *)
Definition stack_dot_diag (Ks : list (list R)) (weight : list R) : result (list R) :=
  match Ks with
  | [] => Err RuntimeError
  | K0 :: _ => Ok ((λ n, dot ((λ Kq, nth n Kq 0) <$> Ks) weight) <$> seq 0 (length K0))
  end.

Definition Ksub (self : t) (i j : nat) (X1 : matrix R) (X2 : option (matrix R))
    : result (matrix R) :=
  X ← Kernel._active_input None X1 X2 ;
  weight_i ← at_channel (weight self) i ;
  weight_j ← at_channel (weight self) j ;
  let weight := zip_with (λ a b, vsum (vmul a b)) weight_i weight_j in
  kernels ← collect (λ kernel, Kernel.K kernel X.1 X.2) (kernels self) ;
  stack_dot kernels weight.

Definition Ksub_diag (self : t) (i : nat) (X1 : matrix R) : result (list R) :=
  X ← Kernel._active_input None X1 None ;
  weight_i ← at_channel (weight self) i ;
  let weight := (λ a, vsum (vsquare a)) <$> weight_i in
  kernels ← collect (λ kernel, Kernel.K_diag kernel X.1) (kernels self) ;
  stack_dot_diag kernels weight.
End lmc.
End LinearModelOfCoregionalizationKernel.

Module GaussianConvolutionProcessKernel.
Section conv.
Local Open Scope R_scope.

Record t : Type := Make {
  output_dims : nat;
  input_dims : nat;
  active_dims : option (list nat);
  weight : list R;
  variance : list (list R);
  base_variance : list R
}.

Definition Ksub (self : t) (i j : nat) (X1 : matrix R) (X2 : option (matrix R))
    : result (matrix R) :=
  X ← Kernel._active_input (active_dims self) X1 X2 ;
  let tau := Kernel.squared_distance X.1 X.2 in
  match X.2 with
  | None =>
      variance_i ← at_channel (variance self) i ;
      let variances := vadd (vscale 2 variance_i) (base_variance self) in
      weight_i ← at_channel (weight self) i ;
      let weight := weight_i * weight_i
                    * sqrt (vprod (base_variance self) / vprod variances) in
      Ok (mat_map (λ tau, weight * Rtrigo_def.exp (- (1 / 2) * dot tau (vinv variances))) tau)
  | Some _ =>
      variance_i ← at_channel (variance self) i ;
      variance_j ← at_channel (variance self) j ;
      let variances := vadd (vadd variance_i variance_j) (base_variance self) in
      let weight_variance := sqrt (vprod (base_variance self) / vprod variances) in
      weight_i ← at_channel (weight self) i ;
      weight_j ← at_channel (weight self) j ;
      let weight := weight_i * weight_j * weight_variance in
      Ok (mat_map (λ tau, weight * Rtrigo_def.exp (- (1 / 2) * dot tau (vinv variances))) tau)
  end.

Definition Ksub_diag (self : t) (i : nat) (X1 : matrix R) : result (list R) :=
  variance_i ← at_channel (variance self) i ;
  let variances := vadd (vscale 2 variance_i) (base_variance self) in
  weight_i ← at_channel (weight self) i ;
  let weight := weight_i * weight_i * sqrt (vprod (base_variance self) / vprod variances) in
  Ok (replicate (nrows X1) weight).
End conv.
End GaussianConvolutionProcessKernel.

Module MultiOutputHarmonizableSpectralKernel.
Section mohsm.
Local Open Scope R_scope.

Record t : Type := Make {
  output_dims : nat;
  input_dims : nat;
  active_dims : option (list nat);
  magnitude : list R;
  mean : list (list R);
  variance : list (list R);
  lengthscale : list R;
  delay : option (list (list R));
  phase : option (list R);
  center : list R
}.

(** [np.power(2.0*np.pi, float(self.input_dims))] *)
Definition twopi (self : t) : R := Rpower (2 * PI) (INR (input_dims self)).

(** [lengthscale*torch.ones(self.input_dims)] *)
Definition ones_scaled (self : t) (lengthscale : R) : list R :=
  vscale lengthscale (replicate (input_dims self) 1).

Definition Ksub (self : t) (i j : nat) (X1 : matrix R) (X2 : option (matrix R))
    : result (matrix R) :=
  X ← Kernel._active_input (active_dims self) X1 X2 ;
  let tau := Kernel.distance X.1 X.2 in
  let avg := Kernel.average X.1 X.2 in
  if decide (i = j) then
    variance ← at_channel (variance self) i ;
    lengthscale_i ← at_channel (lengthscale self) i ;
    let lengthscale := lengthscale_i * lengthscale_i in
    magnitude_i ← at_channel (magnitude self) i ;
    let alpha := magnitude_i * magnitude_i * twopi self * sqrt (vprod variance)
                 * sqrt lengthscale ^ input_dims self in
    mean_i ← at_channel (mean self) i ;
    Ok (mat_zip_with (λ tau avg,
          let exp1 := Rtrigo_def.exp (- (1 / 2) * dot (vsquare tau) variance) in
          let exp2 := Rtrigo_def.exp (- (1 / 2) * dot (vsquare (vsub avg (center self)))
                                                  (ones_scaled self lengthscale)) in
          let cos := cos (2 * PI * dot tau mean_i) in
          alpha * exp1 * cos * exp2) tau avg)
  else
    lengthscale_i ← at_channel (lengthscale self) i ;
    lengthscale_j ← at_channel (lengthscale self) j ;
    let lengthscale_i := lengthscale_i * lengthscale_i in
    let lengthscale_j := lengthscale_j * lengthscale_j in
    variance_i ← at_channel (variance self) i ;
    variance_j ← at_channel (variance self) j ;
    let inv_variances := vinv (vadd variance_i variance_j) in
    let inv_lengthscale := 1 / (lengthscale_i + lengthscale_j) in
    mean_i ← at_channel (mean self) i ;
    mean_j ← at_channel (mean self) j ;
    let diff_mean := vsub mean_i mean_j in
    magnitude_i ← at_channel (magnitude self) i ;
    magnitude_j ← at_channel (magnitude self) j ;
    let magnitude := magnitude_i * magnitude_j
                     * Rtrigo_def.exp (- (PI * PI) * dot diff_mean (vmul inv_variances diff_mean)) in
    let mean := vmul inv_variances (vadd (vmul variance_i mean_j) (vmul variance_j mean_i)) in
    let variance := vmul (vmul (vscale 2 variance_i) inv_variances) variance_j in
    let lengthscale := 2 * lengthscale_i * inv_lengthscale * lengthscale_j in
    delays ← attribute (delay self) ;
    delay_i ← at_channel delays i ;
    delay_j ← at_channel delays j ;
    let delay := vsub delay_i delay_j in
    phases ← attribute (phase self) ;
    phase_i ← at_channel phases i ;
    phase_j ← at_channel phases j ;
    let phase := phase_i - phase_j in
    let alpha := magnitude * twopi self * sqrt (vprod variance)
                 * sqrt lengthscale ^ input_dims self in
    Ok (mat_zip_with (λ tau avg,
          let exp1 := Rtrigo_def.exp (- (1 / 2) * dot (vsquare (vadd tau delay)) variance) in
          let exp2 := Rtrigo_def.exp (- (1 / 2) * dot (vsquare (vsub avg (center self)))
                                                  (ones_scaled self lengthscale)) in
          let cos := cos (2 * PI * dot (vadd tau delay) mean + phase) in
          alpha * exp1 * cos * exp2) tau avg).

Definition Ksub_diag (self : t) (i : nat) (X1 : matrix R) : result (list R) :=
  X ← Kernel._active_input (active_dims self) X1 None ;
  variance ← at_channel (variance self) i ;
  lengthscale_i ← at_channel (lengthscale self) i ;
  let lengthscale := lengthscale_i * lengthscale_i in
  magnitude_i ← at_channel (magnitude self) i ;
  let alpha := magnitude_i * magnitude_i * twopi self * sqrt (vprod variance)
               * sqrt lengthscale ^ input_dims self in
  Ok ((λ x, alpha * Rtrigo_def.exp (- (1 / 2) * dot (vsquare (vsub x (center self)))
                                                  (ones_scaled self lengthscale)))
        <$> rows X.1).

(** The spectral kernel with the same magnitude, mean, variance, delay and
    phase parameters. *)
Definition to_mosm (self : t) : MultiOutputSpectralKernel.t :=
  MultiOutputSpectralKernel.Make (output_dims self) (input_dims self) (active_dims self)
    (magnitude self) (mean self) (variance self) (delay self) (phase self).

(** The same-channel block as the specification words it, to compare
    [Ksub] with: the same-channel block of the spectral kernel with equal
    parameters, times the envelope exp(-1/2 (avg - center)^2 lengthscale)
    in the average position, with the channel's lengthscale. *)
Definition Ksub_same_channel_spec (self : t) (i : nat) (X1 : matrix R)
    (X2 : option (matrix R)) : result (matrix R) :=
  K ← MultiOutputSpectralKernel.Ksub (to_mosm self) i i X1 X2 ;
  lengthscale ← at_channel (lengthscale self) i ;
  X ← Kernel._active_input (active_dims self) X1 X2 ;
  Ok (mat_zip_with (λ k avg,
        k * Rtrigo_def.exp (- (1 / 2) * dot (vsquare (vsub avg (center self)))
                                            (ones_scaled self lengthscale)))
        K (Kernel.average X.1 X.2)).
End mohsm.
End MultiOutputHarmonizableSpectralKernel.

(** ** The concrete multi-output kernels, as one type *)

Inductive mokernel : Type :=
| IMO (k : IndependentMultiOutputKernel.t)
| MOSM (k : MultiOutputSpectralKernel.t)
| uMOSM (k : UncoupledMultiOutputSpectralKernel.t)
| CSM (k : CrossSpectralKernel.t)
| LMC (k : LinearModelOfCoregionalizationKernel.t)
| CONV (k : GaussianConvolutionProcessKernel.t)
| MOHSM (k : MultiOutputHarmonizableSpectralKernel.t).

(** Method dispatch. *)
Definition Ksub (k : mokernel) : nat → nat → matrix R → option (matrix R) → result (matrix R) :=
  match k with
  | IMO k => IndependentMultiOutputKernel.Ksub k
  | MOSM k => MultiOutputSpectralKernel.Ksub k
  | uMOSM k => UncoupledMultiOutputSpectralKernel.Ksub k
  | CSM k => CrossSpectralKernel.Ksub k
  | LMC k => LinearModelOfCoregionalizationKernel.Ksub k
  | CONV k => GaussianConvolutionProcessKernel.Ksub k
  | MOHSM k => MultiOutputHarmonizableSpectralKernel.Ksub k
  end.

Definition Ksub_diag (k : mokernel) : nat → matrix R → result (list R) :=
  match k with
  | IMO k => IndependentMultiOutputKernel.Ksub_diag k
  | MOSM k => MultiOutputSpectralKernel.Ksub_diag k
  | uMOSM k => UncoupledMultiOutputSpectralKernel.Ksub_diag k
  | CSM k => CrossSpectralKernel.Ksub_diag k
  | LMC k => LinearModelOfCoregionalizationKernel.Ksub_diag k
  | CONV k => GaussianConvolutionProcessKernel.Ksub_diag k
  | MOHSM k => MultiOutputHarmonizableSpectralKernel.Ksub_diag k
  end.

(** The single-output kernels a multi-output kernel is built from. *)
Definition subkernels (k : mokernel) : list Kernel.t :=
  match k with
  | IMO k => IndependentMultiOutputKernel.kernels k
  | LMC k => LinearModelOfCoregionalizationKernel.kernels k
  | _ => []
  end.

(** * Example inputs *)

(** A multi-output likelihood over the integers: two
    likelihoods whose mean adds 100, respectively doubles, and the channel
    column (0, 0, 1, 1, 1). *)

Definition example_likelihood (g : Z → Z) : Likelihood.t Z :=
  Likelihood.Make
    (λ y f, Ok (Tensor (mat_map g f)))
    (λ y mu var, Ok (mat_map g mu))
    (λ f, Ok (Tensor (mat_map g f)))
    (λ f, Ok (Scalar (g 0%Z)))
    (λ f, Ok (Tensor (mat_map g f)))
    (λ mu var ci sigma n,
       match ci with
       | None => Ok (Point (Tensor (mat_map g mu)))
       | Some _ => Ok (Interval (Tensor (mat_map g mu)) (Tensor mu) (Tensor var))
       end).

Definition example_self : MultiOutputLikelihood.t (A:=Z) :=
  MultiOutputLikelihood.Make [example_likelihood (Z.add 100); example_likelihood (Z.mul 2)].
Definition example_X : matrix Z := Mat 2 [[0; 10]; [0; 11]; [1; 12]; [1; 13]; [1; 14]]%Z.
Definition example_f : matrix Z := Mat 1 [[1]; [2]; [3]; [4]; [5]]%Z.
Definition example_store : store Z := <[2%positive := example_f]> {[1%positive := example_X]}.

(** The quadrature that [quadratures=1] builds: numpy's [hermgauss(1)] is
    the node 0 with the weight sqrt(pi). *)
Definition hermgauss_one : nat → list R * list R := λ _, ([0%R], [sqrt PI]).
Definition one_node : GaussHermiteQuadrature.t := GaussHermiteQuadrature.Make [0%R] [1%R].

(** The latent draws of the example: the standard normal values 0 and 1. *)
Definition example_eps : nat → nat → nat → R := λ s _ _, INR s.
Definition example_bernoulli : BernoulliLikelihood.t :=
  BernoulliLikelihood.init hermgauss_one logistic 1.

(** A single-output kernel to build instances with: the constant kernel. *)
Definition constant_kernel (c : R) : Kernel.t :=
  Kernel.Make (λ X1 X2, Ok (pairwise (λ _ _, c) X1 (Kernel.second X1 X2)))
              (λ X1, Ok ((λ _, c) <$> rows X1)).

Section example_kernels.
Local Open Scope R_scope.

(** One channel, one input dimension, every parameter one, the center at
    zero. *)
Definition example_mohsm : MultiOutputHarmonizableSpectralKernel.t :=
  MultiOutputHarmonizableSpectralKernel.Make 1 1 None [1] [[1]] [[1]] [1] None None [0].

(** Two channels, one input dimension; means and variances one, no delay,
    phases 1/2 and 0.  The lower triangle L of the uncoupled kernel has
    (L L^T)[0,1] = 1, the product of the two magnitudes of the spectral
    kernel. *)
Definition example_umosm : UncoupledMultiOutputSpectralKernel.t :=
  UncoupledMultiOutputSpectralKernel.Make 2 1 None [[1; 0]; [1; 1]]
    [[1]; [1]] [[1]; [1]] (Some [[0]; [0]]) (Some [1 / 2; 0]).
Definition example_mosm : MultiOutputSpectralKernel.t :=
  MultiOutputSpectralKernel.Make 2 1 None [1; 1]
    [[1]; [1]] [[1]; [1]] (Some [[0]; [0]]) (Some [1 / 2; 0]).

(** Two channels, one input dimension, weights one; the smoothing variances
    are 0 and 3/2, the base variance is one. *)
Definition example_conv : GaussianConvolutionProcessKernel.t :=
  GaussianConvolutionProcessKernel.Make 2 1 None [1; 1] [[0]; [3 / 2]] [1].
End example_kernels.

(** Channel [j] of a multi-output likelihood accepts its rows of [y]:
    [self.likelihoods[j].validate_y(y[r[j],:])] returns. *)
Definition channel_valid {A : Type} (validate_y_of : Likelihood.t A → matrix A → result unit)
    (self : MultiOutputLikelihood.t (A:=A)) (r : list (list nat)) (y : matrix A) (j : nat)
    : Prop :=
  ∃ L rj ysub,
    MultiOutputLikelihood.likelihoods self !! j = Some L
    ∧ r !! j = Some rj
    ∧ gather_rows rj y = Ok ysub
    ∧ validate_y_of L ysub = Ok tt.

(** A validator for the examples: every entry is at least zero. *)
Definition example_validate (L : Likelihood.t Z) (y : matrix Z) : result unit :=
  if forallb (forallb (λ a, bool_decide (0 ≤ a)%Z)) (rows y) then Ok tt
  else Err (ValueError "y must be positive").

(** A channel column that names the channels 0 and 5, for two
    likelihoods. *)
Definition example_X_stray : matrix Z := Mat 2 [[0; 10]; [5; 11]]%Z.
Definition example_f_stray : matrix Z := Mat 1 [[1]; [2]]%Z.
Definition example_store_stray : store Z :=
  <[2%positive := example_f_stray]> {[1%positive := example_X_stray]}.

(** The methods of the example Bernoulli likelihood that the base [predict]
    calls; the logistic link does not use the error function. *)
Definition example_mean : matrix R → result (tvalue R) :=
  BernoulliLikelihood.mean (λ _, 0%R) example_bernoulli.
Definition example_sample : list (matrix R) → result (list (matrix R)) :=
  BernoulliLikelihood.sample example_bernoulli.

(** ** likelihood.py: further likelihoods *)

Module ExponentialLikelihood.
Section exponential.
Local Open Scope R_scope.
Variable erf : R → R.

Record t : Type := Make { link_of : link }.

Definition validate_y (self : t) (y : matrix observation) : result unit :=
  if any_entry (lt_const 0) y then Err (ValueError "y must be positive")
  else Ok tt.

Definition mean (self : t) (f : matrix R) : matrix R :=
  mat_map (apply_link erf (link_of self)) f.

Definition variance (self : t) (f : matrix R) : matrix R :=
  mat_map (λ x, apply_link erf (link_of self) x * apply_link erf (link_of self) x) f.
End exponential.
End ExponentialLikelihood.

Module GammaLikelihood.
Section gamma.
Local Open Scope R_scope.
Variable erf : R → R.

(** [self.link] and the value of the parameter [self.shape]. *)
Record t : Type := Make { shape : R; link_of : link }.

Definition validate_y (self : t) (y : matrix observation) : result unit :=
  if any_entry (le_const 0) y
  then Err (ValueError "y must be in the range (0.0,inf)")
  else Ok tt.

Definition mean (self : t) (f : matrix R) : matrix R :=
  mat_map (λ x, shape self * apply_link erf (link_of self) x) f.

Definition variance (self : t) (f : matrix R) : matrix R :=
  mat_map (λ x, shape self * (apply_link erf (link_of self) x * apply_link erf (link_of self) x)) f.
End gamma.
End GammaLikelihood.

Module PoissonLikelihood.
Section poisson.
Local Open Scope R_scope.
Variable erf : R → R.
(** What the conversion of a float to int64 yields where C leaves it
    undefined and torch does not check it: for a number whose truncation is
    outside of the 64 bits, for an infinity and for NaN.  It depends on the
    platform. *)
Variable out_of_range : observation → Z.

Record t : Type := Make { link_of : link }.

(** [y.long()] on an entry: truncation towards zero. *)
Definition long (a : observation) : Z :=
  match a with
  | Number x =>
      if decide (- 2 ^ 63 ≤ py_int x < 2 ^ 63)%Z then py_int x else out_of_range a
  | _ => out_of_range a
  end.

(** [y == y.long()] on an entry: the integer is cast back to the dtype of
    [y], and is a number then. *)
Definition eq_long (a : observation) : bool :=
  match a with
  | Number x => bool_decide (x = IZR (long a))
  | _ => false
  end.

Definition validate_y (self : t) (y : matrix observation) : result unit :=
  if any_entry (lt_const 0) y
  then Err (ValueError "y must be in the range [0.0,inf)")
  else if negb (forallb (forallb eq_long) (rows y))
  then Err (ValueError "y must have integer count values")
  else Ok tt.

Definition mean (self : t) (f : matrix R) : matrix R :=
  mat_map (apply_link erf (link_of self)) f.

Definition variance (self : t) (f : matrix R) : matrix R :=
  mat_map (apply_link erf (link_of self)) f.
End poisson.
End PoissonLikelihood.


Module GaussianLikelihood.
Section gaussian.
Local Open Scope R_scope.

(** The value of the parameter [self.scale]. *)
Record t : Type := Make { scale : R }.

Definition log_prob (self : t) (y f : matrix R) : result (matrix R) :=
  against_column (λ y f,
    - (1 / 2) * (ln (2 * PI) + 2 * ln (scale self)
                 + ((y - f) / scale self) * ((y - f) / scale self))) y f.

(** [y], [mu] and [var] have the documented shape (N, 1); the scalars are
    subtracted from every entry, and the sum is over all entries. *)
Definition variational_expectation (self : t) (y mu var : matrix R) : result R :=
  if decide (ncols y = 1%nat ∧ ncols mu = 1%nat ∧ ncols var = 1%nat
             ∧ nrows y = nrows mu ∧ nrows y = nrows var) then
    let p := mat_zip_with (λ d v, - (d + v) / (scale self * scale self))
               (mat_zip_with (λ y m, (y - m) * (y - m)) y mu) var in
    let p := mat_map (λ x, x - ln (2 * PI)) p in
    let p := mat_map (λ x, x - 2 * ln (scale self)) p in
    Ok (1 / 2 * vsum (concat (rows p)))
  else Err RuntimeError.

Definition mean (self : t) (f : matrix R) : matrix R := f.

(** A zero-dimensional tensor. *)
Definition variance (self : t) (f : matrix R) : R := scale self * scale self.
End gaussian.
End GaussianLikelihood.

(** The column of [n] rows that holds [a] everywhere. *)
Definition constant_column (n : nat) (a : R) : matrix R := Mat 1 (replicate n [a]).

(** Channels [i] and [j] hold the same value [x] of a parameter [p]:
    [p()[i]] and [p()[j]] are both [x]. *)
Definition shared {T : Type} (p : list T) (i j : nat) (x : T) : Prop :=
  p !! i = Some x ∧ p !! j = Some x.

(** [X + c] for a vector [c] with one entry for each input dimension,
    broadcast over the points of [X]. *)
Definition translate (c : list R) (X : matrix R) : matrix R :=
  Mat (ncols X) ((λ x, vadd x c) <$> rows X).

(** The coordinates [dims] of a point, as [torch.index_select] takes them
    of each row. *)
Definition coordinates (dims : list nat) (x : list R) : list R :=
  (λ d, nth d x 0%R) <$> dims.

(** What is left of a shift [c] of the inputs once [_active_input] has
    restricted them to the active dimensions. *)
Definition active_shift (active_dims : option (list nat)) (c : list R) : list R :=
  match active_dims with Some dims => coordinates dims c | None => c end.

(** * Properties *)

(** The order of the reals, for sorting. *)
#[global] Instance Rle_transitive : Transitive Rle := Rle_trans.
#[global] Instance Rle_antisymm : AntiSymm (=) Rle := Rle_antisym.
#[global] Instance Rle_total : Total Rle.
Proof. intros x y. destruct (Rle_or_lt x y); [by left | right; by apply Rlt_le]. Qed.

(** ** Lists, slices and results *)

Lemma imap_same {B : Type} (f : nat → B → B) (l : list B) :
  (∀ p x, l !! p = Some x → f p x = x) → imap f l = l.
Proof.
  intros Hf. rewrite <- (list_fmap_id l) at 2. rewrite <- imap_const.
  apply imap_ext. intros p x Hp. by apply Hf.
Qed.

Lemma update_slice_app {B : Type} (f : nat → B → B) (pre mid post : list B) :
  update_slice (length pre) (length mid) f (pre ++ mid ++ post) = pre ++ imap f mid ++ post.
Proof.
  unfold update_slice. rewrite !imap_app. f_equal; [|f_equal].
  - apply imap_same. intros p x Hp. apply lookup_lt_Some in Hp.
    rewrite decide_False by lia. done.
  - apply imap_ext. intros p x Hp. apply lookup_lt_Some in Hp. simpl.
    rewrite decide_True by lia. f_equal. lia.
  - apply imap_same. intros p x Hp. simpl.
    rewrite decide_False by lia. done.
Qed.

Lemma update_slice_mid {B : Type} (n k : nat) (f : nat → B → B) (pre mid post : list B) :
  length pre = n → length mid = k →
  update_slice n k f (pre ++ mid ++ post) = pre ++ imap f mid ++ post.
Proof. intros <- <-. apply update_slice_app. Qed.

Lemma sum_list_app (N1 N2 : list nat) : sum_list (N1 ++ N2) = sum_list N1 + sum_list N2.
Proof. induction N1 as [|k N1 IH]; simpl; [done|]. rewrite IH. lia. Qed.

Lemma length_concat_sum {B : Type} (ls : list (list B)) :
  length (concat ls) = sum_list (length <$> ls).
Proof. induction ls as [|l ls IH]; simpl; [done|]. rewrite length_app, IH. done. Qed.

Section util_props.
Context {A : Type}.
Variable zero : A.
Variable of_channel : nat → A.

Abbreviation zero_row D := (replicate (1 + D) zero).

Lemma payload_step (D n channel m : nat) (x : matrix A) (pre : list (list A)) :
  ncols x = D → length pre = n →
  Util.assign_payload n (nrows x) x
    (Util.assign_channel of_channel n (nrows x) channel
       (Mat (1 + D) (pre ++ replicate (nrows x + m) (zero_row D))))
  = Ok (Mat (1 + D) ((pre ++ Util.tag of_channel channel x) ++ replicate m (zero_row D))).
Proof.
  intros HD Hn. unfold Util.assign_payload, Util.assign_channel. simpl.
  rewrite decide_True by (left; lia).
  rewrite replicate_add.
  rewrite (update_slice_mid n (nrows x)) by (done || by rewrite length_replicate).
  rewrite (update_slice_mid n (nrows x)) by (done || by rewrite length_imap, length_replicate).
  do 2 f_equal. rewrite <- app_assoc. do 2 f_equal.
  apply list_eq. intros q. unfold Util.tag.
  rewrite !list_lookup_imap, list_lookup_fmap.
  destruct (rows x !! q) as [xr|] eqn:Hq.
  - apply lookup_lt_Some in Hq as Hlt. 
    rewrite lookup_replicate_2 by done. simpl.
    unfold Util.broadcast_row. rewrite decide_True by lia. done.
  - apply lookup_ge_None in Hq. 
    rewrite (proj1 (lookup_replicate_None _ _ _)) by (unfold nrows; lia). done.
Qed.

(** The same round on the output tensor. *)
Lemma rows_step (n m : nat) (y : matrix A) (pre : list (list A)) :
  ncols y = 1 → length pre = n →
  Util.assign_rows n (nrows y) y (Mat 1 (pre ++ replicate (nrows y + m) (replicate 1 zero)))
  = Ok (Mat 1 ((pre ++ rows y) ++ replicate m (replicate 1 zero))).
Proof.
  intros Hy Hn. unfold Util.assign_rows. simpl.
  rewrite decide_True by (left; lia).
  rewrite replicate_add.
  rewrite (update_slice_mid n (nrows y)) by (done || by rewrite length_replicate).
  do 2 f_equal. rewrite <- app_assoc. do 2 f_equal.
  apply list_eq. intros q. rewrite list_lookup_imap.
  destruct (rows y !! q) as [yr|] eqn:Hq.
  - apply lookup_lt_Some in Hq as Hlt.
    rewrite lookup_replicate_2 by done. simpl.
    unfold Util.broadcast_row. rewrite decide_True by lia. done.
  - apply lookup_ge_None in Hq.
    rewrite (proj1 (lookup_replicate_None _ _ _)) by (unfold nrows; lia). done.
Qed.

Lemma tag_channels_from_cons (channel : nat) (x : matrix A) (xs : list (matrix A)) :
  Util.tag_channels_from of_channel channel (x :: xs)
  = Mat (1 + ncols x) (Util.tag of_channel channel x)
    :: Util.tag_channels_from of_channel (S channel) xs.
Proof.
  unfold Util.tag_channels_from. rewrite imap_cons. f_equal.
  - by rewrite Nat.add_0_r.
  - apply imap_ext. intros c y _. simpl. do 2 f_equal. lia.
Qed.

(** The stacking loop without outputs. *)
Lemma merge_loop_inputs (D : nat) (xs : list (matrix A)) :
  ∀ (channel n : nat) (pre : list (list A)),
  Forall (λ x, ncols x = D) xs → length pre = n →
  Util.merge_loop of_channel None channel xs
    (n, Mat (1 + D) (pre ++ replicate (sum_list (nrows <$> xs)) (replicate (1 + D) zero)), None)
  = Ok (n + sum_list (nrows <$> xs),
        Mat (1 + D) (pre ++ concat (rows <$> Util.tag_channels_from of_channel channel xs)),
        None).
Proof.
  induction xs as [|x xs IH]; intros channel n pre Hxs Hn.
  - simpl. rewrite Nat.add_0_r. done.
  - apply Forall_cons in Hxs as [Hx Hxs].
    cbn [Util.merge_loop fmap list_fmap sum_list foldr].
    unfold Util.merge_step. fold (sum_list (nrows <$> xs)).
    rewrite (payload_step D n) by done. cbn [mbind result_bind].
    rewrite IH by (done || rewrite length_app; unfold Util.tag; rewrite length_fmap; unfold nrows; lia).
    rewrite tag_channels_from_cons. cbn [fmap list_fmap concat rows].
    rewrite <- app_assoc, Nat.add_assoc. done.
Qed.

(** The stacking loop with outputs. *)
Lemma merge_loop_outputs (D : nat) (xs : list (matrix A)) :
  ∀ (ys ys_pre : list (matrix A)) (channel n : nat) (pre preY : list (list A)),
  Forall (λ x, ncols x = D) xs →
  Forall2 (λ x y, nrows y = nrows x ∧ ncols y = 1) xs ys →
  length ys_pre = channel → length pre = n → length preY = n →
  Util.merge_loop of_channel (Some (ys_pre ++ ys)) channel xs
    (n, Mat (1 + D) (pre ++ replicate (sum_list (nrows <$> xs)) (replicate (1 + D) zero)),
     Some (Mat 1 (preY ++ replicate (sum_list (nrows <$> xs)) (replicate 1 zero))))
  = Ok (n + sum_list (nrows <$> xs),
        Mat (1 + D) (pre ++ concat (rows <$> Util.tag_channels_from of_channel channel xs)),
        Some (Mat 1 (preY ++ concat (rows <$> ys)))).
Proof.
  induction xs as [|x xs IH]; intros ys ys_pre channel n pre preY Hxs Hys Hc Hn HnY.
  - apply Forall2_nil_inv_l in Hys as ->. simpl. rewrite Nat.add_0_r. done.
  - apply Forall_cons in Hxs as [Hx Hxs].
    apply Forall2_cons_inv_l in Hys as (y & ys' & [Hyr Hyc] & Hys & ->).
    cbn [Util.merge_loop fmap list_fmap sum_list foldr].
    unfold Util.merge_step. fold (sum_list (nrows <$> xs)).
    rewrite (payload_step D n) by done. cbn [mbind result_bind].
    rewrite lookup_app_r by lia. rewrite Hc, Nat.sub_diag. cbn [lookup list_lookup of_option mbind result_bind].
    rewrite <- Hyr. rewrite (rows_step n) by done. cbn [mbind result_bind].
    rewrite Hyr.
    replace (ys_pre ++ y :: ys') with ((ys_pre ++ [y]) ++ ys') by (by rewrite <- app_assoc).
    rewrite IH; try done.
    + rewrite tag_channels_from_cons. cbn [fmap list_fmap concat rows].
      rewrite <- !app_assoc, Nat.add_assoc. done.
    + rewrite length_app. simpl. lia.
    + rewrite length_app. unfold Util.tag. rewrite length_fmap. unfold nrows. lia.
    + rewrite length_app. unfold nrows in *. lia.
Qed.

(** Splitting a tensor made of blocks gives the blocks back. *)
Lemma split_loop_blocks (d : nat) (blocks : list (list (list A))) :
  ∀ pre : list (list A),
  Util.split_loop (length <$> blocks) (length pre) (Mat d (pre ++ concat blocks))
  = Mat d <$> blocks.
Proof.
  induction blocks as [|b blocks IH]; intros pre; [done|].
  cbn [fmap list_fmap Util.split_loop concat]. f_equal.
  - unfold slice_rows. cbn [ncols rows]. f_equal.
    replace (length pre + length b - length pre) with (length b) by lia.
    by rewrite drop_app_length, take_app_length.
  - rewrite <- length_app, app_assoc. apply IH.
Qed.

(** The pieces of a split: their row counts are [N], their column count is
    that of the tensor, and together they are its rows. *)
Lemma split_loop_pieces (N : list nat) (X : matrix A) :
  ∀ n, n + sum_list N ≤ nrows X →
  nrows <$> Util.split_loop N n X = N
  ∧ Forall (λ P, ncols P = ncols X) (Util.split_loop N n X)
  ∧ concat (rows <$> Util.split_loop N n X) = take (sum_list N) (drop n (rows X)).
Proof.
  induction N as [|k N IH]; intros n Hn.
  - by rewrite take_0.
  - cbn [sum_list foldr] in *. fold (sum_list N) in *.
    destruct (IH (n + k)) as (IH1 & IH2 & IH3); [lia|].
    cbn [Util.split_loop fmap list_fmap concat]. split_and!.
    + f_equal; [|done]. unfold nrows, slice_rows in *. cbn [rows].
      rewrite length_take, length_drop. lia.
    + by constructor.
    + rewrite IH3. unfold slice_rows. cbn [rows].
      replace (n + k - n) with k by lia.
      rewrite <- (drop_drop (rows X) k n). by rewrite take_take_drop.
Qed.

Lemma split_data_single (N : list nat) (X : matrix A) :
  nrows X = sum_list N → Util.split_data N [X] = Ok (Util.Single (Util.split_loop N 0 X)).
Proof.
  intros HX. unfold Util.split_data.
  rewrite bool_decide_eq_true_2 by (by repeat constructor). done.
Qed.

Lemma split_data_pair (N : list nat) (X Y : matrix A) :
  nrows X = sum_list N → nrows Y = sum_list N →
  Util.split_data N [X; Y]
  = Ok (Util.Tuple [Util.split_loop N 0 X; Util.split_loop N 0 Y]).
Proof.
  intros HX HY. unfold Util.split_data.
  rewrite bool_decide_eq_true_2 by (by repeat constructor). done.
Qed.

(** What [merge_data] returns on channels with [D] columns each. *)
Lemma merge_data_inputs (D : nat) (xs : list (matrix A)) :
  xs ≠ [] → Forall (λ x, ncols x = D) xs →
  Util.merge_data zero of_channel xs None
  = Ok (nrows <$> xs,
        Mat (1 + D) (concat (rows <$> Util.tag_channels of_channel xs)), None).
Proof.
  intros Hne Hxs. unfold Util.merge_data.
  assert (∃ x0, xs !! 0 = Some x0 ∧ ncols x0 = D) as (x0 & -> & <-).
  { destruct xs as [|x0 xs']; [done|]. exists x0. split; [done|].
    by apply Forall_cons in Hxs as [? _]. }
  cbn [of_option mbind result_bind]. unfold Util.zeros.
  pose proof (merge_loop_inputs (ncols x0) xs 0 0 [] Hxs eq_refl) as Hloop.
  cbn [app] in Hloop. rewrite Hloop. done.
Qed.

Lemma merge_data_outputs (D : nat) (xs ys : list (matrix A)) :
  xs ≠ [] → Forall (λ x, ncols x = D) xs →
  Forall2 (λ x y, nrows y = nrows x ∧ ncols y = 1) xs ys →
  Util.merge_data zero of_channel xs (Some ys)
  = Ok (nrows <$> xs,
        Mat (1 + D) (concat (rows <$> Util.tag_channels of_channel xs)),
        Some (Mat 1 (concat (rows <$> ys)))).
Proof.
  intros Hne Hxs Hys. unfold Util.merge_data.
  rewrite bool_decide_eq_false_2
    by (intros Hl; apply Hl; symmetry; by eapply Forall2_length).
  rewrite bool_decide_eq_false_2.
  2:{ intros Hl; apply Hl. clear -Hys. induction Hys as [|x y xs ys [? _] _ IH]; [done|].
      cbn [fmap list_fmap]. by f_equal. }
  assert (∃ x0, xs !! 0 = Some x0 ∧ ncols x0 = D) as (x0 & -> & <-).
  { destruct xs as [|x0 xs']; [done|]. exists x0. split; [done|].
    by apply Forall_cons in Hxs as [? _]. }
  cbn [of_option mbind result_bind]. unfold Util.zeros.
  pose proof (merge_loop_outputs (ncols x0) xs ys [] 0 0 [] [] Hxs Hys eq_refl eq_refl eq_refl)
    as Hloop.
  cbn [app] in Hloop. rewrite Hloop. done.
Qed.

Lemma tag_channels_rows (D : nat) (xs : list (matrix A)) :
  ∀ channel, Forall (λ x, ncols x = D) xs →
  Mat (1 + D) <$> (rows <$> Util.tag_channels_from of_channel channel xs)
  = Util.tag_channels_from of_channel channel xs
  ∧ length <$> (rows <$> Util.tag_channels_from of_channel channel xs) = nrows <$> xs.
Proof.
  induction xs as [|x xs IH]; intros channel Hxs; [done|].
  apply Forall_cons in Hxs as [Hx Hxs]. destruct (IH (S channel) Hxs) as [IH1 IH2].
  rewrite tag_channels_from_cons. cbn [fmap list_fmap rows]. split.
  - f_equal; [by rewrite Hx | done].
  - f_equal; [|done]. unfold Util.tag. by rewrite length_fmap.
Qed.

(** Stacking channels with [D] columns and splitting the stacked tensor
    gives the channels back behind their channel number. *)
Lemma split_merged (D : nat) (xs : list (matrix A)) :
  Forall (λ x, ncols x = D) xs →
  Util.split_loop (nrows <$> xs) 0
    (Mat (1 + D) (concat (rows <$> Util.tag_channels of_channel xs)))
  = Util.tag_channels of_channel xs.
Proof.
  intros Hxs. destruct (tag_channels_rows D xs 0 Hxs) as [H1 H2].
  unfold Util.tag_channels. rewrite <- H2.
  etrans; [apply (split_loop_blocks (1 + D) _ []) | exact H1].
Qed.

(** C2, as amended. For every non-empty list [N] of row counts, every
    stacked input tensor [X] and every stacked one-column output tensor [Y]
    with [sum N] rows: [split_data] succeeds; [merge_data] of the pieces
    succeeds and returns [N] itself, a stacked tensor [X'] and [Y] itself;
    and splitting [X'] and [Y] again gives every piece of [X] with its
    channel number written in front of each row as a new column 0 (the rows
    behind it unchanged), and the pieces of [Y] exactly.  The same holds
    without outputs. *)
Theorem split_merge_split (N : list nat) (X Y : matrix A) :
  N ≠ [] → ncols Y = 1 → nrows X = sum_list N → nrows Y = sum_list N →
  let px := Util.split_loop N 0 X in
  let py := Util.split_loop N 0 Y in
  Util.split_data N [X] = Ok (Util.Single px)
  ∧ Util.split_data N [X; Y] = Ok (Util.Tuple [px; py])
  ∧ (∃ X', Util.merge_data zero of_channel px None = Ok (N, X', None)
         ∧ Util.split_data N [X'] = Ok (Util.Single (Util.tag_channels of_channel px)))
  ∧ (∃ X', Util.merge_data zero of_channel px (Some py) = Ok (N, X', Some Y)
         ∧ Util.split_data N [X'; Y]
           = Ok (Util.Tuple [Util.tag_channels of_channel px; py])).
Proof.
  intros HN HY HX HYr px py.
  destruct (split_loop_pieces N X 0) as (HpxN & Hpxc & Hpxr); [lia|].
  destruct (split_loop_pieces N Y 0) as (HpyN & Hpyc & Hpyr); [lia|].
  fold px in HpxN, Hpxc, Hpxr. fold py in HpyN, Hpyc, Hpyr.
  assert (px ≠ []) as Hne.
  { intros Hnil. rewrite Hnil in HpxN. by destruct N. }
  assert (nrows (Mat (1 + ncols X) (concat (rows <$> Util.tag_channels of_channel px)))
          = sum_list N) as HX'.
  { unfold nrows. cbn [rows]. rewrite length_concat_sum.
    destruct (tag_channels_rows (ncols X) px 0 Hpxc) as [_ Hl].
    unfold Util.tag_channels. by rewrite Hl, HpxN. }
  assert (Forall2 (λ x y, nrows y = nrows x ∧ ncols y = 1) px py) as Hxy.
  { apply Forall2_same_length_lookup. split.
    - rewrite <- (length_fmap nrows px), <- (length_fmap nrows py). congruence.
    - intros c x y Hx Hy. split.
      + apply (f_equal (.!! c)) in HpxN, HpyN.
        rewrite list_lookup_fmap, Hx in HpxN. rewrite list_lookup_fmap, Hy in HpyN.
        simpl in *. congruence.
      + rewrite Forall_lookup in Hpyc. rewrite (Hpyc c y Hy). done. }
  assert (Mat 1 (concat (rows <$> py)) = Y) as HYeq.
  { rewrite Hpyr, drop_0, take_ge by (unfold nrows in HYr; lia).
    destruct Y as [d r]. simpl in HY. by subst d. }
  split_and!.
  - by apply split_data_single.
  - by apply split_data_pair.
  - eexists. split.
    + rewrite (merge_data_inputs (ncols X)) by done. by rewrite HpxN.
    + rewrite split_data_single by done. rewrite <- HpxN at 1.
      by rewrite split_merged.
  - eexists. split.
    + rewrite (merge_data_outputs (ncols X)) by done. by rewrite HpxN, HYeq.
    + rewrite split_data_pair by done. rewrite <- HpxN at 1.
      by rewrite split_merged.
Qed.
End util_props.

(** C2, as stated, fails: the pieces that [split_data] returns still carry
    column 0, so stacking them again puts a second channel column in front,
    and the second split does not reproduce the first.  Here one channel with
    the single row (0, 5). *)
Lemma split_merge_split_counterexample :
  let N := [1] in
  let X := Mat 2 [[0; 5]]%R in
  ∃ px N' X',
    Util.split_data N [X] = Ok (Util.Single px)
    ∧ Util.merge_data 0%R INR px None = Ok (N', X', None)
    ∧ Util.split_data N' [X'] = Ok (Util.Single [Mat 3 [[INR 0; 0; 5]]%R])
    ∧ Util.split_data N' [X'] ≠ Ok (Util.Single px).
Proof.
  eexists _, _, _. split_and!; [reflexivity..|].
  intros [=].
Qed.

(** An instance of [split_merge_split]: two channels with three and two
    rows. *)
Lemma split_merge_split_witness :
  let N := [3; 2] in
  let X := Mat 2 [[0; 0]; [0; 1]; [0; 2]; [1; 0]; [1; 1]]%Z in
  let Y := Mat 1 [[10]; [11]; [12]; [20]; [21]]%Z in
  ∃ X', Util.merge_data 0%Z Z.of_nat (Util.split_loop N 0 X) (Some (Util.split_loop N 0 Y))
        = Ok (N, X', Some Y)
      ∧ Util.split_data N [X'; Y]
        = Ok (Util.Tuple [Util.tag_channels Z.of_nat (Util.split_loop N 0 X);
                          Util.split_loop N 0 Y]).
Proof.
  intros N X Y.
  destruct (split_merge_split 0%Z Z.of_nat N X Y) as (_ & _ & _ & H);
    [done | reflexivity | reflexivity | reflexivity | exact H].
Defined.

(** ** Index tensors *)

Lemma nonzero_from_elem (m : list bool) :
  ∀ (s p : nat), p ∈ nonzero_from s m ↔ ∃ q, p = s + q ∧ m !! q = Some true.
Proof.
  induction m as [|b m IH]; intros s p; simpl.
  - split; [by intros ?%elem_of_nil | by intros (q & _ & ?)].
  - assert (p ∈ nonzero_from (S s) m ↔ ∃ q, p = s + S q ∧ m !! q = Some true) as IH'.
    { rewrite IH. by setoid_rewrite Nat.add_succ_r. }
    destruct b.
    + rewrite elem_of_cons, IH'. split.
      * intros [->|(q & -> & Hq)]; [exists 0 | exists (S q)]; split; (done || lia).
      * intros ([|q] & -> & Hq); [left; lia | right; eauto].
    + rewrite IH'. split.
      * intros (q & -> & Hq). exists (S q). done.
      * intros ([|q] & -> & Hq); [done | eauto].
Qed.

Lemma nonzero_from_NoDup (m : list bool) : ∀ s, NoDup (nonzero_from s m).
Proof.
  induction m as [|b m IH]; intros s; simpl; [constructor|].
  destruct b; [|apply IH]. constructor; [|apply IH].
  rewrite nonzero_from_elem. intros (q & ? & _). lia.
Qed.

(** ** Scattering *)

Section scatter.
Context {B : Type}.
Implicit Types (r : list nat) (src l : list B).

Lemma scatter_cons r src l p x :
  scatter (p :: r) (x :: src) l = scatter r src (<[p := x]> l).
Proof. done. Qed.

Lemma length_scatter r : ∀ src l, length (scatter r src l) = length l.
Proof.
  induction r as [|p r IH]; intros [|x src] l; try done.
  rewrite scatter_cons, IH. apply length_insert.
Qed.

Lemma scatter_lookup_out r : ∀ src l p, p ∉ r → scatter r src l !! p = l !! p.
Proof.
  induction r as [|p' r IH]; intros [|x src] l p Hp; try done.
  apply not_elem_of_cons in Hp as [Hne Hp].
  rewrite scatter_cons, IH by done. by apply list_lookup_insert_ne.
Qed.

Lemma scatter_lookup_in r : ∀ src l k p,
  NoDup r → length src = length r → (∀ q, q ∈ r → q < length l) →
  r !! k = Some p → scatter r src l !! p = src !! k.
Proof.
  induction r as [|p' r IH]; intros [|x src] l k p Hnd Hlen Hr Hk; try done.
  apply NoDup_cons in Hnd as [Hp' Hnd]. rewrite scatter_cons.
  destruct k as [|k]; simpl in Hk.
  - injection Hk as ->. rewrite scatter_lookup_out by done.
    apply list_lookup_insert_eq. apply Hr. by left.
  - simpl. apply IH; [done | by injection Hlen | | done].
    intros q Hq. rewrite length_insert. apply Hr. by right.
Qed.
End scatter.

(** ** MultiOutputLikelihood: the channel index sets *)

Section channel_indices.
Context {A : Type}.
Variable long : A → Z.
Implicit Types (self : MultiOutputLikelihood.t (A:=A)) (X : matrix A).

(** [r[i]] holds exactly the rows whose channel number is [i], each once. *)
Lemma channel_indices_spec self X r :
  MultiOutputLikelihood._channel_indices long self X = Ok r →
  length r = MultiOutputLikelihood.output_dims self
  ∧ ∀ i ri, r !! i = Some ri →
      NoDup ri
      ∧ ∀ p, p ∈ ri ↔ MultiOutputLikelihood.channel_of long X p = Some (Z.of_nat i).
Proof.
  unfold MultiOutputLikelihood._channel_indices.
  destruct (decide (ncols X = 0)) as [|_]; [done|].
  destruct (mapM _ (rows X)) as [c|] eqn:Hc; [|done].
  cbn [of_option mbind result_bind]. intros [= <-]. split.
  - by rewrite !length_fmap, length_seq.
  - intros i ri. rewrite !list_lookup_fmap.
    destruct (seq 0 _ !! i) as [j|] eqn:Hj; [|done].
    apply lookup_seq in Hj as [-> _]. cbn [fmap option_fmap option_map].
    intros [= <-]. split; [apply nonzero_from_NoDup|].
    intros p. rewrite nonzero_from_elem. apply mapM_Some in Hc.
    unfold MultiOutputLikelihood.channel_of. split.
    + intros (q & Hpq & Hq). simpl in Hpq. subst q. rewrite list_lookup_fmap in Hq.
      destruct (c !! p) as [cp|] eqn:Hcp; [|done].
      destruct (Forall2_lookup_r _ _ _ _ _ Hc Hcp) as (row & -> & Hrow).
      cbn in Hq |- *. rewrite Hrow. injection Hq as Hq.
      apply bool_decide_eq_true in Hq. by subst.
    + intros Hp. exists p. split; [done|]. rewrite list_lookup_fmap.
      destruct (rows X !! p) as [row|] eqn:Hrow; [|done]. cbn in Hp.
      destruct (Forall2_lookup_l _ _ _ _ _ Hc Hrow) as (cp & -> & Hcp).
      rewrite Hp in Hcp. injection Hcp as <-. cbn.
      by rewrite bool_decide_eq_true_2.
Qed.

(** Index sets of different channels share no row, and name rows of [X]. *)
Lemma channel_indices_disjoint self X r i j ri rj p :
  MultiOutputLikelihood._channel_indices long self X = Ok r →
  r !! i = Some ri → r !! j = Some rj → p ∈ ri → p ∈ rj → i = j.
Proof.
  intros Hr Hi Hj Hpi Hpj. apply channel_indices_spec in Hr as [_ Hr].
  apply (Hr i ri Hi) in Hpi. apply (Hr j rj Hj) in Hpj. 
  rewrite Hpi in Hpj. injection Hpj. lia.
Qed.

Lemma channel_indices_range self X r i ri p :
  MultiOutputLikelihood._channel_indices long self X = Ok r →
  r !! i = Some ri → p ∈ ri → p < nrows X.
Proof.
  intros Hr Hi Hp. apply channel_indices_spec in Hr as [_ Hr].
  apply (Hr i ri Hi) in Hp. unfold MultiOutputLikelihood.channel_of in Hp.
  destruct (rows X !! p) as [row|] eqn:Hrow; [|done].
  by apply lookup_lt_Some in Hrow.
Qed.

(** [_channel_indices] succeeds on a tensor with a column 0. *)
Lemma channel_indices_ok self X :
  ncols X ≠ 0 → Forall (λ row, row ≠ []) (rows X) →
  ∃ r, MultiOutputLikelihood._channel_indices long self X = Ok r.
Proof.
  intros Hc Hrows. unfold MultiOutputLikelihood._channel_indices.
  rewrite decide_False by done.
  destruct (mapM_is_Some_2 (λ row : list A, long <$> row !! 0) (rows X)) as [c ->].
  { eapply Forall_impl; [exact Hrows|]. intros [|a row] Hrow; [done|]. by eexists. }
  eexists. done.
Qed.
End channel_indices.

(** ** MultiOutputLikelihood: writing every channel's rows *)

Lemma length_broadcast_to {A : Type} (n m : nat) (v : tvalue A) (src : list (list A)) :
  broadcast_to n m v = Some src → length src = n.
Proof.
  destruct v as [a|V]; simpl.
  - intros [= <-]. apply length_replicate.
  - destruct (decide _) as [[[Hn|Hn] _]|]; [| |done]; intros [= <-].
    + rewrite decide_True by done. by rewrite length_fmap.
    + destruct (decide (nrows V = n)) as [Hn'|_]; [by rewrite length_fmap|].
      unfold nrows in Hn. destruct (rows V) as [|row [|??]]; try done.
      simpl. rewrite app_nil_r. apply length_replicate.
Qed.

Section rows_loop.
Context {A : Type}.
Variable r : list (list nat).
Variable step : nat → result (list nat * tvalue A).
Hypothesis step_indices : ∀ j s, step j = Ok s → r !! j = Some s.1.
Hypothesis r_NoDup : ∀ j rj, r !! j = Some rj → NoDup rj.
Hypothesis r_disjoint :
  ∀ i j ri rj p, r !! i = Some ri → r !! j = Some rj → p ∈ ri → p ∈ rj → i = j.

Lemma rows_loop_spec (n : nat) :
  ∀ (i : nat) (cur new : matrix A),
  (∀ j rj p, r !! j = Some rj → p ∈ rj → p < nrows cur) →
  MultiOutputLikelihood.rows_loop step i n cur = Ok new →
  ncols new = ncols cur ∧ nrows new = nrows cur
  ∧ (∀ j, i ≤ j < i + n → ∃ rj v src,
        step j = Ok (rj, v)
        ∧ broadcast_to (length rj) (ncols cur) v = Some src
        ∧ ∀ k p, rj !! k = Some p → rows new !! p = src !! k)
  ∧ (∀ p, (∀ j rj, i ≤ j < i + n → r !! j = Some rj → p ∉ rj) →
        rows new !! p = rows cur !! p).
Proof using All.
  induction n as [|n IH]; intros i cur new Hrange Hloop.
  - injection Hloop as <-. split_and!; [done | done | intros; lia | done].
  - cbn [MultiOutputLikelihood.rows_loop] in Hloop.
    destruct (step i) as [[ri v]|] eqn:Hstep; [|done].
    cbn [mbind result_bind fst snd] in Hloop.
    unfold index_put_rows in Hloop.
    destruct (broadcast_to (length ri) (ncols cur) v) as [src|] eqn:Hsrc; [|done].
    cbn [of_option mbind result_bind] in Hloop.
    pose proof (step_indices i _ Hstep) as Hri. cbn in Hri.
    apply length_broadcast_to in Hsrc as Hlen.
    apply IH in Hloop as (Hc & Hr & Hin & Hout).
    2:{ intros j rj p Hj Hp. unfold nrows. cbn [rows]. rewrite length_scatter.
        by eapply Hrange. }
    unfold nrows in *. cbn [rows ncols] in *. rewrite length_scatter in Hr.
    split_and!; [done | done | |].
    + intros j Hj. destruct (decide (j = i)) as [->|Hne].
      * exists ri, v, src. split_and!; [done | done |].
        intros k p Hk. rewrite Hout.
        -- apply scatter_lookup_in; [by eapply r_NoDup | done | | done].
           intros q Hq. by eapply Hrange.
        -- intros j rj Hj' Hrj Hp.
           assert (i = j) by (eapply r_disjoint; [exact Hri | exact Hrj | | exact Hp];
                                by eapply list_elem_of_lookup_2).
           lia.
      * apply Hin. lia.
    + intros p Hp. rewrite Hout by (intros j rj ?; apply Hp; lia).
      apply scatter_lookup_out. apply (Hp i ri); [lia | done].
Qed.
End rows_loop.

(** ** The tensor store *)

Section store_props.
Context {A : Type}.
Implicit Types (h : store A) (res : ref).

Lemma put_rows_run res ri (v : tvalue A) h cur :
  h !! res = Some cur →
  MultiOutputLikelihood.put_rows res ri v h
  = match index_put_rows ri v cur with
    | Ok new => Ok (tt, <[res := new]> h)
    | Err e => Err e
    end.
Proof.
  intros Hres. unfold MultiOutputLikelihood.put_rows, bind, read, lift, write.
  rewrite Hres. by destruct (index_put_rows ri v cur).
Qed.

(** A loop whose body writes one channel's rows into [res], and reads only
    what a write to [res] does not change, is [rows_loop] on the value
    behind [res]. *)
Lemma for_range_rows res (step : nat → result (list nat * tvalue A))
    (body : nat → M unit) (P : store A → Prop) :
  (∀ h new, P h → P (<[res := new]> h)) →
  (∀ i h, P h →
     body i h = match step i with
                | Ok s => MultiOutputLikelihood.put_rows res s.1 s.2 h
                | Err e => Err e
                end) →
  ∀ n i h cur, P h → h !! res = Some cur →
  for_range i n body h
  = match MultiOutputLikelihood.rows_loop step i n cur with
    | Ok new => Ok (tt, <[res := new]> h)
    | Err e => Err e
    end.
Proof.
  intros HP Hbody. induction n as [|n IH]; intros i h cur Hh Hres.
  - cbn. unfold ret. by rewrite insert_id.
  - cbn [for_range MultiOutputLikelihood.rows_loop]. unfold bind at 1.
    rewrite Hbody by done. destruct (step i) as [[ri v]|e]; [|done].
    cbn [mbind result_bind fst snd]. rewrite (put_rows_run _ _ _ _ cur) by done.
    destruct (index_put_rows ri v cur) as [new1|e]; [|done].
    cbn [mbind result_bind].
    rewrite (IH _ _ new1) by (by apply HP || by rewrite lookup_insert_eq).
    destruct (MultiOutputLikelihood.rows_loop _ _ _ _); [|done].
    by rewrite insert_insert_eq.
Qed.

(** The same for a body that writes one channel's rows of three tensors. *)
Lemma for_range_rows3 (res lower upper : ref)
    (step : nat → result (list nat * predict_out A))
    (body : nat → M unit) (P : store A → Prop) :
  res ≠ lower → res ≠ upper → lower ≠ upper →
  (∀ h l new, P h → l = res ∨ l = lower ∨ l = upper → P (<[l := new]> h)) →
  (∀ i h, P h →
     body i h = match step i with
                | Ok s =>
                    match MultiOutputLikelihood.expect_interval s.2 with
                    | Ok abc =>
                        bind (MultiOutputLikelihood.put_rows res s.1 abc.1.1) (λ _,
                        bind (MultiOutputLikelihood.put_rows lower s.1 abc.1.2) (λ _,
                        MultiOutputLikelihood.put_rows upper s.1 abc.2)) h
                    | Err e => Err e
                    end
                | Err e => Err e
                end) →
  ∀ n i h a b c, P h → h !! res = Some a → h !! lower = Some b → h !! upper = Some c →
  for_range i n body h
  = match MultiOutputLikelihood.rows_loop3 step i n (a, b, c) with
    | Ok new => Ok (tt, <[upper := new.2]> (<[lower := new.1.2]> (<[res := new.1.1]> h)))
    | Err e => Err e
    end.
Proof.
  intros Hrl Hru Hlu HP Hbody. induction n as [|n IH]; intros i h a b c Hh Ha Hb Hc.
  - cbn. unfold ret. by rewrite !insert_id by (by rewrite ?lookup_insert_ne).
  - cbn [for_range MultiOutputLikelihood.rows_loop3]. unfold bind at 1.
    rewrite Hbody by done. destruct (step i) as [[ri o]|e]; [|done].
    cbn [mbind result_bind fst snd].
    destruct (MultiOutputLikelihood.expect_interval o) as [[[va vb] vc]|e]; [|done].
    cbn [mbind result_bind fst snd].
    unfold bind at 1. rewrite (put_rows_run _ _ _ _ a) by done.
    destruct (index_put_rows ri va a) as [a1|e]; [|done]. cbn [mbind result_bind].
    unfold bind at 1. rewrite (put_rows_run _ _ _ _ b) by (by rewrite lookup_insert_ne).
    destruct (index_put_rows ri vb b) as [b1|e]; [|done]. cbn [mbind result_bind].
    rewrite (put_rows_run _ _ _ _ c) by (by rewrite !lookup_insert_ne).
    destruct (index_put_rows ri vc c) as [c1|e]; [|done]. cbn [mbind result_bind].
    rewrite (IH _ _ a1 b1 c1).
    + destruct (MultiOutputLikelihood.rows_loop3 _ _ _ _) as [[[a2 b2] c2]|]; [|done].
      cbn [fst snd]. do 2 f_equal. apply map_eq. intros l.
      destruct (decide (l = upper)) as [->|?]; [by simplify_map_eq|].
      destruct (decide (l = lower)) as [->|?]; [by simplify_map_eq|].
      destruct (decide (l = res)) as [->|?]; by simplify_map_eq.
    + repeat apply HP; auto.
    + by simplify_map_eq.
    + by simplify_map_eq.
    + by simplify_map_eq.
Qed.

(** A loop whose body updates the tensor behind [f] in place. *)
Lemma for_range_in_place (f : ref) (step : nat → matrix A → result (matrix A))
    (body : nat → M unit) :
  (∀ i h cur, h !! f = Some cur →
     body i h = match step i cur with
                | Ok new => Ok (tt, <[f := new]> h)
                | Err e => Err e
                end) →
  ∀ n i h cur, h !! f = Some cur →
  for_range i n body h
  = match MultiOutputLikelihood.cols_loop step i n cur with
    | Ok new => Ok (tt, <[f := new]> h)
    | Err e => Err e
    end.
Proof.
  intros Hbody. induction n as [|n IH]; intros i h cur Hf.
  - cbn. unfold ret. by rewrite insert_id.
  - cbn [for_range MultiOutputLikelihood.cols_loop]. unfold bind at 1.
    rewrite (Hbody _ _ cur) by done. destruct (step i cur) as [new1|e]; [|done].
    cbn [mbind result_bind].
    rewrite (IH _ _ new1) by (by rewrite lookup_insert_eq).
    destruct (MultiOutputLikelihood.cols_loop _ _ _ _); [|done].
    by rewrite insert_insert_eq.
Qed.
End store_props.

(** ** MultiOutputLikelihood: the operations on the store *)

Section mol_runs.
Context {A : Type}.
Variable long : A → Z.
Variable zero : A.
Variable add : A → A → A.
Variable uninit : nat → nat → A.
Implicit Types (self : MultiOutputLikelihood.t (A:=A)) (h : store A).

Lemma fresh_lookup h : h !! fresh (dom h) = None.
Proof. apply not_elem_of_dom. apply is_fresh. Qed.

Lemma fresh_ne h l (m : matrix A) : h !! l = Some m → l ≠ fresh (dom h).
Proof. intros Hl ->. by rewrite fresh_lookup in Hl. Qed.

Lemma moment_run method self f X h Xv fv :
  h !! X = Some Xv → h !! f = Some fv →
  MultiOutputLikelihood.moment long uninit method self f X h
  = match MultiOutputLikelihood._channel_indices long self Xv with
    | Err e => Err e
    | Ok r =>
        match MultiOutputLikelihood.rows_loop
                (MultiOutputLikelihood.moment_step method self r fv) 0
                (MultiOutputLikelihood.output_dims self)
                (MultiOutputLikelihood.empty uninit (nrows fv) (ncols fv)) with
        | Ok new => Ok (fresh (dom h), <[fresh (dom h) := new]> h)
        | Err e => Err e
        end
    end.
Proof.
  intros HX Hf. unfold MultiOutputLikelihood.moment.
  unfold bind at 1, read at 1. rewrite HX.
  unfold bind at 1, lift at 1.
  destruct (MultiOutputLikelihood._channel_indices long self Xv) as [r|e]; [|done].
  unfold bind at 1, read at 1. rewrite Hf.
  unfold bind at 1, alloc at 1.
  unfold bind at 1.
  rewrite (for_range_rows (fresh (dom h))
             (MultiOutputLikelihood.moment_step method self r fv) _
             (λ h', h' !! f = Some fv))
    with (cur := MultiOutputLikelihood.empty uninit (nrows fv) (ncols fv)).
  - destruct (MultiOutputLikelihood.rows_loop _ _ _ _); [|done].
    unfold ret. by rewrite insert_insert_eq.
  - intros h' new Hh'. rewrite lookup_insert_ne; [done|]. 
    intros <-. by rewrite fresh_lookup in Hf.
  - intros i h' Hh'. unfold MultiOutputLikelihood.moment_step, bind, lift, read.
    destruct (MultiOutputLikelihood.likelihood_at self i); [|done].
    destruct (MultiOutputLikelihood.indices_at r i); [|done].
    rewrite Hh'. cbn [mbind result_bind].
    destruct (gather_rows _ fv); [|done]. cbn [mbind result_bind].
    by destruct (method _ _).
  - rewrite lookup_insert_ne; [done|]. intros <-. by rewrite fresh_lookup in Hf.
  - by rewrite lookup_insert_eq.
Qed.

Lemma log_prob_run self y f X h Xv yv fv :
  h !! X = Some Xv → h !! y = Some yv → h !! f = Some fv →
  MultiOutputLikelihood.log_prob long uninit self y f X h
  = match MultiOutputLikelihood._channel_indices long self Xv with
    | Err e => Err e
    | Ok r =>
        match MultiOutputLikelihood.rows_loop
                (MultiOutputLikelihood.log_prob_step self r yv fv) 0
                (MultiOutputLikelihood.output_dims self)
                (MultiOutputLikelihood.empty uninit (nrows fv) (ncols fv)) with
        | Ok new => Ok (fresh (dom h), <[fresh (dom h) := new]> h)
        | Err e => Err e
        end
    end.
Proof.
  intros HX Hy Hf. unfold MultiOutputLikelihood.log_prob.
  unfold bind at 1, read at 1. rewrite HX.
  unfold bind at 1, lift at 1.
  destruct (MultiOutputLikelihood._channel_indices long self Xv) as [r|e]; [|done].
  unfold bind at 1, read at 1. rewrite Hf.
  unfold bind at 1, alloc at 1.
  unfold bind at 1.
  rewrite (for_range_rows (fresh (dom h))
             (MultiOutputLikelihood.log_prob_step self r yv fv) _
             (λ h', h' !! f = Some fv ∧ h' !! y = Some yv))
    with (cur := MultiOutputLikelihood.empty uninit (nrows fv) (ncols fv)).
  - destruct (MultiOutputLikelihood.rows_loop _ _ _ _); [|done].
    unfold ret. by rewrite insert_insert_eq.
  - intros h' new [Hf' Hy']. pose proof (fresh_ne _ _ _ Hf). pose proof (fresh_ne _ _ _ Hy).
    by rewrite !lookup_insert_ne.
  - intros i h' [Hf' Hy']. unfold MultiOutputLikelihood.log_prob_step, bind, lift, read.
    destruct (MultiOutputLikelihood.likelihood_at self i); [|done].
    destruct (MultiOutputLikelihood.indices_at r i); [|done].
    rewrite Hy'. cbn [mbind result_bind].
    destruct (gather_rows _ yv); [|done]. cbn [mbind result_bind].
    rewrite Hf'. 
    destruct (gather_rows _ fv); [|done]. cbn [mbind result_bind].
    by destruct (Likelihood.log_prob _ _ _).
  - pose proof (fresh_ne _ _ _ Hf). pose proof (fresh_ne _ _ _ Hy).
    by rewrite !lookup_insert_ne.
  - by rewrite lookup_insert_eq.
Qed.

Lemma predict_point_run self mu var sigma n X h Xv muv varv :
  h !! X = Some Xv → h !! mu = Some muv → h !! var = Some varv →
  MultiOutputLikelihood.predict long uninit self mu var None sigma n X h
  = match MultiOutputLikelihood._channel_indices long self Xv with
    | Err e => Err e
    | Ok r =>
        match MultiOutputLikelihood.rows_loop
                (MultiOutputLikelihood.predict_point_step self r muv varv None sigma n) 0
                (MultiOutputLikelihood.output_dims self)
                (MultiOutputLikelihood.empty uninit (nrows muv) (ncols muv)) with
        | Ok new =>
            Ok (MultiOutputLikelihood.PointRef (fresh (dom h)), <[fresh (dom h) := new]> h)
        | Err e => Err e
        end
    end.
Proof.
  intros HX Hmu Hvar. unfold MultiOutputLikelihood.predict.
  unfold bind at 1, read at 1. rewrite HX.
  unfold bind at 1, lift at 1.
  destruct (MultiOutputLikelihood._channel_indices long self Xv) as [r|e]; [|done].
  unfold bind at 1, read at 1. rewrite Hmu.
  unfold bind at 1, alloc at 1.
  unfold bind at 1.
  rewrite (for_range_rows (fresh (dom h))
             (MultiOutputLikelihood.predict_point_step self r muv varv None sigma n) _
             (λ h', h' !! mu = Some muv ∧ h' !! var = Some varv))
    with (cur := MultiOutputLikelihood.empty uninit (nrows muv) (ncols muv)).
  - destruct (MultiOutputLikelihood.rows_loop _ _ _ _); [|done].
    unfold ret. by rewrite insert_insert_eq.
  - intros h' new [Hmu' Hvar']. pose proof (fresh_ne _ _ _ Hmu).
    pose proof (fresh_ne _ _ _ Hvar). by rewrite !lookup_insert_ne.
  - intros i h' [Hmu' Hvar'].
    unfold MultiOutputLikelihood.predict_point_step, MultiOutputLikelihood.predict_step,
      bind, lift, read.
    destruct (MultiOutputLikelihood.likelihood_at self i); [|done].
    destruct (MultiOutputLikelihood.indices_at r i); [|done].
    rewrite Hmu'. cbn [mbind result_bind].
    destruct (gather_rows _ muv); [|done]. cbn [mbind result_bind].
    rewrite Hvar'.
    destruct (gather_rows _ varv); [|done]. cbn [mbind result_bind].
    destruct (Likelihood.predict _ _ _ _ _ _); [|done]. cbn [mbind result_bind fst snd].
    by destruct (MultiOutputLikelihood.expect_point _).
  - pose proof (fresh_ne _ _ _ Hmu). pose proof (fresh_ne _ _ _ Hvar).
    by rewrite !lookup_insert_ne.
  - by rewrite lookup_insert_eq.
Qed.

Lemma sample_run self f X h Xv fv :
  h !! X = Some Xv → h !! f = Some fv →
  MultiOutputLikelihood.sample long self f X h
  = match MultiOutputLikelihood._channel_indices long self Xv with
    | Err e => Err e
    | Ok r =>
        match MultiOutputLikelihood.cols_loop (MultiOutputLikelihood.sample_step self r) 0
                (MultiOutputLikelihood.output_dims self) fv with
        | Ok new => Ok (f, <[f := new]> h)
        | Err e => Err e
        end
    end.
Proof.
  intros HX Hf. unfold MultiOutputLikelihood.sample.
  unfold bind at 1, read at 1. rewrite HX.
  unfold bind at 1, lift at 1.
  destruct (MultiOutputLikelihood._channel_indices long self Xv) as [r|e]; [|done].
  unfold bind at 1.
  rewrite (for_range_in_place f (MultiOutputLikelihood.sample_step self r)) with (cur := fv).
  - by destruct (MultiOutputLikelihood.cols_loop _ _ _ _).
  - intros i h' cur Hcur. unfold MultiOutputLikelihood.sample_step, bind, lift, read, write.
    destruct (MultiOutputLikelihood.likelihood_at self i); [|done].
    destruct (MultiOutputLikelihood.indices_at r i); [|done].
    rewrite Hcur. cbn [mbind result_bind].
    destruct (gather_cols _ cur); [|done]. cbn [mbind result_bind].
    destruct (Likelihood.sample _ _); [|done]. cbn [mbind result_bind].
    rewrite Hcur. by destruct (index_put_cols _ _ _).
  - done.
Qed.

Lemma variational_expectation_loop_run self r y mu var h yv muv varv :
  h !! y = Some yv → h !! mu = Some muv → h !! var = Some varv →
  ∀ n i q,
  MultiOutputLikelihood.variational_expectation_loop zero add self r y mu var i n q h
  = match MultiOutputLikelihood.sum_loop add
            (MultiOutputLikelihood.variational_expectation_step zero add self r yv muv varv) i n q with
    | Ok q' => Ok (q', h)
    | Err e => Err e
    end.
Proof.
  intros Hy Hmu Hvar. induction n as [|n IH]; intros i q; [done|].
  cbn [MultiOutputLikelihood.variational_expectation_loop MultiOutputLikelihood.sum_loop].
  unfold MultiOutputLikelihood.variational_expectation_step, bind, lift, read.
  destruct (MultiOutputLikelihood.likelihood_at self i); [|done].
  destruct (MultiOutputLikelihood.indices_at r i); [|done].
  rewrite Hy. cbn [mbind result_bind].
  destruct (gather_rows _ yv); [|done]. cbn [mbind result_bind].
  rewrite Hmu. destruct (gather_rows _ muv); [|done]. cbn [mbind result_bind].
  rewrite Hvar. destruct (gather_rows _ varv); [|done]. cbn [mbind result_bind].
  destruct (Likelihood.variational_expectation _ _ _ _); [|done]. cbn [mbind result_bind].
  apply IH.
Qed.

Lemma variational_expectation_run self y mu var X h Xv yv muv varv :
  h !! X = Some Xv → h !! y = Some yv → h !! mu = Some muv → h !! var = Some varv →
  MultiOutputLikelihood.variational_expectation long zero add self y mu var X h
  = match MultiOutputLikelihood._channel_indices long self Xv with
    | Err e => Err e
    | Ok r =>
        match MultiOutputLikelihood.sum_loop add
                (MultiOutputLikelihood.variational_expectation_step zero add self r yv muv varv) 0
                (MultiOutputLikelihood.output_dims self) zero with
        | Ok q => Ok (q, h)
        | Err e => Err e
        end
    end.
Proof.
  intros HX Hy Hmu Hvar. unfold MultiOutputLikelihood.variational_expectation.
  unfold bind at 1, read at 1. rewrite HX.
  unfold bind at 1, lift at 1.
  destruct (MultiOutputLikelihood._channel_indices long self Xv) as [r|e]; [|done].
  by apply variational_expectation_loop_run.
Qed.

Lemma predict_interval_run self mu var ci sigma n X h Xv muv varv :
  h !! X = Some Xv → h !! mu = Some muv → h !! var = Some varv →
  let E := MultiOutputLikelihood.empty uninit (nrows muv) (ncols muv) in
  let res := fresh (dom h) in
  let lower := fresh (dom (<[res := E]> h)) in
  let upper := fresh (dom (<[lower := E]> (<[res := E]> h))) in
  MultiOutputLikelihood.predict long uninit self mu var (Some ci) sigma n X h
  = match MultiOutputLikelihood._channel_indices long self Xv with
    | Err e => Err e
    | Ok r =>
        match MultiOutputLikelihood.rows_loop3
                (MultiOutputLikelihood.predict_step self r muv varv (Some ci) sigma n) 0
                (MultiOutputLikelihood.output_dims self) (E, E, E) with
        | Ok new =>
            Ok (MultiOutputLikelihood.IntervalRef res lower upper,
                <[upper := new.2]> (<[lower := new.1.2]> (<[res := new.1.1]> h)))
        | Err e => Err e
        end
    end.
Proof using Type.
  intros HX Hmu Hvar E res lower upper. unfold MultiOutputLikelihood.predict.
  unfold bind at 1, read at 1. rewrite HX.
  unfold bind at 1, lift at 1.
  destruct (MultiOutputLikelihood._channel_indices long self Xv) as [r|e]; [|done].
  unfold bind at 1, read at 1. rewrite Hmu.
  unfold bind at 1, alloc at 1. unfold bind at 1, alloc at 1. unfold bind at 1, alloc at 1.
  fold E. fold res. fold lower. fold upper.
  set (h1 := <[res := E]> h). set (h2 := <[lower := E]> h1). set (h3 := <[upper := E]> h2).
  assert (h1 !! res = Some E) as H1 by apply lookup_insert_eq.
  assert (h2 !! lower = Some E) as H2 by apply lookup_insert_eq.
  assert (res ≠ lower) as Hrl by (by apply (fresh_ne h1 res E)).
  assert (h2 !! res = Some E) as H2r by (unfold h2; by rewrite lookup_insert_ne).
  assert (res ≠ upper) as Hru by (by apply (fresh_ne h2 res E)).
  assert (lower ≠ upper) as Hlu by (by apply (fresh_ne h2 lower E)).
  assert (∀ l m, h !! l = Some m → l ≠ res ∧ l ≠ lower ∧ l ≠ upper) as Hold.
  { intros l m Hl. pose proof (fresh_ne _ _ _ Hl) as Hn1.
    assert (h1 !! l = Some m) as Hl1 by (unfold h1; by rewrite lookup_insert_ne).
    pose proof (fresh_ne _ _ _ Hl1) as Hn2.
    assert (h2 !! l = Some m) as Hl2 by (unfold h2; by rewrite lookup_insert_ne).
    pose proof (fresh_ne _ _ _ Hl2) as Hn3. done. }
  unfold bind at 1.
  rewrite (for_range_rows3 res lower upper
             (MultiOutputLikelihood.predict_step self r muv varv (Some ci) sigma n) _
             (λ h', h' !! mu = Some muv ∧ h' !! var = Some varv))
    with (a := E) (b := E) (c := E); try done.
  - destruct (MultiOutputLikelihood.rows_loop3 _ _ _ _) as [[[a b] c]|]; [|done].
    unfold ret. cbn [fst snd]. do 2 f_equal. apply map_eq. intros l. unfold h3, h2, h1.
    destruct (decide (l = upper)) as [->|?]; [by simplify_map_eq|].
    destruct (decide (l = lower)) as [->|?]; [by simplify_map_eq|].
    destruct (decide (l = res)) as [->|?]; by simplify_map_eq.
  - intros h' l new [Hmu' Hvar'] Hl.
    destruct (Hold _ _ Hmu) as (? & ? & ?). destruct (Hold _ _ Hvar) as (? & ? & ?).
    assert (l ≠ mu ∧ l ≠ var) as [? ?]
      by (split; intros ->; destruct Hl as [?|[?|?]]; done).
    by rewrite !lookup_insert_ne.
  - intros i h' [Hmu' Hvar'].
    unfold MultiOutputLikelihood.predict_step. unfold bind at 1 2 3 4 5 6 7 8, lift, read.
    destruct (MultiOutputLikelihood.likelihood_at self i); [|done].
    destruct (MultiOutputLikelihood.indices_at r i); [|done].
    rewrite Hmu'. cbn [mbind result_bind].
    destruct (gather_rows _ muv); [|done]. cbn [mbind result_bind].
    rewrite Hvar'.
    destruct (gather_rows _ varv); [|done]. cbn [mbind result_bind].
    destruct (Likelihood.predict _ _ _ _ _ _); [|done]. cbn [mbind result_bind fst snd].
    by destruct (MultiOutputLikelihood.expect_interval _).
  - destruct (Hold _ _ Hmu) as (? & ? & ?). destruct (Hold _ _ Hvar) as (? & ? & ?).
    unfold h3, h2, h1. by rewrite !lookup_insert_ne.
  - unfold h3, h2, h1. by simplify_map_eq.
  - unfold h3, h2, h1. by simplify_map_eq.
  - unfold h3. by simplify_map_eq.
Qed.

(** The loop over three tensors is three loops over one tensor each. *)
Lemma rows_loop3_split (step : nat → result (list nat * predict_out A)) (n : nat) :
  ∀ i a b c new,
  MultiOutputLikelihood.rows_loop3 step i n (a, b, c) = Ok new →
  let part := λ pick i,
    s ← step i ; abc ← MultiOutputLikelihood.expect_interval s.2 ; Ok (s.1, pick abc) in
  MultiOutputLikelihood.rows_loop (part (λ abc, abc.1.1)) i n a = Ok new.1.1
  ∧ MultiOutputLikelihood.rows_loop (part (λ abc, abc.1.2)) i n b = Ok new.1.2
  ∧ MultiOutputLikelihood.rows_loop (part (λ abc, abc.2)) i n c = Ok new.2.
Proof.
  induction n as [|n IH]; intros i a b c new Hloop part.
  - by injection Hloop as <-.
  - cbn [MultiOutputLikelihood.rows_loop3 MultiOutputLikelihood.rows_loop] in *.
    unfold part in *. destruct (step i) as [[ri o]|]; [|done].
    cbn [mbind result_bind fst snd] in *.
    destruct (MultiOutputLikelihood.expect_interval o) as [[[va vb] vc]|]; [|done].
    cbn [mbind result_bind fst snd] in *.
    destruct (index_put_rows ri va a) as [a1|]; [|done]. cbn [mbind result_bind] in *.
    destruct (index_put_rows ri vb b) as [b1|]; [|done]. cbn [mbind result_bind] in *.
    destruct (index_put_rows ri vc c) as [c1|]; [|done]. cbn [mbind result_bind] in *.
    by apply IH.
Qed.
End mol_runs.

(** ** MultiOutputLikelihood: writing every channel's columns *)

Lemma scatter_lookup_written {B : Type} (r : list nat) :
  ∀ (src l : list B) k p x,
  NoDup r → r !! k = Some p → src !! k = Some x → p < length l →
  scatter r src l !! p = Some x.
Proof.
  induction r as [|p' r IH]; intros [|x' src] l k p x Hnd Hk Hx Hp; try done.
  apply NoDup_cons in Hnd as [Hp' Hnd]. rewrite scatter_cons.
  destruct k as [|k]; simpl in Hk, Hx.
  - injection Hk as ->. injection Hx as ->. rewrite scatter_lookup_out by done.
    by apply list_lookup_insert_eq.
  - eapply IH; [done | done | done |]. by rewrite length_insert.
Qed.

Lemma mapM_Forall2_eq {B C : Type} (f g : B → option C) (l1 l2 : list B) :
  Forall2 (λ a b, f a = g b) l1 l2 → mapM f l1 = mapM g l2.
Proof. induction 1 as [|a b l1 l2 Hab _ IH]; [done|]. cbn. by rewrite Hab, IH. Qed.

Lemma mapM_ext_elem {B C : Type} (f g : B → option C) (l : list B) :
  (∀ x, x ∈ l → f x = g x) → mapM f l = mapM g l.
Proof.
  intros Hfg. apply mapM_Forall2_eq. apply Forall2_same_length_lookup. split; [done|].
  intros i x y Hx Hy. assert (x = y) as -> by congruence.
  apply Hfg. by eapply list_elem_of_lookup_2.
Qed.

Section columns.
Context {A : Type}.
Implicit Types (f g : matrix A) (r : list nat).

(** Two tensors of one shape that agree on the columns in [r] have the
    same [f[:, r]]. *)
Lemma gather_cols_agree r f g :
  ncols f = ncols g →
  Forall2 (λ a b, ∀ p, p ∈ r → a !! p = b !! p) (rows f) (rows g) →
  gather_cols r f = gather_cols r g.
Proof.
  intros Hc Hrows. unfold gather_cols. rewrite Hc.
  destruct (forallb _ r); [|done]. f_equal.
  - f_equal. apply mapM_Forall2_eq. eapply Forall2_impl; [exact Hrows|].
    intros a b Hab. by apply mapM_ext_elem.
Qed.

(** What [f[:, r] = v] leaves and what it writes. *)
Lemma index_put_cols_spec r (v : tvalue A) f new :
  NoDup r → index_put_cols r v f = Ok new →
  ncols new = ncols f
  ∧ Forall2 (λ a b, length a = length b ∧ ∀ p, p ∉ r → a !! p = b !! p) (rows new) (rows f)
  ∧ ∃ src, broadcast_to (nrows f) (length r) v = Some src
      ∧ ∀ q row srow k p x,
          rows new !! q = Some row → src !! q = Some srow → r !! k = Some p →
          srow !! k = Some x → (∀ old, rows f !! q = Some old → p < length old) →
          row !! p = Some x.
Proof.
  intros Hnd. unfold index_put_cols.
  destruct (broadcast_to (nrows f) (length r) v) as [src|] eqn:Hsrc; [|done].
  cbn [of_option mbind result_bind]. intros [= <-]. cbn [ncols rows].
  apply length_broadcast_to in Hsrc as Hlen. split_and!; [done | |].
  - apply Forall2_same_length_lookup. split.
    + rewrite length_zip_with. unfold nrows in Hlen. lia.
    + intros q a b Ha Hb. apply lookup_zip_with_Some in Ha as (row & srow & -> & Hrow & _).
      assert (row = b) as -> by congruence. split; [apply length_scatter|].
      intros p Hp. by apply scatter_lookup_out.
  - exists src. split; [done|]. intros q row srow k p x Hrow Hsrow Hk Hx Hp.
    apply lookup_zip_with_Some in Hrow as (old & srow' & -> & Hold & Hsrow').
    assert (srow' = srow) as -> by congruence.
    eapply scatter_lookup_written; eauto.
Qed.
End columns.

Lemma gather_cols_in_range {A : Type} (r : list nat) (f fsub : matrix A) q old p :
  gather_cols r f = Ok fsub → rows f !! q = Some old → p ∈ r → p < length old.
Proof.
  unfold gather_cols. destruct (forallb _ r); [|done].
  destruct (mapM _ (rows f)) as [rs|] eqn:Hrs; [|done]. intros _ Hold Hp.
  apply mapM_Some in Hrs.
  destruct (Forall2_lookup_l _ _ _ _ _ Hrs Hold) as (srow & _ & Hsrow).
  apply mapM_Some in Hsrow. apply list_elem_of_lookup in Hp as [k Hk].
  destruct (Forall2_lookup_l _ _ _ _ _ Hsrow Hk) as (x & _ & Hx).
  by apply lookup_lt_Some in Hx.
Qed.

Section cols_loop.
Context {A : Type}.
Variable self : MultiOutputLikelihood.t (A:=A).
Variable r : list (list nat).
Hypothesis r_NoDup : ∀ j rj, r !! j = Some rj → NoDup rj.
Hypothesis r_disjoint :
  ∀ i j ri rj p, r !! i = Some ri → r !! j = Some rj → p ∈ ri → p ∈ rj → i = j.

Lemma cols_loop_spec (n : nat) :
  ∀ (i : nat) (cur new : matrix A),
  MultiOutputLikelihood.cols_loop (MultiOutputLikelihood.sample_step self r) i n cur = Ok new →
  ncols new = ncols cur
  ∧ Forall2 (λ a b, length a = length b
                    ∧ ∀ p, (∀ j rj, i ≤ j < i + n → r !! j = Some rj → p ∉ rj) →
                           a !! p = b !! p) (rows new) (rows cur)
  ∧ ∀ j, i ≤ j < i + n → ∃ L rj fsub v src,
      MultiOutputLikelihood.likelihoods self !! j = Some L
      ∧ r !! j = Some rj
      ∧ gather_cols rj cur = Ok fsub
      ∧ Likelihood.sample L fsub = Ok v
      ∧ broadcast_to (nrows cur) (length rj) v = Some src
      ∧ ∀ q row srow k p x,
          rows new !! q = Some row → src !! q = Some srow → rj !! k = Some p →
          srow !! k = Some x → row !! p = Some x.
Proof using All.
  induction n as [|n IH]; intros i cur new Hloop.
  - injection Hloop as <-. split_and!; [done | | intros; lia].
    apply Forall2_same_length_lookup. split; [done|]. intros q a b Ha Hb.
    by assert (a = b) as -> by congruence.
  - cbn [MultiOutputLikelihood.cols_loop] in Hloop.
    destruct (MultiOutputLikelihood.sample_step self r i cur) as [cur1|] eqn:Hstep; [|done].
    cbn [mbind result_bind] in Hloop.
    apply IH in Hloop as (Hc & Hrows & Hin). clear IH.
    unfold MultiOutputLikelihood.sample_step, MultiOutputLikelihood.likelihood_at,
      MultiOutputLikelihood.indices_at in Hstep.
    destruct (MultiOutputLikelihood.likelihoods self !! i) as [L|] eqn:HL; [|done].
    destruct (r !! i) as [ri|] eqn:Hri; [|done].
    cbn [of_option mbind result_bind] in Hstep.
    destruct (gather_cols ri cur) as [fsub|] eqn:Hsub; [|done].
    cbn [mbind result_bind] in Hstep.
    destruct (Likelihood.sample L fsub) as [v|] eqn:Hv; [|done].
    cbn [mbind result_bind] in Hstep.
    apply index_put_cols_spec in Hstep as (Hc1 & Hrows1 & src & Hsrc & Hwritten);
      [|by eapply r_NoDup].
    assert (nrows cur1 = nrows cur) as Hn1 by (by eapply Forall2_length).
    split_and!.
    + congruence.
    + apply Forall2_same_length_lookup. split.
      { apply Forall2_length in Hrows, Hrows1. unfold nrows in *. lia. }
      intros q a b Ha Hb.
      destruct (Forall2_lookup_l _ _ _ _ _ Hrows Ha) as (a1 & Ha1 & Hl & Hag).
      destruct (Forall2_lookup_l _ _ _ _ _ Hrows1 Ha1) as (b' & Hb' & Hl1 & Hag1).
      assert (b' = b) as -> by congruence. split; [congruence|].
      intros p Hp. rewrite Hag by (intros j rj ?; apply Hp; lia).
      apply Hag1. apply (Hp i ri); [lia | done].
    + intros j Hj. destruct (decide (j = i)) as [->|Hne].
      * exists L, ri, fsub, v, src. split_and!; try done.
        intros q row srow k p x Hrow Hsrow Hk Hx.
        destruct (Forall2_lookup_l _ _ _ _ _ Hrows Hrow) as (row1 & Hrow1 & _ & Hag).
        rewrite Hag.
        -- eapply Hwritten; eauto. intros old Hold.
           eapply gather_cols_in_range; eauto. by eapply list_elem_of_lookup_2.
        -- intros j rj Hj' Hrj Hp.
           assert (i = j) by (eapply r_disjoint; [exact Hri | exact Hrj | | exact Hp];
                                by eapply list_elem_of_lookup_2).
           lia.
      * destruct (Hin j) as (L' & rj & fsub' & v' & src' & ? & Hrj & Hsub' & ? & Hsrc' & ?);
          [lia|].
        exists L', rj, fsub', v', src'. split_and!; try done.
        -- rewrite <- Hsub'. symmetry. apply gather_cols_agree; [done|].
           eapply Forall2_impl; [exact Hrows1|]. intros a b [_ Hab] p Hp. apply Hab.
           intros Hpi. apply Hne. symmetry. by eapply r_disjoint.
        -- by rewrite <- Hn1.
Qed.
End cols_loop.

(** ** MultiOutputLikelihood: every channel's rows go through its own likelihood *)

Section routing.
Context {A : Type}.
Variable long : A → Z.
Variable zero : A.
Variable add : A → A → A.
Variable uninit : nat → nat → A.
Implicit Types (self : MultiOutputLikelihood.t (A:=A)) (h : store A).

Lemma nrows_empty n m : nrows (MultiOutputLikelihood.empty uninit n m) = n.
Proof. unfold nrows. cbn. by rewrite length_fmap, length_seq. Qed.

Lemma rows_loop_steps (step : nat → result (list nat * tvalue A)) (n : nat) :
  ∀ i cur new, MultiOutputLikelihood.rows_loop step i n cur = Ok new →
  ∀ j, i ≤ j < i + n → ∃ s, step j = Ok s.
Proof.
  induction n as [|n IH]; intros i cur new Hloop j Hj; [lia|].
  cbn [MultiOutputLikelihood.rows_loop] in Hloop.
  destruct (step i) as [s|] eqn:Hs; [|done]. cbn [mbind result_bind] in Hloop.
  destruct (index_put_rows _ _ _) as [cur1|]; [|done]. cbn [mbind result_bind] in Hloop.
  destruct (decide (j = i)) as [->|?]; [by eexists|].
  eapply IH; [exact Hloop | lia].
Qed.

Lemma gather_rows_in_range (ri : list nat) (f fsub : matrix A) p :
  gather_rows ri f = Ok fsub → p ∈ ri → p < nrows f.
Proof.
  unfold gather_rows. destruct (mapM _ ri) as [rs|] eqn:Hrs; [|done]. intros _ Hp.
  apply mapM_Some in Hrs. apply list_elem_of_lookup in Hp as [k Hk].
  destruct (Forall2_lookup_l _ _ _ _ _ Hrs Hk) as (x & _ & Hx).
  by apply lookup_lt_Some in Hx.
Qed.

(** A loop over all channels that succeeds has routed every channel. *)
Lemma rows_loop_routed self X r (step : nat → result (list nat * tvalue A)) n0 m0 new :
  MultiOutputLikelihood._channel_indices long self X = Ok r →
  (∀ j s, step j = Ok s → r !! j = Some s.1 ∧ ∀ p, p ∈ s.1 → p < n0) →
  MultiOutputLikelihood.rows_loop step 0 (MultiOutputLikelihood.output_dims self)
    (MultiOutputLikelihood.empty uninit n0 m0) = Ok new →
  ncols new = m0 ∧ nrows new = n0 ∧ MultiOutputLikelihood.rows_routed r step m0 new.
Proof.
  intros Hr Hstep Hloop.
  pose proof (channel_indices_spec long self X r Hr) as [Hlen Hspec].
  pose proof (rows_loop_steps _ _ _ _ _ Hloop) as Hsteps.
  eapply (rows_loop_spec r step) in Hloop as (Hc & Hn & Hin & _).
  - rewrite nrows_empty in Hn. split_and!; [done | done |].
    intros i ri Hri. destruct (Hin i) as (rj & v & src & Hs & Hsrc & Hw).
    { apply lookup_lt_Some in Hri. lia. }
    destruct (Hstep _ _ Hs) as [Hrj _]. cbn in Hrj.
    assert (rj = ri) as -> by congruence. by exists v, src.
  - intros j s Hs. by apply Hstep.
  - intros j rj Hrj. by apply (Hspec j rj).
  - intros i j ri rj p. by apply (channel_indices_disjoint long self X r).
  - intros j rj p Hrj Hp. rewrite nrows_empty.
    destruct (Hsteps j) as [s Hs]. { apply lookup_lt_Some in Hrj. lia. }
    destruct (Hstep _ _ Hs) as [Hrj' Hrange]. apply Hrange. congruence.
Qed.

Lemma moment_step_indices method self r fv j s :
  MultiOutputLikelihood.moment_step method self r fv j = Ok s →
  r !! j = Some s.1 ∧ ∀ p, p ∈ s.1 → p < nrows fv.
Proof.
  unfold MultiOutputLikelihood.moment_step, MultiOutputLikelihood.indices_at.
  destruct (MultiOutputLikelihood.likelihood_at self j); [|done].
  destruct (r !! j) as [rj|]; [|done]. cbn [of_option mbind result_bind].
  destruct (gather_rows rj fv) eqn:Hg; [|done]. cbn [mbind result_bind].
  destruct (method _ _); [|done]. cbn [mbind result_bind].
  intros [= <-]. split; [done|]. intros p Hp. by eapply gather_rows_in_range.
Qed.

Lemma log_prob_step_indices self r yv fv j s :
  MultiOutputLikelihood.log_prob_step self r yv fv j = Ok s →
  r !! j = Some s.1 ∧ ∀ p, p ∈ s.1 → p < nrows fv.
Proof.
  unfold MultiOutputLikelihood.log_prob_step, MultiOutputLikelihood.indices_at.
  destruct (MultiOutputLikelihood.likelihood_at self j); [|done].
  destruct (r !! j) as [rj|]; [|done]. cbn [of_option mbind result_bind].
  destruct (gather_rows rj yv); [|done]. cbn [mbind result_bind].
  destruct (gather_rows rj fv) eqn:Hg; [|done]. cbn [mbind result_bind].
  destruct (Likelihood.log_prob _ _ _); [|done]. cbn [mbind result_bind].
  intros [= <-]. split; [done|]. intros p Hp. by eapply gather_rows_in_range.
Qed.

Lemma predict_step_indices self r muv varv ci sigma n j s :
  MultiOutputLikelihood.predict_step self r muv varv ci sigma n j = Ok s →
  r !! j = Some s.1 ∧ ∀ p, p ∈ s.1 → p < nrows muv.
Proof.
  unfold MultiOutputLikelihood.predict_step, MultiOutputLikelihood.indices_at.
  destruct (MultiOutputLikelihood.likelihood_at self j); [|done].
  destruct (r !! j) as [rj|]; [|done]. cbn [of_option mbind result_bind].
  destruct (gather_rows rj muv) eqn:Hg; [|done]. cbn [mbind result_bind].
  destruct (gather_rows rj varv); [|done]. cbn [mbind result_bind].
  destruct (Likelihood.predict _ _ _ _ _ _); [|done]. cbn [mbind result_bind].
  intros [= <-]. split; [done|]. intros p Hp. by eapply gather_rows_in_range.
Qed.

Lemma predict_point_step_indices self r muv varv ci sigma n j s :
  MultiOutputLikelihood.predict_point_step self r muv varv ci sigma n j = Ok s →
  r !! j = Some s.1 ∧ ∀ p, p ∈ s.1 → p < nrows muv.
Proof.
  unfold MultiOutputLikelihood.predict_point_step.
  destruct (MultiOutputLikelihood.predict_step _ _ _ _ _ _ _ _) as [s'|] eqn:Hs; [|done].
  cbn [mbind result_bind]. destruct (MultiOutputLikelihood.expect_point _); [|done].
  cbn [mbind result_bind]. intros [= <-]. by eapply predict_step_indices.
Qed.

Lemma predict_interval_step_indices pick self r muv varv ci sigma n j s :
  MultiOutputLikelihood.predict_interval_step pick self r muv varv ci sigma n j = Ok s →
  r !! j = Some s.1 ∧ ∀ p, p ∈ s.1 → p < nrows muv.
Proof.
  unfold MultiOutputLikelihood.predict_interval_step.
  destruct (MultiOutputLikelihood.predict_step _ _ _ _ _ _ _ _) as [s'|] eqn:Hs; [|done].
  cbn [mbind result_bind]. destruct (MultiOutputLikelihood.expect_interval _); [|done].
  cbn [mbind result_bind]. intros [= <-]. by eapply predict_step_indices.
Qed.

Lemma sum_loop_spec (step : nat → result A) (n : nat) :
  ∀ i q q', MultiOutputLikelihood.sum_loop add step i n q = Ok q' →
  ∃ es, length es = n ∧ (∀ j e, es !! j = Some e → step (i + j) = Ok e) ∧ q' = foldl add q es.
Proof.
  induction n as [|n IH]; intros i q q' Hloop.
  - injection Hloop as <-. exists []. done.
  - cbn [MultiOutputLikelihood.sum_loop] in Hloop.
    destruct (step i) as [e|] eqn:He; [|done]. cbn [mbind result_bind] in Hloop.
    apply IH in Hloop as (es & Hlen & Hes & ->). exists (e :: es). split_and!.
    + cbn. by rewrite Hlen.
    + intros [|j] e' He'; cbn in He'.
      * injection He' as <-. by rewrite Nat.add_0_r.
      * rewrite Nat.add_succ_r. by apply Hes.
    + done.
Qed.

(** What [sample] leaves behind the reference of [f]: the store changes at
    that reference only, and the new value has every channel's samples in
    the channel's columns. *)
Lemma sample_cols_routed self h X f Xv fv r res h' :
  h !! X = Some Xv → h !! f = Some fv →
  MultiOutputLikelihood._channel_indices long self Xv = Ok r →
  MultiOutputLikelihood.sample long self f X h = Ok (res, h') →
  ∃ new, res = f ∧ h' = <[f := new]> h
    ∧ ncols new = ncols fv ∧ nrows new = nrows fv
    ∧ MultiOutputLikelihood.cols_routed self r fv new.
Proof.
  intros HX Hf Hr. rewrite (sample_run long self f X h Xv fv) by done. rewrite Hr.
  destruct (MultiOutputLikelihood.cols_loop _ _ _ _) as [new|] eqn:Hloop; [|done].
  intros [= <- <-]. exists new.
  destruct (channel_indices_spec long self Xv r Hr) as [Hlen Hspec].
  eapply (cols_loop_spec self r) in Hloop as (Hc & Hrows & Hin).
  - split_and!; [done | done | done | by eapply Forall2_length |].
    intros i ri Hri. destruct (Hin i) as (L & rj & fsub & v & src & HL & Hrj & ?).
    { apply lookup_lt_Some in Hri. lia. }
    assert (rj = ri) as -> by congruence. by exists L, fsub, v, src.
  - intros j rj Hrj. by apply (Hspec j rj).
  - intros i j ri rj p. by apply (channel_indices_disjoint long self Xv r).
Qed.

(** C8. Let [X] be a channel-augmented input and [r] its index sets.
    [r[i]] holds exactly the rows whose column 0 is [i].  Whenever an
    operation of the multi-output likelihood returns, its result has the
    shape of its input and, for every channel [i], carries at the positions
    [r[i]] what likelihood [i] computed from the rows (for [sample]: the
    columns) [r[i]] of the inputs, in their order; [variational_expectation]
    returns the sum of the channels' terms, each computed by the channel's
    likelihood from the channel's rows. *)
Theorem multi_output_dispatch self h X y f mu var Xv yv fv muv varv r :
  h !! X = Some Xv → h !! y = Some yv → h !! f = Some fv →
  h !! mu = Some muv → h !! var = Some varv →
  MultiOutputLikelihood._channel_indices long self Xv = Ok r →
  (length r = MultiOutputLikelihood.output_dims self
   ∧ ∀ i ri, r !! i = Some ri →
       NoDup ri
       ∧ ∀ p, p ∈ ri ↔ MultiOutputLikelihood.channel_of long Xv p = Some (Z.of_nat i))
  ∧ (∀ res h', MultiOutputLikelihood.log_prob long uninit self y f X h = Ok (res, h') →
       ∃ resv, h' !! res = Some resv ∧ ncols resv = ncols fv ∧ nrows resv = nrows fv
         ∧ MultiOutputLikelihood.rows_routed r
             (MultiOutputLikelihood.log_prob_step self r yv fv) (ncols fv) resv)
  ∧ (∀ res h', MultiOutputLikelihood.mean long uninit self f X h = Ok (res, h') →
       ∃ resv, h' !! res = Some resv ∧ ncols resv = ncols fv ∧ nrows resv = nrows fv
         ∧ MultiOutputLikelihood.rows_routed r
             (MultiOutputLikelihood.moment_step Likelihood.mean self r fv) (ncols fv) resv)
  ∧ (∀ res h', MultiOutputLikelihood.variance long uninit self f X h = Ok (res, h') →
       ∃ resv, h' !! res = Some resv ∧ ncols resv = ncols fv ∧ nrows resv = nrows fv
         ∧ MultiOutputLikelihood.rows_routed r
             (MultiOutputLikelihood.moment_step Likelihood.variance self r fv) (ncols fv) resv)
  ∧ (∀ sigma n o h',
       MultiOutputLikelihood.predict long uninit self mu var None sigma n X h = Ok (o, h') →
       ∃ res resv, o = MultiOutputLikelihood.PointRef res
         ∧ h' !! res = Some resv ∧ ncols resv = ncols muv ∧ nrows resv = nrows muv
         ∧ MultiOutputLikelihood.rows_routed r
             (MultiOutputLikelihood.predict_point_step self r muv varv None sigma n)
             (ncols muv) resv)
  ∧ (∀ ci sigma n o h',
       MultiOutputLikelihood.predict long uninit self mu var (Some ci) sigma n X h
       = Ok (o, h') →
       ∃ res lower upper a b c, o = MultiOutputLikelihood.IntervalRef res lower upper
         ∧ h' !! res = Some a ∧ h' !! lower = Some b ∧ h' !! upper = Some c
         ∧ Forall (λ m, ncols m = ncols muv ∧ nrows m = nrows muv) [a; b; c]
         ∧ MultiOutputLikelihood.rows_routed r
             (MultiOutputLikelihood.predict_interval_step (λ abc, abc.1.1)
                self r muv varv (Some ci) sigma n) (ncols muv) a
         ∧ MultiOutputLikelihood.rows_routed r
             (MultiOutputLikelihood.predict_interval_step (λ abc, abc.1.2)
                self r muv varv (Some ci) sigma n) (ncols muv) b
         ∧ MultiOutputLikelihood.rows_routed r
             (MultiOutputLikelihood.predict_interval_step (λ abc, abc.2)
                self r muv varv (Some ci) sigma n) (ncols muv) c)
  ∧ (∀ res h', MultiOutputLikelihood.sample long self f X h = Ok (res, h') →
       ∃ resv, h' !! res = Some resv ∧ ncols resv = ncols fv ∧ nrows resv = nrows fv
         ∧ MultiOutputLikelihood.cols_routed self r fv resv)
  ∧ (∀ q h',
       MultiOutputLikelihood.variational_expectation long zero add self y mu var X h
       = Ok (q, h') →
       MultiOutputLikelihood.sum_routed zero add
         (MultiOutputLikelihood.variational_expectation_step zero add self r yv muv varv)
         (MultiOutputLikelihood.output_dims self) q).
Proof.
  intros HX Hy Hf Hmu Hvar Hr.
  pose proof (channel_indices_spec long self Xv r Hr) as Hspec.
  split; [exact Hspec|]. split_and!.
  - intros res h'. rewrite (log_prob_run long uninit self y f X h Xv yv fv) by done.
    rewrite Hr.
    destruct (MultiOutputLikelihood.rows_loop _ _ _ _) as [new|] eqn:Hloop; [|done].
    intros [= <- <-]. exists new. rewrite lookup_insert_eq.
    eapply rows_loop_routed in Hloop as (? & ? & ?); [done | exact Hr |].
    apply log_prob_step_indices.
  - intros res h'. unfold MultiOutputLikelihood.mean.
    rewrite (moment_run long uninit _ self f X h Xv fv) by done. rewrite Hr.
    destruct (MultiOutputLikelihood.rows_loop _ _ _ _) as [new|] eqn:Hloop; [|done].
    intros [= <- <-]. exists new. rewrite lookup_insert_eq.
    eapply rows_loop_routed in Hloop as (? & ? & ?); [done | exact Hr |].
    apply moment_step_indices.
  - intros res h'. unfold MultiOutputLikelihood.variance.
    rewrite (moment_run long uninit _ self f X h Xv fv) by done. rewrite Hr.
    destruct (MultiOutputLikelihood.rows_loop _ _ _ _) as [new|] eqn:Hloop; [|done].
    intros [= <- <-]. exists new. rewrite lookup_insert_eq.
    eapply rows_loop_routed in Hloop as (? & ? & ?); [done | exact Hr |].
    apply moment_step_indices.
  - intros sigma n o h'.
    rewrite (predict_point_run long uninit self mu var sigma n X h Xv muv varv) by done.
    rewrite Hr.
    destruct (MultiOutputLikelihood.rows_loop _ _ _ _) as [new|] eqn:Hloop; [|done].
    intros [= <- <-]. eexists _, new. rewrite lookup_insert_eq.
    eapply rows_loop_routed in Hloop as (? & ? & ?); [done | exact Hr |].
    apply predict_point_step_indices.
  - intros ci sigma n o h'.
    rewrite (predict_interval_run long uninit self mu var ci sigma n X h Xv muv varv) by done.
    cbv zeta. rewrite Hr.
    set (E := MultiOutputLikelihood.empty uninit (nrows muv) (ncols muv)).
    set (res := fresh (dom h)).
    set (lower := fresh (dom (<[res := E]> h))).
    set (upper := fresh (dom (<[lower := E]> (<[res := E]> h)))).
    destruct (MultiOutputLikelihood.rows_loop3 _ _ _ _) as [[[a b] c]|] eqn:Hloop; [|done].
    intros [= <- <-]. cbn [fst snd].
    assert (res ≠ lower) as Hrl.
    { apply (fresh_ne (<[res := E]> h) res E). apply lookup_insert_eq. }
    assert (res ≠ upper ∧ lower ≠ upper) as [Hru Hlu].
    { split; [apply (fresh_ne (<[lower := E]> (<[res := E]> h)) res E)
             | apply (fresh_ne (<[lower := E]> (<[res := E]> h)) lower E)];
        by simplify_map_eq. }
    apply rows_loop3_split in Hloop as (Ha & Hb & Hc). cbn [fst snd] in Ha, Hb, Hc.
    eapply rows_loop_routed in Ha as (? & ? & ?);
      [| exact Hr | apply (predict_interval_step_indices (λ abc, abc.1.1))].
    eapply rows_loop_routed in Hb as (? & ? & ?);
      [| exact Hr | apply (predict_interval_step_indices (λ abc, abc.1.2))].
    eapply rows_loop_routed in Hc as (? & ? & ?);
      [| exact Hr | apply (predict_interval_step_indices (λ abc, abc.2))].
    exists res, lower, upper, a, b, c. split_and!; try done; try by simplify_map_eq.
    by repeat constructor.
  - intros res h' Hrun.
    destruct (sample_cols_routed self h X f Xv fv r res h' HX Hf Hr Hrun)
      as (new & -> & -> & ? & ? & ?).
    exists new. by rewrite lookup_insert_eq.
  - intros q h'.
    rewrite (variational_expectation_run long zero add self y mu var X h Xv yv muv varv)
      by done.
    rewrite Hr.
    destruct (MultiOutputLikelihood.sum_loop _ _ _ _ _) as [q'|] eqn:Hloop; [|done].
    intros [= <- <-]. by apply sum_loop_spec in Hloop.
Qed.
End routing.

Lemma multi_output_dispatch_witness :
  ∃ res h' resv,
    MultiOutputLikelihood.mean (λ z : Z, z) (λ _ _, (-1)%Z) example_self 2%positive 1%positive
      example_store = Ok (res, h')
    ∧ h' !! res = Some resv
    ∧ resv = Mat 1 [[101]; [102]; [6]; [8]; [10]]%Z
    ∧ MultiOutputLikelihood.rows_routed [[0; 1]; [2; 3; 4]]
        (MultiOutputLikelihood.moment_step Likelihood.mean example_self
           [[0; 1]; [2; 3; 4]] example_f) 1 resv.
Proof.
  destruct (multi_output_dispatch (λ z : Z, z) 0%Z Z.add (λ _ _, (-1)%Z) example_self example_store
              1%positive 2%positive 2%positive 2%positive 2%positive
              example_X example_f example_f example_f example_f [[0; 1]; [2; 3; 4]])
    as (_ & _ & Hmean & _); try reflexivity.
  destruct (Hmean 3%positive (<[3%positive := Mat 1 [[101]; [102]; [6]; [8]; [10]]%Z]> example_store))
    as (resv & Hres & _ & _ & Hrouted); [vm_compute; reflexivity|].
  exists 3%positive, (<[3%positive := Mat 1 [[101]; [102]; [6]; [8]; [10]]%Z]> example_store), resv.
  split_and!; [vm_compute; reflexivity | exact Hres | | exact Hrouted].
  rewrite lookup_insert_eq in Hres. by injection Hres.
Defined.

(** ** MultiOutputLikelihood: which tensors an operation writes *)

Section frame.
Context {A : Type}.
Variable long : A → Z.
Variable uninit : nat → nat → A.
Implicit Types (self : MultiOutputLikelihood.t (A:=A)) (h : store A).

(** C10. [sample] returns the reference it was given for [f], and the store
    it leaves differs from the one it found at that reference only, where
    every channel's samples now stand in the columns of the channel: the
    caller's tensor is overwritten.  [log_prob], [mean], [variance] and
    [predict] return references that were not in the store and that hold a
    tensor in the store they leave, and leave the value behind every
    reference of the store they found as it was. *)
Theorem sample_in_place_others_allocate self h X y f mu var Xv yv fv muv varv :
  h !! X = Some Xv → h !! y = Some yv → h !! f = Some fv →
  h !! mu = Some muv → h !! var = Some varv →
  (∀ res h', MultiOutputLikelihood.sample long self f X h = Ok (res, h') →
     res = f
     ∧ ∃ r new, MultiOutputLikelihood._channel_indices long self Xv = Ok r
         ∧ h' = <[f := new]> h
         ∧ MultiOutputLikelihood.cols_routed self r fv new)
  ∧ (∀ res h', MultiOutputLikelihood.log_prob long uninit self y f X h = Ok (res, h') →
       h !! res = None ∧ is_Some (h' !! res)
       ∧ ∀ l m, h !! l = Some m → h' !! l = Some m)
  ∧ (∀ res h', MultiOutputLikelihood.mean long uninit self f X h = Ok (res, h') →
       h !! res = None ∧ is_Some (h' !! res)
       ∧ ∀ l m, h !! l = Some m → h' !! l = Some m)
  ∧ (∀ res h', MultiOutputLikelihood.variance long uninit self f X h = Ok (res, h') →
       h !! res = None ∧ is_Some (h' !! res)
       ∧ ∀ l m, h !! l = Some m → h' !! l = Some m)
  ∧ (∀ sigma n res h',
       MultiOutputLikelihood.predict long uninit self mu var None sigma n X h
       = Ok (MultiOutputLikelihood.PointRef res, h') →
       h !! res = None ∧ is_Some (h' !! res)
       ∧ ∀ l m, h !! l = Some m → h' !! l = Some m)
  ∧ (∀ ci sigma n res lower upper h',
       MultiOutputLikelihood.predict long uninit self mu var (Some ci) sigma n X h
       = Ok (MultiOutputLikelihood.IntervalRef res lower upper, h') →
       h !! res = None ∧ h !! lower = None ∧ h !! upper = None
       ∧ is_Some (h' !! res) ∧ is_Some (h' !! lower) ∧ is_Some (h' !! upper)
       ∧ res ≠ lower ∧ res ≠ upper ∧ lower ≠ upper
       ∧ ∀ l m, h !! l = Some m → h' !! l = Some m).
Proof.
  intros HX Hy Hf Hmu Hvar.
  assert (∀ new l m, h !! l = Some m → <[fresh (dom h) := new]> h !! l = Some m) as Hkeep.
  { intros new l m Hl. rewrite lookup_insert_ne; [done|]. symmetry. by eapply fresh_ne. }
  split_and!.
  - intros res h' Hrun.
    destruct (MultiOutputLikelihood._channel_indices long self Xv) as [r|] eqn:Hr.
    2:{ rewrite (sample_run long self f X h Xv fv), Hr in Hrun; done. }
    destruct (sample_cols_routed long self h X f Xv fv r res h' HX Hf Hr Hrun)
      as (new & -> & -> & _ & _ & Hrouted).
    split; [done|]. by exists r, new.
  - intros res h'. rewrite (log_prob_run long uninit self y f X h Xv yv fv) by done.
    destruct (MultiOutputLikelihood._channel_indices long self Xv) as [r|]; [|done].
    destruct (MultiOutputLikelihood.rows_loop _ _ _ _) as [new|]; [|done].
    intros [= <- <-].
    split_and!; [apply fresh_lookup | by rewrite lookup_insert_eq | apply Hkeep].
  - intros res h'. unfold MultiOutputLikelihood.mean.
    rewrite (moment_run long uninit _ self f X h Xv fv) by done.
    destruct (MultiOutputLikelihood._channel_indices long self Xv) as [r|]; [|done].
    destruct (MultiOutputLikelihood.rows_loop _ _ _ _) as [new|]; [|done].
    intros [= <- <-].
    split_and!; [apply fresh_lookup | by rewrite lookup_insert_eq | apply Hkeep].
  - intros res h'. unfold MultiOutputLikelihood.variance.
    rewrite (moment_run long uninit _ self f X h Xv fv) by done.
    destruct (MultiOutputLikelihood._channel_indices long self Xv) as [r|]; [|done].
    destruct (MultiOutputLikelihood.rows_loop _ _ _ _) as [new|]; [|done].
    intros [= <- <-].
    split_and!; [apply fresh_lookup | by rewrite lookup_insert_eq | apply Hkeep].
  - intros sigma n res h'.
    rewrite (predict_point_run long uninit self mu var sigma n X h Xv muv varv) by done.
    destruct (MultiOutputLikelihood._channel_indices long self Xv) as [r|]; [|done].
    destruct (MultiOutputLikelihood.rows_loop _ _ _ _) as [new|]; [|done].
    intros [= <- <-].
    split_and!; [apply fresh_lookup | by rewrite lookup_insert_eq | apply Hkeep].
  - intros ci sigma n res lower upper h'.
    rewrite (predict_interval_run long uninit self mu var ci sigma n X h Xv muv varv) by done.
    cbv zeta.
    destruct (MultiOutputLikelihood._channel_indices long self Xv) as [r|]; [|done].
    set (E := MultiOutputLikelihood.empty uninit (nrows muv) (ncols muv)).
    destruct (MultiOutputLikelihood.rows_loop3 _ _ _ _) as [[[a b] c]|]; [|done].
    cbn [fst snd]. intros [= <- <- <- <-].
    set (res := fresh (dom h)).
    set (h1 := <[res := E]> h).
    set (lower := fresh (dom h1)).
    set (h2 := <[lower := E]> h1).
    set (upper := fresh (dom h2)).
    assert (h !! res = None) as Hres by apply fresh_lookup.
    assert (h1 !! lower = None) as Hlower by apply fresh_lookup.
    assert (h2 !! upper = None) as Hupper by apply fresh_lookup.
    assert (res ≠ lower) as Hrl.
    { apply (fresh_ne h1 res E). apply lookup_insert_eq. }
    assert (lower ≠ upper) as Hlu.
    { apply (fresh_ne h2 lower E). apply lookup_insert_eq. }
    assert (res ≠ upper) as Hru.
    { apply (fresh_ne h2 res E). unfold h2, h1. by rewrite lookup_insert_ne, lookup_insert_eq. }
    unfold h1 in Hlower. rewrite lookup_insert_ne in Hlower by done.
    unfold h2, h1 in Hupper. rewrite !lookup_insert_ne in Hupper by done.
    split_and!; try done.
    + rewrite lookup_insert_ne, lookup_insert_ne, lookup_insert_eq by congruence. by eexists.
    + rewrite lookup_insert_ne, lookup_insert_eq by congruence. by eexists.
    + rewrite lookup_insert_eq. by eexists.
    + intros l m Hl. rewrite !lookup_insert_ne; [done|..]; intros <-; congruence.
Qed.
End frame.

(** An instance of [sample_in_place_others_allocate]: the tensor behind the
    reference given to [sample] is not what it was, while [mean] hands back
    a new reference and leaves the tensor behind [f] alone. *)
Lemma sample_in_place_witness :
  (∃ res h' new,
     MultiOutputLikelihood.sample (λ z : Z, z) example_self 2%positive 1%positive
       (<[2%positive := Mat 5 [[1; 2; 3; 4; 5]]%Z]> {[1%positive := example_X]}) = Ok (res, h')
     ∧ res = 2%positive
     ∧ h' !! 2%positive = Some new
     ∧ new = Mat 5 [[101; 102; 6; 8; 10]]%Z
     ∧ new ≠ Mat 5 [[1; 2; 3; 4; 5]]%Z)
  ∧ (∃ res h',
       MultiOutputLikelihood.mean (λ z : Z, z) (λ _ _, 0%Z) example_self 2%positive 1%positive
         example_store = Ok (res, h')
       ∧ example_store !! res = None
       ∧ is_Some (h' !! res)
       ∧ h' !! 2%positive = Some example_f
       ∧ h' !! 1%positive = Some example_X).
Proof.
  split.
  - set (f := Mat 5 [[1; 2; 3; 4; 5]]%Z).
    set (h := <[2%positive := f]> {[1%positive := example_X]} : store Z).
    set (new := Mat 5 [[101; 102; 6; 8; 10]]%Z).
    destruct (sample_in_place_others_allocate (λ z : Z, z) (λ _ _, 0%Z) example_self h
                1%positive 2%positive 2%positive 2%positive 2%positive
                example_X f f f f) as (Hsample & _); try reflexivity.
    destruct (Hsample 2%positive (<[2%positive := new]> h)) as (Hres & _);
      [vm_compute; reflexivity|].
    exists 2%positive, (<[2%positive := new]> h), new.
    split_and!; [vm_compute; reflexivity | exact Hres | apply lookup_insert_eq | done | done].
  - set (new := Mat 1 [[101]; [102]; [6]; [8]; [10]]%Z).
    destruct (sample_in_place_others_allocate (λ z : Z, z) (λ _ _, 0%Z) example_self
                example_store 1%positive 2%positive 2%positive 2%positive 2%positive
                example_X example_f example_f example_f example_f)
      as (_ & _ & Hmean & _); try reflexivity.
    destruct (Hmean 3%positive (<[3%positive := new]> example_store))
      as (Hnew & Hheld & Hkept); [vm_compute; reflexivity|].
    exists 3%positive, (<[3%positive := new]> example_store).
    split_and!; [vm_compute; reflexivity | exact Hnew | exact Hheld | |];
      by apply Hkept.
Defined.

(** ** StudentTLikelihood: the moments *)

(** C7. The mean of the Student's t likelihood is a tensor of NaN of the
    shape of [f] when the degrees of freedom are at most 1 and [f] itself
    otherwise; the variance is NaN when they are at most 2 and
    [scale^2 * dof / (dof - 2)] otherwise, which is [3 * scale^2] for three
    degrees of freedom.  NaN is a value that is returned, nothing is
    raised. *)
Theorem student_t_moments (self : StudentTLikelihood.t) (f : matrix xreal) :
  let dof := StudentTLikelihood.dof self in
  let scale := StudentTLikelihood.scale self in
  ((dof <= 1)%R →
     StudentTLikelihood.mean self f
     = Tensor (Mat (ncols f) (replicate (nrows f) (replicate (ncols f) NaN))))
  ∧ ((1 < dof)%R → StudentTLikelihood.mean self f = Tensor f)
  ∧ ((dof <= 2)%R → StudentTLikelihood.variance self f = Scalar NaN)
  ∧ ((2 < dof)%R →
       StudentTLikelihood.variance self f = Scalar (Real (scale * scale * dof / (dof - 2))%R))
  ∧ (dof = 3%R → StudentTLikelihood.variance self f = Scalar (Real (3 * (scale * scale))%R)).
Proof.
  intros dof scale. unfold StudentTLikelihood.mean, StudentTLikelihood.variance.
  fold dof scale. split_and!.
  - intros Hd. by rewrite decide_True.
  - intros Hd. rewrite decide_False; [done|]. lra.
  - intros Hd. by rewrite decide_True.
  - intros Hd. rewrite decide_False; [done|]. lra.
  - intros Hd. rewrite decide_False by lra. do 2 f_equal. rewrite Hd. lra.
Qed.

(** [student_t_moments] at one and at three degrees of freedom, with scale 2. *)
Lemma student_t_moments_witness :
  let f := Mat 1 [[Real 5]; [NaN]] in
  StudentTLikelihood.mean (StudentTLikelihood.Make 1 2) f = Tensor (Mat 1 [[NaN]; [NaN]])
  ∧ StudentTLikelihood.mean (StudentTLikelihood.Make 3 2) f = Tensor f
  ∧ StudentTLikelihood.variance (StudentTLikelihood.Make 1 2) f = Scalar NaN
  ∧ StudentTLikelihood.variance (StudentTLikelihood.Make 3 2) f = Scalar (Real (3 * (2 * 2))).
Proof.
  intros f.
  destruct (student_t_moments (StudentTLikelihood.Make 1 2) f) as (Hm1 & _ & Hv1 & _).
  destruct (student_t_moments (StudentTLikelihood.Make 3 2) f) as (_ & Hm3 & _ & _ & Hv3).
  split_and!.
  - apply Hm1. simpl. lra.
  - apply Hm3. simpl. lra.
  - apply Hv1. simpl. lra.
  - apply Hv3. reflexivity.
Defined.

(** ** Reals: order, sorting, truncation *)

(** Sorting a list that is in ascending order leaves it as it is. *)
Lemma merge_sort_sorted (l : list R) : Sorted Rle l → merge_sort Rle l = l.
Proof.
  intros Hl. apply (Sorted_unique Rle); [apply Sorted_merge_sort, _ | done |].
  apply merge_sort_Permutation.
Qed.

Lemma py_int_unit (x : R) : (0 <= x < 1)%R → py_int x = 0%Z.
Proof.
  intros [H0 H1]. unfold py_int. rewrite decide_True by done.
  symmetry. apply Int_part_spec. simpl. lra.
Qed.

Lemma py_int_between (x : R) (z : Z) : (0 <= IZR z <= x)%R → (x < IZR z + 1)%R → py_int x = z.
Proof.
  intros [H0 H1] H2. unfold py_int. rewrite decide_True by lra.
  symmetry. apply Int_part_spec. lra.
Qed.

(** ** Likelihood.predict: the two quantile indices *)

Lemma Int_part_lower (x : R) (z : Z) : (IZR z <= x)%R → (z ≤ Int_part x)%Z.
Proof.
  intros Hz. destruct (base_Int_part x) as [_ Hup].
  assert (IZR z < IZR (Int_part x + 1))%R as Hlt by (rewrite plus_IZR; simpl; lra).
  apply lt_IZR in Hlt. lia.
Qed.

Lemma Int_part_mono (x y : R) : (x <= y)%R → (Int_part x ≤ Int_part y)%Z.
Proof.
  intros Hxy. apply Int_part_lower. destruct (base_Int_part x) as [Hlo _]. lra.
Qed.

Lemma py_int_nonneg (x : R) : (0 <= x)%R → (0 ≤ py_int x)%Z.
Proof.
  intros Hx. unfold py_int. rewrite decide_True by done. by apply (Int_part_lower x 0).
Qed.

Lemma py_int_mono (x y : R) : (0 <= x <= y)%R → (py_int x ≤ py_int y)%Z.
Proof.
  intros [H0 Hxy]. unfold py_int. rewrite !decide_True by lra. by apply Int_part_mono.
Qed.

Lemma py_int_lower (x : R) (n : nat) : (INR n <= x)%R → (Z.of_nat n ≤ py_int x)%Z.
Proof.
  intros Hn. pose proof (pos_INR n). unfold py_int. rewrite decide_True by lra.
  apply Int_part_lower. by rewrite <- INR_IZR_INZ.
Qed.

Lemma py_index_error {T : Type} (l : list T) (i : Z) (e : exn) :
  py_index l i = Err e → e = IndexError.
Proof.
  unfold py_index. repeat destruct (decide _); [| |congruence];
    (destruct (l !! _); cbn; congruence).
Qed.

Lemma py_index_beyond {T : Type} (l : list T) (i : Z) :
  (Z.of_nat (length l) ≤ i)%Z → py_index l i = Err IndexError.
Proof.
  intros Hi. unfold py_index. rewrite decide_True by lia.
  rewrite (proj2 (lookup_ge_None l (Z.to_nat i))) by lia. done.
Qed.

Lemma py_index_nonneg {T : Type} (l : list T) (i : Z) (x : T) :
  (0 ≤ i)%Z → py_index l i = Ok x → l !! Z.to_nat i = Some x.
Proof.
  intros Hi. unfold py_index. rewrite decide_True by done.
  destruct (l !! Z.to_nat i); cbn; congruence.
Qed.

Lemma length_sort0 (N c : nat) (T : list (matrix R)) :
  length (LikelihoodBase.sort0 N c T) = length T.
Proof. unfold LikelihoodBase.sort0. by rewrite length_fmap, length_seq. Qed.

(** In a list in ascending order, a later position holds no smaller
    value. *)
Lemma Sorted_nth_le (l : list R) (i j : nat) :
  Sorted Rle l → i ≤ j < length l → (nth i l 0 <= nth j l 0)%R.
Proof.
  intros Hl%Sorted_StronglySorted; [|apply _]. revert i j.
  induction Hl as [|x l Hl IH Hx]; intros i j [Hij Hj]; [simpl in Hj; lia|].
  destruct i as [|i], j as [|j]; simpl in *; [lra | | lia | apply IH; lia].
  rewrite Forall_forall in Hx. apply Hx. apply list_elem_of_In, nth_In. lia.
Qed.

Lemma entry_sort0 (N c : nat) (T : list (matrix R)) (s p q : nat) (m : matrix R) :
  LikelihoodBase.sort0 N c T !! s = Some m → p < N → q < c →
  entry m p q = nth s (merge_sort Rle (LikelihoodBase.cell T p q)) 0%R.
Proof.
  unfold LikelihoodBase.sort0. rewrite list_lookup_fmap.
  destruct (seq 0 (length T) !! s) as [s'|] eqn:Hs; [|done].
  apply lookup_seq in Hs as [-> _]. intros [= <-] Hp Hq.
  unfold entry. cbn [rows].
  rewrite (nth_lookup_Some _ _ _ ((λ q, nth s (merge_sort Rle (LikelihoodBase.cell T p q)) 0%R)
                                    <$> seq 0 c)).
  2:{ rewrite list_lookup_fmap, lookup_seq_lt by done. done. }
  apply nth_lookup_Some. rewrite list_lookup_fmap, lookup_seq_lt by done. done.
Qed.

Lemma entry_sort0_outside (N c : nat) (T : list (matrix R)) (s p q : nat) (m : matrix R) :
  LikelihoodBase.sort0 N c T !! s = Some m → ¬ (p < N ∧ q < c) → entry m p q = 0%R.
Proof.
  unfold LikelihoodBase.sort0. rewrite list_lookup_fmap.
  destruct (seq 0 (length T) !! s) as [s'|] eqn:Hs; [|done].
  apply lookup_seq in Hs as [-> _]. intros [= <-] Hpq.
  unfold entry. cbn [rows].
  destruct (decide (p < N)) as [Hp|Hp].
  - rewrite (nth_lookup_Some _ _ _ ((λ q, nth s (merge_sort Rle (LikelihoodBase.cell T p q)) 0%R)
                                      <$> seq 0 c)).
    2:{ rewrite list_lookup_fmap, lookup_seq_lt by done. done. }
    apply nth_overflow. rewrite length_fmap, length_seq. lia.
  - rewrite (nth_overflow _ []) by (rewrite length_fmap, length_seq; lia).
    by destruct q.
Qed.

Lemma length_omap_all {B C : Type} (g : B → option C) (l : list B) :
  Forall (λ x, is_Some (g x)) l → length (omap g l) = length l.
Proof.
  induction 1 as [|x l [y Hy] _ IH]; [done|]. cbn. rewrite Hy. cbn. by rewrite IH.
Qed.

(** ** BernoulliLikelihood: sampling *)

Lemma all_entries_true {B : Type} (test : B → bool) (l : list (list B)) :
  forallb (forallb test) l = true ↔ Forall (Forall (λ a, test a = true)) l.
Proof.
  induction l as [|row l IH]; cbn.
  - split; [constructor | done].
  - rewrite andb_true_iff, IH, Forall_cons. apply and_iff_compat_r.
    clear. induction row as [|a row IH]; cbn.
    + split; [constructor | done].
    + by rewrite andb_true_iff, IH, Forall_cons.
Qed.

(** The scales that [Normal] accepts. *)
Lemma Normal_accepts (l : list (list R)) :
  forallb (forallb (λ v, bool_decide (0 < v)%R)) l = true
  ↔ Forall (Forall (λ v, (0 < v)%R)) l.
Proof.
  rewrite all_entries_true. apply Forall_proper; [|done]. intros row.
  apply Forall_proper; [|done]. intros v. apply bool_decide_eq_true.
Qed.

Lemma Normal_sample_accepted (eps : nat → nat → nat → R) (loc scale : matrix R) (n : nat) :
  Forall (Forall (λ v, (0 < v)%R)) (rows scale) →
  LikelihoodBase.Normal_sample eps loc scale n = Ok (LikelihoodBase.Normal_draws eps loc scale n).
Proof.
  intros Hpos. unfold LikelihoodBase.Normal_sample.
  by rewrite (proj2 (Normal_accepts _) Hpos).
Qed.

Lemma Normal_sample_refused (eps : nat → nat → nat → R) (loc scale : matrix R) (n : nat) :
  ¬ Forall (Forall (λ v, (0 < v)%R)) (rows scale) →
  ∃ msg, LikelihoodBase.Normal_sample eps loc scale n = Err (ValueError msg).
Proof.
  intros Hpos. unfold LikelihoodBase.Normal_sample.
  destruct (forallb _ (rows scale)) eqn:Hall; [|by eexists].
  by apply Normal_accepts in Hall.
Qed.










Section bernoulli_props.
Variable erf : R → R.
Variable eps : nat → nat → nat → R.

End bernoulli_props.

Lemma init_one_node :
  GaussHermiteQuadrature.init hermgauss_one 1 (Some (sqrt 2)) (Some (1 / sqrt PI)%R) = one_node.
Proof.
  unfold GaussHermiteQuadrature.init, hermgauss_one, one_node. cbn. f_equal.
  - f_equal. lra.
  - f_equal. field. apply Rgt_not_eq. apply sqrt_lt_R0. apply PI_RGT_0.
Qed.

Lemma logistic_zero (erf : R → R) (x : R) : x = 0%R → apply_link erf logistic x = (1 / 2)%R.
Proof. intros ->. cbn. rewrite Ropp_0, exp_0. lra. Qed.

Section example_predict.
Variable erf : R → R.

Lemma example_call :
  GaussHermiteQuadrature.call (BernoulliLikelihood.quadrature example_bernoulli)
    (Mat 1 [[0%R]]) (Mat 1 [[4%R]]) (BernoulliLikelihood.mean erf example_bernoulli)
  = Ok (Mat 1 [[(1 / 2)%R]]).
Proof.
  unfold example_bernoulli, BernoulliLikelihood.init. cbn [BernoulliLikelihood.quadrature].
  rewrite init_one_node. unfold GaussHermiteQuadrature.call, one_node.
  cbn. rewrite !decide_True by done. do 4 f_equal.
  replace (0 + sqrt 4 * 0)%R with 0%R by ring. rewrite Ropp_0, exp_0. lra.
Qed.

Lemma py_index_0 {T : Type} (x : T) (l : list T) : py_index (x :: l) 0 = Ok x.
Proof. done. Qed.
Lemma py_index_1 {T : Type} (x y : T) (l : list T) : py_index (x :: y :: l) 1 = Ok y.
Proof. done. Qed.

Lemma sqrt_4 : sqrt 4 = 2%R.
Proof. replace 4%R with (2 * 2)%R by lra. apply sqrt_square. lra. Qed.

(** C1 at a failing input: one data point with latent mean 0 and latent
    variance 4, the interval (0, 1/2), two samples, the standard normal
    draws 0 and 1, a Bernoulli likelihood with the logistic link and one
    quadrature node.  [predict] draws around the predicted mean 1/2 (the
    name [mu] is rebound before the draw) with [var] as the standard
    deviation, and returns the interval (1/2, 9/2); draws from the normal
    distribution with mean [mu] and variance [var] give (0, 2). *)
Lemma predict_draws_failing_input :
  let mu := Mat 1 [[0%R]] in
  let var := Mat 1 [[4%R]] in
  let ci := Some (0, 1 / 2)%R in
  let point := Tensor (Mat 1 [[(1 / 2)%R]]) in
  let code := BernoulliLikelihood.predict erf example_eps example_bernoulli mu var ci None 2 in
  let spec := LikelihoodBase.predict_spec example_eps
                (BernoulliLikelihood.quadrature example_bernoulli)
                (BernoulliLikelihood.mean erf example_bernoulli)
                (BernoulliLikelihood.sample example_bernoulli) mu var ci None 2 in
  code = Ok (Interval point (Tensor (Mat 1 [[(1 / 2)%R]])) (Tensor (Mat 1 [[(9 / 2)%R]])))
  ∧ spec = Ok (Interval point (Tensor (Mat 1 [[0%R]])) (Tensor (Mat 1 [[2%R]])))
  ∧ code ≠ spec.
Proof.
  intros mu var ci point code spec.
  assert (code = Ok (Interval point (Tensor (Mat 1 [[(1 / 2)%R]]))
                       (Tensor (Mat 1 [[(9 / 2)%R]])))) as Hcode.
  { unfold code, BernoulliLikelihood.predict, LikelihoodBase.predict.
    cbn [example_bernoulli BernoulliLikelihood.init BernoulliLikelihood.link_of
           is_inv_probit negb].
    unfold mu, var. rewrite example_call.
    cbn [mbind result_bind]. rewrite Normal_sample_accepted by (repeat constructor; lra).
    cbn [mbind result_bind BernoulliLikelihood.sample].
    unfold LikelihoodBase.Normal_draws, LikelihoodBase.sort0, LikelihoodBase.cell,
      example_eps, ci.
    cbn. rewrite !decide_True by lra.
    rewrite (py_int_unit (0 * (1 + 1) + 1 / 2)) by lra.
    rewrite (py_int_between (1 / 2 * (1 + 1) + 1 / 2) 1) by (simpl; lra).
    cbn [list_merge nth]. rewrite py_index_0, py_index_1. cbn [mbind result_bind].
    unfold point. replace (1 / 2 + 4 * 0)%R with (1 / 2)%R by lra.
    by replace (1 / 2 + 4 * 1)%R with (9 / 2)%R by lra. }
  assert (spec = Ok (Interval point (Tensor (Mat 1 [[0%R]])) (Tensor (Mat 1 [[2%R]]))))
    as Hspec.
  { unfold spec, LikelihoodBase.predict_spec. unfold mu, var. rewrite example_call.
    cbn [mbind result_bind]. unfold mat_map. cbn [rows ncols map]. rewrite sqrt_4.
    rewrite Normal_sample_accepted by (repeat constructor; lra).
    cbn [mbind result_bind BernoulliLikelihood.sample].
    unfold LikelihoodBase.Normal_draws, LikelihoodBase.sort0, LikelihoodBase.cell,
      example_eps, ci.
    cbn. rewrite !decide_True by lra.
    rewrite (py_int_unit (0 * (1 + 1) + 1 / 2)) by lra.
    rewrite (py_int_between (1 / 2 * (1 + 1) + 1 / 2) 1) by (simpl; lra).
    cbn [list_merge nth]. rewrite py_index_0, py_index_1. cbn [mbind result_bind].
    unfold point. replace (0 + 2 * 0)%R with 0%R by lra.
    by replace (0 + 2 * 1)%R with 2%R by lra. }
  split_and!; [done | done |]. rewrite Hcode, Hspec. intros [= H1 H2]. lra.
Qed.
End example_predict.


(** ** Vectors *)

Section vector_props.
Local Open Scope R_scope.
Implicit Types (a b c d : list R).

Lemma vadd_comm a : ∀ b, vadd a b = vadd b a.
Proof. unfold vadd. induction a as [|x a IH]; intros [|y b]; cbn; [done..|]. f_equal; [lra|apply IH]. Qed.

Lemma vmul_comm a : ∀ b, vmul a b = vmul b a.
Proof. unfold vmul. induction a as [|x a IH]; intros [|y b]; cbn; [done..|]. f_equal; [lra|apply IH]. Qed.

Lemma vsub_swap a : ∀ b, vsub b a = Ropp <$> vsub a b.
Proof. unfold vsub. induction a as [|x a IH]; intros [|y b]; cbn; [done..|]. f_equal; [lra|apply IH]. Qed.

Lemma vadd_opp a : ∀ b, vadd (Ropp <$> a) (Ropp <$> b) = Ropp <$> vadd a b.
Proof. unfold vadd. induction a as [|x a IH]; intros [|y b]; cbn; [done..|]. f_equal; [lra|apply IH]. Qed.

Lemma vsquare_opp a : vsquare (Ropp <$> a) = vsquare a.
Proof. unfold vsquare. induction a as [|x a IH]; cbn; [done|]. f_equal; [lra|apply IH]. Qed.

Lemma dot_opp_l a : ∀ b, dot (Ropp <$> a) b = - dot a b.
Proof.
  unfold dot, vsum, vmul. induction a as [|x a IH]; intros [|y b]; cbn; try lra.
  rewrite IH. lra.
Qed.

Lemma dot_opp_both a : ∀ c, dot (Ropp <$> a) (vmul c (Ropp <$> a)) = dot a (vmul c a).
Proof.
  unfold dot, vsum, vmul. induction a as [|x a IH]; intros [|z c]; cbn; try lra.
  rewrite IH. lra.
Qed.

Lemma vsub_self a : vsub a a = (λ _, 0) <$> a.
Proof. unfold vsub. induction a as [|x a IH]; cbn; [done|]. f_equal; [lra|apply IH]. Qed.

Lemma dot_zero_l a : ∀ b, dot ((λ _, 0) <$> a) b = 0.
Proof.
  unfold dot, vsum, vmul. induction a as [|x a IH]; intros [|y b]; cbn; try lra.
  rewrite IH. lra.
Qed.

Lemma vsquare_zero a : vsquare ((λ _, 0) <$> a) = (λ _, 0) <$> a.
Proof. unfold vsquare. induction a as [|x a IH]; cbn; [done|]. f_equal; [lra|apply IH]. Qed.

Lemma average_self a : vscale (1 / 2) (vadd a a) = a.
Proof. unfold vscale, vadd. induction a as [|x a IH]; cbn; [done|]. f_equal; [lra|apply IH]. Qed.

Lemma vadd_self a : vadd a a = vscale 2 a.
Proof. unfold vscale, vadd. induction a as [|x a IH]; cbn; [done|]. f_equal; [lra|apply IH]. Qed.

(** The combined variance of two channels does not depend on their
    order. *)
Lemma cross_variance_sym a : ∀ b,
  vmul (vmul (vscale 2 a) (vinv (vadd a b))) b = vmul (vmul (vscale 2 b) (vinv (vadd b a))) a.
Proof.
  unfold vmul, vscale, vinv, vadd.
  induction a as [|x a IH]; intros [|y b]; cbn; [done..|].
  f_equal; [|apply IH]. rewrite (Rplus_comm y x). lra.
Qed.
End vector_props.

(** ** Matrices computed entry by entry *)

Section pairwise_props.
Local Open Scope R_scope.
Implicit Types (X : matrix R).

Lemma mat_map_pairwise {B C : Type} (h : B → C) (F : list R → list R → B) X1 X2 :
  mat_map h (pairwise F X1 X2) = pairwise (λ x1 x2, h (F x1 x2)) X1 X2.
Proof.
  unfold mat_map, pairwise. cbn. f_equal. rewrite <- list_fmap_compose.
  apply list_fmap_ext. intros _ x1 _. cbn. by rewrite <- list_fmap_compose.
Qed.

Lemma mat_zip_with_pairwise {B C D : Type} (h : B → C → D)
    (F : list R → list R → B) (G : list R → list R → C) X1 X2 :
  mat_zip_with h (pairwise F X1 X2) (pairwise G X1 X2)
  = pairwise (λ x1 x2, h (F x1 x2) (G x1 x2)) X1 X2.
Proof.
  assert (∀ {T U V W : Type} (k : U → V → W) (f : T → U) (g : T → V) (l : list T),
            zip_with k (f <$> l) (g <$> l) = (λ x, k (f x) (g x)) <$> l) as Hzip.
  { intros T U V W k f g l. induction l as [|x l IH]; cbn; [done|]. by f_equal. }
  unfold mat_zip_with, pairwise. cbn. f_equal. rewrite Hzip.
  apply list_fmap_ext. intros _ x1 _. apply Hzip.
Qed.

Lemma pairwise_ext {B : Type} (F G : list R → list R → B) X1 X2 :
  (∀ x1 x2, F x1 x2 = G x1 x2) → pairwise F X1 X2 = pairwise G X1 X2.
Proof.
  intros HFG. unfold pairwise. f_equal. apply list_fmap_ext. intros _ x1 _.
  apply list_fmap_ext. intros _ x2 _. apply HFG.
Qed.

(** The transpose of a matrix computed entry by entry is computed entry
    by entry, with the two point sets exchanged. *)
Lemma transpose_pairwise (F : list R → list R → R) X1 X2 :
  mat_transpose (pairwise F X1 X2) = pairwise (λ x2 x1, F x1 x2) X2 X1.
Proof.
  unfold mat_transpose, pairwise, nrows. cbn. rewrite length_fmap. f_equal.
  apply list_eq. intros q. rewrite !list_lookup_fmap.
  destruct (rows X2 !! q) as [x2|] eqn:Hq.
  - rewrite lookup_seq_lt by (by eapply lookup_lt_Some). cbn. f_equal.
    rewrite <- list_fmap_compose. apply list_fmap_ext. intros _ x1 _. cbn.
    by rewrite nth_lookup, list_lookup_fmap, Hq.
  - rewrite lookup_seq_ge by (by apply lookup_ge_None). done.
Qed.

(** The diagonal of a matrix computed entry by entry on one point set. *)
Lemma diag_pairwise (F : list R → list R → R) X1 :
  mat_diag (pairwise F X1 X1) = (λ x, F x x) <$> rows X1.
Proof.
  unfold mat_diag, pairwise. cbn. apply list_eq. intros p.
  rewrite list_lookup_imap, !list_lookup_fmap.
  destruct (rows X1 !! p) as [x|] eqn:Hp; [|done]. cbn.
  by rewrite nth_lookup, list_lookup_fmap, Hp.
Qed.
End pairwise_props.

(** ** The kernel base class *)

Section active_input.
Implicit Types (X : matrix R).

Lemma index_select_nrows dims X (S : matrix R) :
  Kernel.index_select dims X = Ok S → nrows S = nrows X.
Proof.
  unfold Kernel.index_select. destruct (forallb _ dims); [|done].
  intros [= <-]. unfold nrows. cbn. by rewrite length_fmap.
Qed.

Lemma index_select_error dims X e :
  Kernel.index_select dims X = Err e → e = IndexError.
Proof. unfold Kernel.index_select. destruct (forallb _ dims); [done|]. by intros [= <-]. Qed.

(** Restricting two point sets to the active dimensions, in either
    order: both calls succeed with the same two restricted sets, or both
    raise an index error. *)
Lemma active_input_swap active_dims X1 X2 :
  (∃ S1 S2, Kernel._active_input active_dims X1 (Some X2) = Ok (S1, Some S2)
            ∧ Kernel._active_input active_dims X2 (Some X1) = Ok (S2, Some S1)
            ∧ Kernel._active_input active_dims X1 None = Ok (S1, None)
            ∧ nrows S1 = nrows X1 ∧ nrows S2 = nrows X2)
  ∨ (Kernel._active_input active_dims X1 (Some X2) = Err IndexError
     ∧ Kernel._active_input active_dims X2 (Some X1) = Err IndexError).
Proof.
  unfold Kernel._active_input. destruct active_dims as [dims|].
  - destruct (Kernel.index_select dims X1) as [S1|e1] eqn:H1;
      destruct (Kernel.index_select dims X2) as [S2|e2] eqn:H2; cbn.
    + left. exists S1, S2. split_and!; try done; by eapply index_select_nrows.
    + right. by apply index_select_error in H2 as ->.
    + right. by apply index_select_error in H1 as ->.
    + right. apply index_select_error in H1 as ->. by apply index_select_error in H2 as ->.
  - left. by exists X1, X2.
Qed.
End active_input.

(** ** Symmetry of the blocks *)

(** Takes the next parameter lookup apart; a branch in which both sides
    have raised is closed. *)
Ltac lookup_step :=
  match goal with
  | |- context [@of_option ?T ?e ?o] =>
      let v := fresh "v" in
      destruct o as [v|];
      cbn [of_option mbind result_bind fmap result_fmap]; try reflexivity
  end.

Section symmetry.
Local Open Scope R_scope.

Lemma cos_opp_arg (x y : R) : x = - y → cos x = cos y.
Proof. intros ->. apply cos_neg. Qed.

Lemma mosm_symmetric (self : MultiOutputSpectralKernel.t) (i j : nat) (X1 X2 : matrix R) :
  mat_transpose <$> MultiOutputSpectralKernel.Ksub self i j X1 (Some X2)
  = MultiOutputSpectralKernel.Ksub self j i X2 (Some X1).
Proof.
  unfold MultiOutputSpectralKernel.Ksub.
  destruct (active_input_swap (MultiOutputSpectralKernel.active_dims self) X1 X2)
    as [(S1 & S2 & -> & -> & _) | [-> ->]]; [|done].
  cbn [mbind result_bind fst snd]. unfold Kernel.distance, Kernel.second, at_channel, attribute.
  destruct (decide (i = j)) as [->|Hne].
  - rewrite decide_True by done. repeat lookup_step. f_equal.
    rewrite !mat_map_pairwise, transpose_pairwise. apply pairwise_ext. intros x2 x1.
    rewrite (vsub_swap x1 x2), vsquare_opp, dot_opp_l. f_equal.
    apply cos_opp_arg. lra.
  - rewrite decide_False by congruence.
    destruct (MultiOutputSpectralKernel.variance self !! i) as [vi|],
      (MultiOutputSpectralKernel.variance self !! j) as [vj|];
      cbn [of_option mbind result_bind fmap result_fmap]; try reflexivity.
    destruct (MultiOutputSpectralKernel.mean self !! i) as [mi|],
      (MultiOutputSpectralKernel.mean self !! j) as [mj|];
      cbn [of_option mbind result_bind fmap result_fmap]; try reflexivity.
    destruct (MultiOutputSpectralKernel.magnitude self !! i) as [ai|],
      (MultiOutputSpectralKernel.magnitude self !! j) as [aj|];
      cbn [of_option mbind result_bind fmap result_fmap]; try reflexivity.
    destruct (MultiOutputSpectralKernel.delay self) as [delays|];
      cbn [of_option mbind result_bind fmap result_fmap]; try reflexivity.
    destruct (delays !! i) as [di|], (delays !! j) as [dj|];
      cbn [of_option mbind result_bind fmap result_fmap]; try reflexivity.
    destruct (MultiOutputSpectralKernel.phase self) as [phases|];
      cbn [of_option mbind result_bind fmap result_fmap]; try reflexivity.
    destruct (phases !! i) as [pi|], (phases !! j) as [pj|];
      cbn [of_option mbind result_bind fmap result_fmap]; try reflexivity.
    f_equal. rewrite !mat_map_pairwise, transpose_pairwise. apply pairwise_ext.
    intros x2 x1.
    rewrite (vsub_swap x1 x2), (vsub_swap di dj), vadd_opp, vsquare_opp, dot_opp_l.
    rewrite (cross_variance_sym vj vi), (vadd_comm vj vi).
    rewrite (vsub_swap mi mj), dot_opp_both.
    rewrite (vadd_comm (vmul vj mi) (vmul vi mj)).
    rewrite (Rmult_comm aj ai). f_equal.
    apply cos_opp_arg. lra.
Qed.

Lemma dot_comm (a : list R) : ∀ b, dot a b = dot b a.
Proof. intros b. unfold dot. by rewrite vmul_comm. Qed.

(** Entry (i, j) of the product of the lower triangle with its
    transpose is the dot product of rows i and j of the triangle. *)
Lemma magnitude_product_lookup (self : UncoupledMultiOutputSpectralKernel.t) (i j : nat) :
  UncoupledMultiOutputSpectralKernel.magnitude_product self !! i ≫= (.!! j)
  = (let L := UncoupledMultiOutputSpectralKernel.tril
                (UncoupledMultiOutputSpectralKernel.magnitude self) in
     a ← L !! i ; b ← L !! j ; Some (dot a b)).
Proof.
  unfold UncoupledMultiOutputSpectralKernel.magnitude_product. cbv zeta.
  rewrite list_lookup_fmap.
  destruct (_ !! i) as [a|]; [|done]. cbn. rewrite list_lookup_fmap.
  by destruct (_ !! j).
Qed.

Lemma at_pair_sym (self : UncoupledMultiOutputSpectralKernel.t) (i j : nat) :
  UncoupledMultiOutputSpectralKernel.at_pair
    (UncoupledMultiOutputSpectralKernel.magnitude_product self) i j
  = UncoupledMultiOutputSpectralKernel.at_pair
      (UncoupledMultiOutputSpectralKernel.magnitude_product self) j i.
Proof.
  unfold UncoupledMultiOutputSpectralKernel.at_pair. rewrite !magnitude_product_lookup.
  cbv zeta. destruct (_ !! i) as [a|], (_ !! j) as [b|]; cbn; try done.
  by rewrite dot_comm.
Qed.

Lemma umosm_symmetric (self : UncoupledMultiOutputSpectralKernel.t) (i j : nat)
    (X1 X2 : matrix R) :
  mat_transpose <$> UncoupledMultiOutputSpectralKernel.Ksub self i j X1 (Some X2)
  = UncoupledMultiOutputSpectralKernel.Ksub self j i X2 (Some X1).
Proof.
  unfold UncoupledMultiOutputSpectralKernel.Ksub.
  destruct (active_input_swap (UncoupledMultiOutputSpectralKernel.active_dims self) X1 X2)
    as [(S1 & S2 & -> & -> & _) | [-> ->]]; [|done].
  cbn [mbind result_bind fst snd]. unfold Kernel.distance, Kernel.second, at_channel, attribute.
  destruct (decide (i = j)) as [->|Hne].
  - rewrite decide_True by done.
    unfold UncoupledMultiOutputSpectralKernel.at_pair. repeat lookup_step. f_equal.
    rewrite !mat_map_pairwise, transpose_pairwise. apply pairwise_ext. intros x2 x1.
    rewrite (vsub_swap x1 x2), vsquare_opp, dot_opp_l. f_equal.
    apply cos_opp_arg. lra.
  - rewrite decide_False by congruence. rewrite (at_pair_sym self j i).
    destruct (UncoupledMultiOutputSpectralKernel.variance self !! i) as [vi|],
      (UncoupledMultiOutputSpectralKernel.variance self !! j) as [vj|];
      cbn [of_option mbind result_bind fmap result_fmap]; try reflexivity.
    destruct (UncoupledMultiOutputSpectralKernel.mean self !! i) as [mi|],
      (UncoupledMultiOutputSpectralKernel.mean self !! j) as [mj|];
      cbn [of_option mbind result_bind fmap result_fmap]; try reflexivity.
    destruct (UncoupledMultiOutputSpectralKernel.at_pair _ i j) as [aij|];
      cbn [of_option mbind result_bind fmap result_fmap]; try reflexivity.
    destruct (UncoupledMultiOutputSpectralKernel.delay self) as [delays|];
      cbn [of_option mbind result_bind fmap result_fmap]; try reflexivity.
    destruct (delays !! i) as [di|], (delays !! j) as [dj|];
      cbn [of_option mbind result_bind fmap result_fmap]; try reflexivity.
    destruct (UncoupledMultiOutputSpectralKernel.phase self) as [phases|];
      cbn [of_option mbind result_bind fmap result_fmap]; try reflexivity.
    destruct (phases !! i) as [pi|], (phases !! j) as [pj|];
      cbn [of_option mbind result_bind fmap result_fmap]; try reflexivity.
    f_equal. rewrite !mat_map_pairwise, transpose_pairwise. apply pairwise_ext.
    intros x2 x1.
    rewrite (vsub_swap x1 x2), (vsub_swap di dj), vadd_opp, vsquare_opp, dot_opp_l.
    rewrite (cross_variance_sym vj vi), (vadd_comm vj vi).
    rewrite (vsub_swap mi mj), dot_opp_both.
    rewrite (vadd_comm (vmul vj mi) (vmul vi mj)). f_equal.
    apply cos_opp_arg. lra.
Qed.

Lemma csm_symmetric (self : CrossSpectralKernel.t) (i j : nat) (X1 X2 : matrix R) :
  mat_transpose <$> CrossSpectralKernel.Ksub self i j X1 (Some X2)
  = CrossSpectralKernel.Ksub self j i X2 (Some X1).
Proof.
  unfold CrossSpectralKernel.Ksub.
  destruct (active_input_swap (CrossSpectralKernel.active_dims self) X1 X2)
    as [(S1 & S2 & -> & -> & _) | [-> ->]]; [|done].
  cbn [mbind result_bind fst snd]. unfold Kernel.distance, Kernel.second, at_channel.
  destruct (decide (i = j)) as [->|Hne].
  - rewrite decide_True by done. repeat lookup_step. f_equal.
    rewrite !mat_map_pairwise, transpose_pairwise. apply pairwise_ext. intros x2 x1.
    cbv zeta. rewrite (vsub_swap x1 x2), vsquare_opp, dot_opp_l. f_equal.
    apply list_fmap_ext. intros _ a _. f_equal. apply cos_opp_arg. lra.
  - rewrite decide_False by congruence.
    destruct (CrossSpectralKernel.shift self !! i) as [si|],
      (CrossSpectralKernel.shift self !! j) as [sj|];
      cbn [of_option mbind result_bind fmap result_fmap]; try reflexivity.
    destruct (CrossSpectralKernel.amplitude self !! i) as [ai|],
      (CrossSpectralKernel.amplitude self !! j) as [aj|];
      cbn [of_option mbind result_bind fmap result_fmap]; try reflexivity.
    f_equal. rewrite !mat_map_pairwise, transpose_pairwise. apply pairwise_ext.
    intros x2 x1. cbv zeta.
    rewrite (vsub_swap x1 x2), vsquare_opp, dot_opp_l, (vsub_swap si sj), (vmul_comm aj ai).
    f_equal. rewrite zip_with_fmap_r. apply zip_with_ext; [|done..].
    intros a s. f_equal. apply cos_opp_arg. lra.
Qed.

Lemma conv_symmetric (self : GaussianConvolutionProcessKernel.t) (i j : nat)
    (X1 X2 : matrix R) :
  mat_transpose <$> GaussianConvolutionProcessKernel.Ksub self i j X1 (Some X2)
  = GaussianConvolutionProcessKernel.Ksub self j i X2 (Some X1).
Proof.
  unfold GaussianConvolutionProcessKernel.Ksub.
  destruct (active_input_swap (GaussianConvolutionProcessKernel.active_dims self) X1 X2)
    as [(S1 & S2 & -> & -> & _) | [-> ->]]; [|done].
  cbn [mbind result_bind fst snd].
  unfold Kernel.squared_distance, Kernel.second, at_channel.
  destruct (GaussianConvolutionProcessKernel.variance self !! i) as [vi|],
    (GaussianConvolutionProcessKernel.variance self !! j) as [vj|];
    cbn [of_option mbind result_bind fmap result_fmap]; try reflexivity.
  destruct (GaussianConvolutionProcessKernel.weight self !! i) as [wi|],
    (GaussianConvolutionProcessKernel.weight self !! j) as [wj|];
    cbn [of_option mbind result_bind fmap result_fmap]; try reflexivity.
  f_equal. rewrite !mat_map_pairwise, transpose_pairwise. apply pairwise_ext.
  intros x2 x1. rewrite (vsub_swap x1 x2), vsquare_opp, (vadd_comm vj vi). lra.
Qed.

Lemma mohsm_symmetric (self : MultiOutputHarmonizableSpectralKernel.t) (i j : nat)
    (X1 X2 : matrix R) :
  mat_transpose <$> MultiOutputHarmonizableSpectralKernel.Ksub self i j X1 (Some X2)
  = MultiOutputHarmonizableSpectralKernel.Ksub self j i X2 (Some X1).
Proof.
  unfold MultiOutputHarmonizableSpectralKernel.Ksub.
  destruct (active_input_swap (MultiOutputHarmonizableSpectralKernel.active_dims self) X1 X2)
    as [(S1 & S2 & -> & -> & _) | [-> ->]]; [|done].
  cbn [mbind result_bind fst snd].
  unfold Kernel.distance, Kernel.average, Kernel.second, at_channel, attribute.
  destruct (decide (i = j)) as [->|Hne].
  - rewrite decide_True by done. repeat lookup_step. f_equal.
    rewrite !mat_zip_with_pairwise, transpose_pairwise. apply pairwise_ext. intros x2 x1.
    cbv zeta. rewrite (vsub_swap x1 x2), vsquare_opp, dot_opp_l, (vadd_comm x2 x1).
    f_equal. f_equal. apply cos_opp_arg. lra.
  - rewrite decide_False by congruence.
    destruct (MultiOutputHarmonizableSpectralKernel.lengthscale self !! i) as [li|],
      (MultiOutputHarmonizableSpectralKernel.lengthscale self !! j) as [lj|];
      cbn [of_option mbind result_bind fmap result_fmap]; try reflexivity.
    destruct (MultiOutputHarmonizableSpectralKernel.variance self !! i) as [vi|],
      (MultiOutputHarmonizableSpectralKernel.variance self !! j) as [vj|];
      cbn [of_option mbind result_bind fmap result_fmap]; try reflexivity.
    destruct (MultiOutputHarmonizableSpectralKernel.mean self !! i) as [mi|],
      (MultiOutputHarmonizableSpectralKernel.mean self !! j) as [mj|];
      cbn [of_option mbind result_bind fmap result_fmap]; try reflexivity.
    destruct (MultiOutputHarmonizableSpectralKernel.magnitude self !! i) as [ai|],
      (MultiOutputHarmonizableSpectralKernel.magnitude self !! j) as [aj|];
      cbn [of_option mbind result_bind fmap result_fmap]; try reflexivity.
    destruct (MultiOutputHarmonizableSpectralKernel.delay self) as [delays|];
      cbn [of_option mbind result_bind fmap result_fmap]; try reflexivity.
    destruct (delays !! i) as [di|], (delays !! j) as [dj|];
      cbn [of_option mbind result_bind fmap result_fmap]; try reflexivity.
    destruct (MultiOutputHarmonizableSpectralKernel.phase self) as [phases|];
      cbn [of_option mbind result_bind fmap result_fmap]; try reflexivity.
    destruct (phases !! i) as [pi|], (phases !! j) as [pj|];
      cbn [of_option mbind result_bind fmap result_fmap]; try reflexivity.
    f_equal. rewrite !mat_zip_with_pairwise, transpose_pairwise. apply pairwise_ext.
    intros x2 x1. cbv zeta.
    replace (2 * (lj * lj) * (1 / (lj * lj + li * li)) * (li * li))
      with (2 * (li * li) * (1 / (li * li + lj * lj)) * (lj * lj))
      by (rewrite (Rplus_comm (lj * lj)); lra).
    rewrite (vsub_swap x1 x2), (vsub_swap di dj), vadd_opp, vsquare_opp, dot_opp_l.
    rewrite (cross_variance_sym vj vi), (vadd_comm vj vi).
    rewrite (vsub_swap mi mj), dot_opp_both.
    rewrite (vadd_comm (vmul vj mi) (vmul vi mj)), (vadd_comm x2 x1).
    rewrite (Rmult_comm aj ai). f_equal. f_equal.
    apply cos_opp_arg. lra.
Qed.

Lemma transpose_zeros (n m : nat) :
  mat_transpose (Mat m (replicate n (replicate m 0))) = Mat n (replicate m (replicate n 0)).
Proof.
  unfold mat_transpose, nrows. cbn. rewrite length_replicate. f_equal.
  apply list_eq. intros q. rewrite list_lookup_fmap.
  destruct (decide (q < m)%nat) as [Hq|Hq].
  - rewrite lookup_seq_lt, lookup_replicate_2 by done. cbn. f_equal.
    rewrite fmap_replicate. f_equal. rewrite nth_lookup, lookup_replicate_2; done.
  - rewrite lookup_seq_ge by lia. symmetry. apply lookup_replicate_None. lia.
Qed.

Lemma imo_symmetric (self : IndependentMultiOutputKernel.t) (i j : nat) (X1 X2 : matrix R) :
  Forall Kernel.contract (IndependentMultiOutputKernel.kernels self) →
  mat_transpose <$> IndependentMultiOutputKernel.Ksub self i j X1 (Some X2)
  = IndependentMultiOutputKernel.Ksub self j i X2 (Some X1).
Proof.
  intros Hks. unfold IndependentMultiOutputKernel.Ksub. cbn [Kernel._active_input].
  cbn [mbind result_bind fst snd]. unfold at_channel.
  destruct (decide (i = j)) as [->|Hne].
  - rewrite decide_True by done.
    destruct (IndependentMultiOutputKernel.kernels self !! j) as [k|] eqn:Hk;
      cbn [of_option mbind result_bind fmap result_fmap]; [|done].
    apply Kernel.K_symmetric. rewrite Forall_lookup in Hks. by eapply Hks.
  - rewrite decide_False by congruence. cbn. f_equal. apply transpose_zeros.
Qed.

Lemma table_lookup (n m : nat) (f : nat → nat → R) (a b : nat) :
  (a < n)%nat → (b < m)%nat → nth b (nth a (table n m f) []) 0 = f a b.
Proof.
  intros Ha Hb. unfold table.
  rewrite (nth_lookup _ a), list_lookup_fmap, lookup_seq_lt by done. cbn.
  by rewrite nth_lookup, list_lookup_fmap, lookup_seq_lt.
Qed.

Lemma table_ext (n m : nat) (f g : nat → nat → R) :
  (∀ a b, (a < n)%nat → (b < m)%nat → f a b = g a b) → table n m f = table n m g.
Proof.
  intros Hfg. unfold table. apply list_fmap_ext. intros ia a [-> Ha]%lookup_seq.
  apply list_fmap_ext. intros ib b [-> Hb]%lookup_seq. apply Hfg; lia.
Qed.

Lemma transpose_table (n m : nat) (f : nat → nat → R) :
  mat_transpose (Mat m (table n m f)) = Mat n (table m n (λ b a, f a b)).
Proof.
  unfold mat_transpose, nrows. cbn [rows ncols]. unfold table.
  rewrite length_fmap, length_seq. f_equal. apply list_fmap_ext.
  intros ib b [-> Hb]%lookup_seq.
  rewrite <- list_fmap_compose. apply list_fmap_ext. intros ia a [-> Ha]%lookup_seq. cbn.
  by rewrite nth_lookup, list_lookup_fmap, lookup_seq_lt by lia.
Qed.

Lemma entry_transpose (K : matrix R) (n m : nat) :
  (m < ncols K)%nat → entry (mat_transpose K) m n = entry K n m.
Proof.
  intros Hm. unfold entry, mat_transpose. cbn [rows].
  rewrite (nth_lookup _ m), list_lookup_fmap, lookup_seq_lt by done. cbn.
  rewrite nth_lookup, list_lookup_fmap, (nth_lookup _ n).
  destruct (rows K !! n) as [row|]; cbn; [done|]. by destruct m.
Qed.

Lemma collect_transpose (ks : list Kernel.t) (X1 X2 : matrix R) :
  Forall Kernel.contract ks →
  collect (λ k, Kernel.K k X2 (Some X1)) ks
  = (λ Ks : list (matrix R), mat_transpose <$> Ks)
      <$> collect (λ k, Kernel.K k X1 (Some X2)) ks.
Proof.
  induction 1 as [|k ks Hk _ IH]; [done|]. cbn [collect].
  rewrite <- (Kernel.K_symmetric k Hk X1 X2), IH.
  destruct (Kernel.K k X1 (Some X2)); [|done]. cbn.
  by destruct (collect (λ k0, Kernel.K k0 X1 (Some X2)) ks).
Qed.

Lemma collect_shape (ks : list Kernel.t) (X1 X2 : matrix R) (Ks : list (matrix R)) :
  Forall Kernel.contract ks →
  collect (λ k, Kernel.K k X1 (Some X2)) ks = Ok Ks →
  Forall (λ G, nrows G = nrows X1 ∧ ncols G = nrows X2) Ks.
Proof.
  intros Hks. revert Ks. induction Hks as [|k ks Hk _ IH]; intros Ks.
  - intros [= <-]. constructor.
  - cbn [collect]. destruct (Kernel.K k X1 (Some X2)) as [G|] eqn:HG; [|done].
    cbn [mbind result_bind]. destruct (collect _ ks) as [Gs|]; [|done].
    intros [= <-]. constructor; [|by apply IH].
    by destruct (Kernel.K_shape k Hk X1 X2 G HG) as (? & ? & _).
Qed.

Lemma zip_with_comm {B C : Type} (f : B → B → C) (a b : list B) :
  (∀ x y, f x y = f y x) → zip_with f a b = zip_with f b a.
Proof.
  intros Hf. revert b. induction a as [|x a IH]; intros [|y b]; cbn; [done..|].
  by rewrite Hf, IH.
Qed.

Lemma lmc_symmetric (self : LinearModelOfCoregionalizationKernel.t) (i j : nat)
    (X1 X2 : matrix R) :
  Forall Kernel.contract (LinearModelOfCoregionalizationKernel.kernels self) →
  mat_transpose <$> LinearModelOfCoregionalizationKernel.Ksub self i j X1 (Some X2)
  = LinearModelOfCoregionalizationKernel.Ksub self j i X2 (Some X1).
Proof.
  intros Hks. unfold LinearModelOfCoregionalizationKernel.Ksub. cbn [Kernel._active_input].
  cbn [mbind result_bind fst snd]. unfold at_channel.
  destruct (LinearModelOfCoregionalizationKernel.weight self !! i) as [wi|],
    (LinearModelOfCoregionalizationKernel.weight self !! j) as [wj|];
    cbn [of_option mbind result_bind fmap result_fmap]; try reflexivity.
  rewrite (collect_transpose _ X1 X2 Hks).
  rewrite (zip_with_comm _ wj wi) by (intros a b; by rewrite vmul_comm).
  destruct (collect _ _) as [Ks|] eqn:HKs; cbn [fmap result_fmap mbind result_bind]; [|done].
  apply collect_shape in HKs; [|done].
  destruct Ks as [|K0 Ks]; [done|].
  cbn [fmap list_fmap LinearModelOfCoregionalizationKernel.stack_dot result_fmap].
  f_equal. rewrite transpose_table.
  apply Forall_cons in HKs as Hshape. destruct Hshape as [[Hn0 Hm0] _].
  assert (nrows (mat_transpose K0) = ncols K0) as ->.
  { unfold nrows, mat_transpose. cbn. by rewrite length_fmap, length_seq. }
  cbn [ncols mat_transpose]. f_equal. apply table_ext. intros m n Hm Hn. f_equal.
  rewrite <- list_fmap_compose. cbn [fmap list_fmap]. f_equal.
  - symmetry. by apply entry_transpose.
  - apply list_fmap_ext. intros iq Kq HKq. cbn. symmetry. apply entry_transpose.
    apply Forall_cons in HKs as [_ HKs]. rewrite Forall_lookup in HKs.
    destruct (HKs _ _ HKq) as [_ ->]. by rewrite <- Hm0.
Qed.
End symmetry.

Lemma constant_kernel_contract (c : R) : Kernel.contract (constant_kernel c).
Proof.
  split.
  - intros X1 X2 G [= <-]. unfold nrows, wf_matrix, pairwise. cbn.
    rewrite length_fmap. split_and!; [done..|].
    apply Forall_fmap, Forall_forall. intros x _. cbn. by rewrite length_fmap.
  - intros X1 X2. cbn. f_equal. apply transpose_pairwise.
  - intros X1 G [= <-]. cbn. f_equal. symmetry. apply diag_pairwise.
Qed.

(** C3. For every concrete multi-output kernel built from single-output
    kernels that keep their contract, every pair of channels and every pair
    of point sets, the transpose of [Ksub(i, j, X1, X2)] is
    [Ksub(j, i, X2, X1)]; when one of the two calls raises, so does the
    other. *)
Theorem Ksub_symmetric (k : mokernel) (i j : nat) (X1 X2 : matrix R) :
  Forall Kernel.contract (subkernels k) →
  mat_transpose <$> Ksub k i j X1 (Some X2) = Ksub k j i X2 (Some X1).
Proof.
  intros Hks. destruct k as [k|k|k|k|k|k|k]; cbn [Ksub subkernels] in *.
  - by apply imo_symmetric.
  - apply mosm_symmetric.
  - apply umosm_symmetric.
  - apply csm_symmetric.
  - by apply lmc_symmetric.
  - apply conv_symmetric.
  - apply mohsm_symmetric.
Qed.

(** An instance of [Ksub_symmetric]: two independent constant kernels. *)
Lemma Ksub_symmetric_witness :
  let k := IMO (IndependentMultiOutputKernel.Make [constant_kernel 1; constant_kernel 2]) in
  let X1 := Mat 1 [[0%R]; [1%R]] in
  let X2 := Mat 1 [[2%R]] in
  mat_transpose <$> Ksub k 1 1 X1 (Some X2) = Ksub k 1 1 X2 (Some X1)
  ∧ Ksub k 1 1 X2 (Some X1) = Ok (Mat 2 [[2%R; 2%R]])
  ∧ mat_transpose <$> Ksub k 0 1 X1 (Some X2) = Ksub k 1 0 X2 (Some X1).
Proof.
  intros k X1 X2.
  assert (Forall Kernel.contract (subkernels k)) as Hks.
  { repeat (apply Forall_cons_2; [apply constant_kernel_contract|]). apply Forall_nil_2. }
  split_and!.
  - exact (Ksub_symmetric k 1 1 X1 X2 Hks).
  - reflexivity.
  - exact (Ksub_symmetric k 0 1 X1 X2 Hks).
Defined.

(** ** The diagonal of the same-channel block *)

Section diagonal.
Local Open Scope R_scope.

Lemma fmap_const_replicate {B C : Type} (c : C) (l : list B) :
  (λ _, c) <$> l = replicate (length l) c.
Proof. induction l as [|x l IH]; cbn; [done|]. by rewrite IH. Qed.

Lemma fmap_const_ext {B C : Type} (f : B → C) (c : C) (l : list B) :
  (∀ x, f x = c) → f <$> l = replicate (length l) c.
Proof.
  intros Hf. rewrite <- fmap_const_replicate. apply list_fmap_ext. intros _ x _. apply Hf.
Qed.

(** At distance zero the exponential and the cosine are one. *)
Lemma exp_at_zero (x : list R) (v : list R) :
  Rtrigo_def.exp (- (1 / 2) * dot (vsquare (vsub x x)) v) = 1.
Proof. rewrite vsub_self, vsquare_zero, dot_zero_l, Rmult_0_r. apply exp_0. Qed.

Lemma cos_at_zero (x : list R) (m : list R) : cos (2 * PI * dot (vsub x x) m) = 1.
Proof. rewrite vsub_self, dot_zero_l, Rmult_0_r. apply cos_0. Qed.

Lemma length_mat_diag (G : matrix R) : length (mat_diag G) = nrows G.
Proof. unfold mat_diag. apply length_imap. Qed.

Lemma mosm_diagonal (self : MultiOutputSpectralKernel.t) (i : nat) (X1 G : matrix R) :
  MultiOutputSpectralKernel.Ksub self i i X1 (Some X1) = Ok G →
  MultiOutputSpectralKernel.Ksub_diag self i X1 = Ok (mat_diag G)
  ∧ length (mat_diag G) = nrows X1.
Proof.
  unfold MultiOutputSpectralKernel.Ksub, MultiOutputSpectralKernel.Ksub_diag.
  destruct (active_input_swap (MultiOutputSpectralKernel.active_dims self) X1 X1)
    as [(S1 & S2 & H1 & H2 & _ & Hn & _) | [-> _]]; [|done].
  rewrite H1 in H2. injection H2 as <-. rewrite H1.
  cbn [mbind result_bind fst snd]. unfold Kernel.distance, Kernel.second, at_channel.
  rewrite decide_True by done.
  repeat (lookup_step; try done). intros [= <-].
  rewrite mat_map_pairwise, length_mat_diag, diag_pairwise.
  split; [|unfold nrows, pairwise in *; cbn; by rewrite length_fmap].
  f_equal. rewrite <- Hn. symmetry. apply fmap_const_ext. intros x.
  rewrite exp_at_zero, cos_at_zero. lra.
Qed.

Lemma umosm_diagonal (self : UncoupledMultiOutputSpectralKernel.t) (i : nat)
    (X1 G : matrix R) :
  UncoupledMultiOutputSpectralKernel.Ksub self i i X1 (Some X1) = Ok G →
  UncoupledMultiOutputSpectralKernel.Ksub_diag self i X1 = Ok (mat_diag G)
  ∧ length (mat_diag G) = nrows X1.
Proof.
  unfold UncoupledMultiOutputSpectralKernel.Ksub, UncoupledMultiOutputSpectralKernel.Ksub_diag.
  destruct (active_input_swap (UncoupledMultiOutputSpectralKernel.active_dims self) X1 X1)
    as [(S1 & S2 & H1 & H2 & _ & Hn & _) | [-> _]]; [|done].
  rewrite H1 in H2. injection H2 as <-. rewrite H1.
  cbn [mbind result_bind fst snd].
  unfold Kernel.distance, Kernel.second, at_channel,
    UncoupledMultiOutputSpectralKernel.at_pair.
  rewrite decide_True by done.
  repeat (lookup_step; try done). intros [= <-].
  rewrite mat_map_pairwise, length_mat_diag, diag_pairwise.
  split; [|unfold nrows, pairwise in *; cbn; by rewrite length_fmap].
  f_equal. rewrite <- Hn. symmetry. apply fmap_const_ext. intros x.
  rewrite exp_at_zero, cos_at_zero. lra.
Qed.

Lemma csm_diagonal (self : CrossSpectralKernel.t) (i : nat) (X1 G : matrix R) :
  CrossSpectralKernel.Ksub self i i X1 (Some X1) = Ok G →
  CrossSpectralKernel.Ksub_diag self i X1 = Ok (mat_diag G)
  ∧ length (mat_diag G) = nrows X1.
Proof.
  unfold CrossSpectralKernel.Ksub, CrossSpectralKernel.Ksub_diag.
  destruct (active_input_swap (CrossSpectralKernel.active_dims self) X1 X1)
    as [(S1 & S2 & H1 & H2 & _ & Hn & _) | [-> _]]; [|done].
  rewrite H1 in H2. injection H2 as <-. rewrite H1.
  cbn [mbind result_bind fst snd]. unfold Kernel.distance, Kernel.second, at_channel.
  rewrite decide_True by done.
  repeat (lookup_step; try done). intros [= <-].
  rewrite mat_map_pairwise, length_mat_diag, diag_pairwise.
  split; [|unfold nrows, pairwise in *; cbn; by rewrite length_fmap].
  f_equal. rewrite <- Hn. symmetry. apply fmap_const_ext. intros x. cbv zeta.
  rewrite exp_at_zero, cos_at_zero. f_equal.
  rewrite <- (list_fmap_id v) at 2. apply list_fmap_ext. intros _ a _. cbn. lra.
Qed.

Lemma conv_diagonal (self : GaussianConvolutionProcessKernel.t) (i : nat)
    (X1 G : matrix R) :
  GaussianConvolutionProcessKernel.Ksub self i i X1 (Some X1) = Ok G →
  GaussianConvolutionProcessKernel.Ksub_diag self i X1 = Ok (mat_diag G)
  ∧ length (mat_diag G) = nrows X1.
Proof.
  unfold GaussianConvolutionProcessKernel.Ksub, GaussianConvolutionProcessKernel.Ksub_diag.
  destruct (active_input_swap (GaussianConvolutionProcessKernel.active_dims self) X1 X1)
    as [(S1 & S2 & H1 & H2 & _ & Hn & _) | [-> _]]; [|done].
  rewrite H1 in H2. injection H2 as <-. rewrite H1.
  cbn [mbind result_bind fst snd].
  unfold Kernel.squared_distance, Kernel.second, at_channel.
  destruct (GaussianConvolutionProcessKernel.variance self !! i) as [vi|];
    cbn [of_option mbind result_bind]; [|done].
  destruct (GaussianConvolutionProcessKernel.weight self !! i) as [wi|];
    cbn [of_option mbind result_bind]; [|done].
  intros [= <-].
  rewrite mat_map_pairwise, length_mat_diag, diag_pairwise.
  split; [|unfold nrows, pairwise in *; cbn; by rewrite length_fmap].
  f_equal. rewrite <- Hn. symmetry. apply fmap_const_ext. intros x.
  rewrite vsub_self, vsquare_zero, dot_zero_l, Rmult_0_r, exp_0, vadd_self. lra.
Qed.

Lemma mohsm_diagonal (self : MultiOutputHarmonizableSpectralKernel.t) (i : nat)
    (X1 G : matrix R) :
  MultiOutputHarmonizableSpectralKernel.Ksub self i i X1 (Some X1) = Ok G →
  MultiOutputHarmonizableSpectralKernel.Ksub_diag self i X1 = Ok (mat_diag G)
  ∧ length (mat_diag G) = nrows X1.
Proof.
  unfold MultiOutputHarmonizableSpectralKernel.Ksub,
    MultiOutputHarmonizableSpectralKernel.Ksub_diag.
  destruct (active_input_swap (MultiOutputHarmonizableSpectralKernel.active_dims self) X1 X1)
    as [(S1 & S2 & H1 & H2 & H3 & Hn & _) | [-> _]]; [|done].
  rewrite H1 in H2. injection H2 as <-. rewrite H1, H3.
  cbn [mbind result_bind fst snd].
  unfold Kernel.distance, Kernel.average, Kernel.second, at_channel.
  rewrite decide_True by done.
  repeat (lookup_step; try done). intros [= <-].
  rewrite mat_zip_with_pairwise, length_mat_diag, diag_pairwise.
  split; [|unfold nrows, pairwise in *; cbn; by rewrite length_fmap].
  f_equal. apply list_fmap_ext. intros _ x _. cbv zeta.
  rewrite exp_at_zero, cos_at_zero, average_self. lra.
Qed.

Lemma imo_diagonal (self : IndependentMultiOutputKernel.t) (i : nat) (X1 G : matrix R) :
  Forall Kernel.contract (IndependentMultiOutputKernel.kernels self) →
  IndependentMultiOutputKernel.Ksub self i i X1 (Some X1) = Ok G →
  IndependentMultiOutputKernel.Ksub_diag self i X1 = Ok (mat_diag G)
  ∧ length (mat_diag G) = nrows X1.
Proof.
  intros Hks. unfold IndependentMultiOutputKernel.Ksub, IndependentMultiOutputKernel.Ksub_diag.
  cbn [Kernel._active_input mbind result_bind fst snd]. unfold at_channel.
  rewrite decide_True by done.
  destruct (IndependentMultiOutputKernel.kernels self !! i) as [k|] eqn:Hk;
    cbn [of_option mbind result_bind]; [|done].
  rewrite Forall_lookup in Hks. pose proof (Hks _ _ Hk) as Hc. intros HG. split.
  - by apply Kernel.K_diagonal.
  - rewrite length_mat_diag. by destruct (Kernel.K_shape k Hc X1 X1 G HG) as (? & _).
Qed.

Lemma vmul_self (a : list R) : vmul a a = vsquare a.
Proof. unfold vmul, vsquare. induction a as [|x a IH]; cbn; [done|]. by rewrite IH. Qed.

Lemma nth_mat_diag (K : matrix R) (n : nat) : nth n (mat_diag K) 0 = entry K n n.
Proof.
  unfold mat_diag, entry. rewrite nth_lookup, list_lookup_imap, (nth_lookup (rows K)).
  destruct (rows K !! n) as [row|]; cbn; [done|]. by destruct n.
Qed.

Lemma diag_table (n : nat) (f : nat → nat → R) :
  mat_diag (Mat n (table n n f)) = (λ a, f a a) <$> seq 0 n.
Proof.
  unfold mat_diag, table. cbn [rows]. apply list_eq. intros p.
  rewrite list_lookup_imap, !list_lookup_fmap.
  destruct (seq 0 n !! p) as [a|] eqn:Hp; [|done]. cbn.
  apply lookup_seq in Hp as [-> Hp]. cbn.
  by rewrite nth_lookup, list_lookup_fmap, lookup_seq_lt.
Qed.

Lemma collect_diag (ks : list Kernel.t) (X1 : matrix R) (Ks : list (matrix R)) :
  Forall Kernel.contract ks →
  collect (λ k, Kernel.K k X1 (Some X1)) ks = Ok Ks →
  collect (λ k, Kernel.K_diag k X1) ks = Ok (mat_diag <$> Ks).
Proof.
  intros Hks. revert Ks. induction Hks as [|k ks Hk _ IH]; intros Ks.
  - by intros [= <-].
  - cbn [collect]. destruct (Kernel.K k X1 (Some X1)) as [G|] eqn:HG; [|done].
    cbn [mbind result_bind].
    destruct (collect (λ k0, Kernel.K k0 X1 (Some X1)) ks) as [Gs|]; [|done].
    intros [= <-]. rewrite (Kernel.K_diagonal k Hk X1 G HG), (IH Gs eq_refl). done.
Qed.

Lemma lmc_diagonal (self : LinearModelOfCoregionalizationKernel.t) (i : nat)
    (X1 G : matrix R) :
  Forall Kernel.contract (LinearModelOfCoregionalizationKernel.kernels self) →
  LinearModelOfCoregionalizationKernel.Ksub self i i X1 (Some X1) = Ok G →
  LinearModelOfCoregionalizationKernel.Ksub_diag self i X1 = Ok (mat_diag G)
  ∧ length (mat_diag G) = nrows X1.
Proof.
  intros Hks.
  unfold LinearModelOfCoregionalizationKernel.Ksub,
    LinearModelOfCoregionalizationKernel.Ksub_diag.
  cbn [Kernel._active_input mbind result_bind fst snd]. unfold at_channel.
  destruct (LinearModelOfCoregionalizationKernel.weight self !! i) as [wi|];
    cbn [of_option mbind result_bind]; [|done].
  destruct (collect (λ kernel, Kernel.K kernel X1 (Some X1)) _) as [Ks|] eqn:HKs;
    cbn [mbind result_bind]; [|done].
  rewrite (collect_diag _ X1 Ks Hks HKs). cbn [mbind result_bind].
  apply collect_shape in HKs; [|done].
  destruct Ks as [|K0 Ks]; [done|]. apply Forall_cons in HKs as Hshape.
  destruct Hshape as [[Hn0 Hm0] _].
  cbn [LinearModelOfCoregionalizationKernel.stack_dot
         LinearModelOfCoregionalizationKernel.stack_dot_diag fmap list_fmap].
  intros [= <-]. rewrite zip_with_diag. rewrite !length_mat_diag.
  rewrite Hm0, Hn0, diag_table. split.
  - f_equal. apply list_fmap_ext. intros ia n _. f_equal.
    + f_equal; [apply nth_mat_diag|]. rewrite <- list_fmap_compose.
      apply list_fmap_ext. intros _ Kq _. apply nth_mat_diag.
    + apply list_fmap_ext. intros _ a _. cbn. by rewrite vmul_self.
  - unfold nrows at 1, table. cbn [rows]. by rewrite length_fmap, length_seq.
Qed.

(** C6. For every concrete multi-output kernel built from single-output
    kernels that keep their contract, every channel and every point set:
    when [Ksub(i, i, X1, X1)] returns a matrix, [Ksub_diag(i, X1)] returns
    its diagonal, a vector with one entry for each point of [X1]. *)
Theorem Ksub_diag_consistent (k : mokernel) (i : nat) (X1 G : matrix R) :
  Forall Kernel.contract (subkernels k) →
  Ksub k i i X1 (Some X1) = Ok G →
  Ksub_diag k i X1 = Ok (mat_diag G) ∧ length (mat_diag G) = nrows X1.
Proof.
  intros Hks. destruct k as [k|k|k|k|k|k|k]; cbn [Ksub Ksub_diag subkernels] in *.
  - by apply imo_diagonal.
  - apply mosm_diagonal.
  - apply umosm_diagonal.
  - apply csm_diagonal.
  - by apply lmc_diagonal.
  - apply conv_diagonal.
  - apply mohsm_diagonal.
Qed.
End diagonal.

(** Instances of [Ksub_diag_consistent]: two independent constant kernels,
    and a spectral kernel with one channel. *)
Lemma Ksub_diag_consistent_witness :
  let X1 := Mat 1 [[0%R]; [1%R]] in
  let imo := IMO (IndependentMultiOutputKernel.Make [constant_kernel 1; constant_kernel 2]) in
  let mosm := MOSM (MultiOutputSpectralKernel.Make 1 1 None [2%R] [[1%R]] [[1%R]] None None) in
  (Ksub imo 1 1 X1 (Some X1) = Ok (Mat 2 [[2; 2]; [2; 2]]%R)
   ∧ Ksub_diag imo 1 X1 = Ok (mat_diag (Mat 2 [[2; 2]; [2; 2]]%R)))
  ∧ ∃ G, Ksub mosm 0 0 X1 (Some X1) = Ok G
       ∧ Ksub_diag mosm 0 X1 = Ok (mat_diag G)
       ∧ length (mat_diag G) = 2.
Proof.
  intros X1 imo mosm. split.
  - split; [reflexivity|].
    apply (Ksub_diag_consistent imo 1 X1).
    + repeat (apply Forall_cons_2; [apply constant_kernel_contract|]). apply Forall_nil_2.
    + reflexivity.
  - eexists. split; [reflexivity|].
    apply (Ksub_diag_consistent mosm 0 X1); [apply Forall_nil_2 | reflexivity].
Defined.

(** ** The harmonizable kernel and the spectral kernel *)

Section harmonizable.
Local Open Scope R_scope.

Lemma mat_zip_with_map_l {B C D E : Type} (h : C → D → E) (g : B → C)
    (T : matrix B) (U : matrix D) :
  mat_zip_with h (mat_map g T) U = mat_zip_with (λ t u, h (g t) u) T U.
Proof.
  unfold mat_zip_with, mat_map. cbn. f_equal.
  revert U. generalize (rows T). intros l U. revert l.
  induction (rows U) as [|u us IH]; intros [|t ts]; cbn; [done..|].
  f_equal; [|apply IH]. clear. revert u. induction t as [|x t IH]; intros [|y u]; cbn; [done..|].
  by f_equal.
Qed.

Lemma mat_zip_with_ext {B C D : Type} (h h' : B → C → D) (T : matrix B) (U : matrix C) :
  (∀ t u, h t u = h' t u) → mat_zip_with h T U = mat_zip_with h' T U.
Proof.
  intros Hh. unfold mat_zip_with. f_equal.
  apply zip_with_ext; [|done..]. intros t u. apply zip_with_ext; [|done..]. apply Hh.
Qed.

Lemma twopi_split (D : nat) :
  Rpower (2 * PI) (INR D) = Rpower (2 * PI) (INR D / 2) * Rpower (2 * PI) (INR D / 2).
Proof. rewrite <- Rpower_plus. f_equal. lra. Qed.

(** C5, as amended. The same-channel block of the harmonizable kernel is
    the same-channel block of the spectral kernel with equal magnitude,
    mean and variance, times the constant
    (2 pi)^(D/2) * sqrt(lengthscale^2)^D, times the envelope
    exp(-1/2 (avg - center)^2 lengthscale^2) in the average position: its
    normalising constant is (2 pi)^D, and the channel's lengthscale enters
    squared. *)
Theorem mohsm_same_channel (self : MultiOutputHarmonizableSpectralKernel.t) (i : nat)
    (X1 : matrix R) (X2 : option (matrix R)) (l : R) :
  MultiOutputHarmonizableSpectralKernel.lengthscale self !! i = Some l →
  MultiOutputHarmonizableSpectralKernel.Ksub self i i X1 X2
  = (K ← MultiOutputSpectralKernel.Ksub
           (MultiOutputHarmonizableSpectralKernel.to_mosm self) i i X1 X2 ;
     X ← Kernel._active_input (MultiOutputHarmonizableSpectralKernel.active_dims self) X1 X2 ;
     let D := MultiOutputHarmonizableSpectralKernel.input_dims self in
     Ok (mat_zip_with (λ k avg,
           k * (Rpower (2 * PI) (INR D / 2) * sqrt (l * l) ^ D)
             * Rtrigo_def.exp
                 (- (1 / 2) * dot (vsquare (vsub avg
                                      (MultiOutputHarmonizableSpectralKernel.center self)))
                                  (MultiOutputHarmonizableSpectralKernel.ones_scaled self
                                     (l * l))))
           K (Kernel.average X.1 X.2))).
Proof.
  intros Hl.
  unfold MultiOutputHarmonizableSpectralKernel.Ksub, MultiOutputSpectralKernel.Ksub.
  cbn [MultiOutputHarmonizableSpectralKernel.to_mosm MultiOutputSpectralKernel.active_dims
         MultiOutputSpectralKernel.variance MultiOutputSpectralKernel.magnitude
         MultiOutputSpectralKernel.mean].
  destruct (Kernel._active_input _ X1 X2) as [[S1 S2]|]; [|done].
  cbn [mbind result_bind fst snd]. rewrite !decide_True by done.
  unfold at_channel. rewrite Hl.
  destruct (MultiOutputHarmonizableSpectralKernel.variance self !! i) as [v|];
    cbn [of_option mbind result_bind]; [|done].
  destruct (MultiOutputHarmonizableSpectralKernel.magnitude self !! i) as [a|];
    cbn [of_option mbind result_bind]; [|done].
  destruct (MultiOutputHarmonizableSpectralKernel.mean self !! i) as [m|];
    cbn [of_option mbind result_bind]; [|done].
  f_equal. rewrite mat_zip_with_map_l. apply mat_zip_with_ext. intros tau avg. cbv zeta.
  unfold MultiOutputHarmonizableSpectralKernel.twopi, MultiOutputSpectralKernel.twopi.
  change (MultiOutputSpectralKernel.input_dims
            (MultiOutputHarmonizableSpectralKernel.to_mosm self))
    with (MultiOutputHarmonizableSpectralKernel.input_dims self).
  rewrite twopi_split.
  generalize (sqrt (l * l) ^ MultiOutputHarmonizableSpectralKernel.input_dims self).
  intros P. ring.
Qed.
End harmonizable.

(** ** Blocks at a single point *)

Lemma single_entry (x y : R) : x = y → Ok (Mat 1 [[x]]) = Ok (Mat 1 [[y]]).
Proof. by intros ->. Qed.

Lemma twopi_pos : (0 < 2 * PI)%R.
Proof. pose proof PI_RGT_0. lra. Qed.

Lemma sqrt_twopi_lt : (sqrt (2 * PI) < 2 * PI)%R.
Proof.
  pose proof PI2_1 as Hpi. apply sqrt_less_alt. lra.
Qed.

(** Evaluates exponentials and cosines whose argument is zero. *)
Ltac at_zero :=
  repeat match goal with
    | |- context [Rtrigo_def.exp ?x] => replace x with 0%R by lra; rewrite exp_0
    | |- context [cos ?x] => replace x with 0%R by lra; rewrite cos_0
    end.

Section harmonizable_example.
Local Open Scope R_scope.

(** C5, as stated, fails: one channel and one input dimension, all of
    magnitude, mean, variance and lengthscale equal to one, the center at
    zero, and the single point 0.  The block is 2 pi; the spectral block
    times the envelope is sqrt(2 pi). *)
Lemma mohsm_same_channel_counterexample :
  let X := Mat 1 [[0]] in
  MultiOutputHarmonizableSpectralKernel.Ksub example_mohsm 0 0 X (Some X)
  = Ok (Mat 1 [[2 * PI]])
  ∧ MultiOutputHarmonizableSpectralKernel.Ksub_same_channel_spec example_mohsm 0 X (Some X)
    = Ok (Mat 1 [[sqrt (2 * PI)]])
  ∧ MultiOutputHarmonizableSpectralKernel.Ksub example_mohsm 0 0 X (Some X)
    ≠ MultiOutputHarmonizableSpectralKernel.Ksub_same_channel_spec example_mohsm 0 X (Some X).
Proof.
  intros X.
  assert (MultiOutputHarmonizableSpectralKernel.Ksub example_mohsm 0 0 X (Some X)
          = Ok (Mat 1 [[2 * PI]])) as Hcode.
  { cbn. rewrite decide_True by done.
    unfold Kernel.distance, Kernel.average, pairwise, mat_zip_with,
      MultiOutputHarmonizableSpectralKernel.twopi.
    cbn. apply single_entry. unfold dot, vsum, vmul, vsquare, vsub, vscale, vadd. cbn.
    at_zero. replace (1 * 1) with 1 by lra.
    rewrite sqrt_1, Rpower_1 by apply twopi_pos. lra. }
  assert (MultiOutputHarmonizableSpectralKernel.Ksub_same_channel_spec example_mohsm 0 X
            (Some X) = Ok (Mat 1 [[sqrt (2 * PI)]])) as Hspec.
  { cbn. rewrite decide_True by done.
    unfold Kernel.distance, Kernel.average, pairwise, mat_zip_with, mat_map,
      MultiOutputSpectralKernel.twopi.
    cbn. apply single_entry. unfold dot, vsum, vmul, vsquare, vsub, vscale, vadd. cbn.
    at_zero. replace (1 * 1) with 1 by lra. rewrite sqrt_1.
    replace (1 / 2) with (/ 2) by lra. rewrite Rpower_sqrt by apply twopi_pos. lra. }
  split_and!; [done | done |]. rewrite Hcode, Hspec. intros [= Heq].
  pose proof sqrt_twopi_lt. lra.
Qed.

(** An instance of [mohsm_same_channel]. *)
Lemma mohsm_same_channel_witness :
  let X := Mat 1 [[0]] in
  MultiOutputHarmonizableSpectralKernel.Ksub example_mohsm 0 0 X (Some X)
  = (K ← MultiOutputSpectralKernel.Ksub
           (MultiOutputHarmonizableSpectralKernel.to_mosm example_mohsm) 0 0 X (Some X) ;
     Ok (mat_zip_with (λ k avg,
           k * (Rpower (2 * PI) (INR 1 / 2) * sqrt (1 * 1) ^ 1)
             * Rtrigo_def.exp (- (1 / 2) * dot (vsquare (vsub avg [0])) [1 * 1 * 1]))
           K (Kernel.average X (Some X)))).
Proof.
  intros X. exact (mohsm_same_channel example_mohsm 0 X (Some X) 1 eq_refl).
Defined.
End harmonizable_example.

(** ** The uncoupled kernel and the spectral kernel *)

(** How the two cross-channel blocks are related: the block of the
    uncoupled kernel is the block of a spectral kernel whose phases are the
    phases of the uncoupled kernel divided by 2 pi (and whose magnitudes
    multiply to the entry of L L^T). *)
Lemma umosm_cross_as_mosm (u : UncoupledMultiOutputSpectralKernel.t)
    (m : MultiOutputSpectralKernel.t) (i j : nat) (X1 : matrix R) (X2 : option (matrix R))
    (mi mj : R) :
  i ≠ j →
  MultiOutputSpectralKernel.input_dims m = UncoupledMultiOutputSpectralKernel.input_dims u →
  MultiOutputSpectralKernel.active_dims m = UncoupledMultiOutputSpectralKernel.active_dims u →
  MultiOutputSpectralKernel.mean m = UncoupledMultiOutputSpectralKernel.mean u →
  MultiOutputSpectralKernel.variance m = UncoupledMultiOutputSpectralKernel.variance u →
  MultiOutputSpectralKernel.delay m = UncoupledMultiOutputSpectralKernel.delay u →
  MultiOutputSpectralKernel.phase m
  = fmap (M:=list) (λ p, p / (2 * PI))%R <$> UncoupledMultiOutputSpectralKernel.phase u →
  MultiOutputSpectralKernel.magnitude m !! i = Some mi →
  MultiOutputSpectralKernel.magnitude m !! j = Some mj →
  UncoupledMultiOutputSpectralKernel.at_pair
    (UncoupledMultiOutputSpectralKernel.magnitude_product u) i j = Ok (mi * mj)%R →
  UncoupledMultiOutputSpectralKernel.Ksub u i j X1 X2
  = MultiOutputSpectralKernel.Ksub m i j X1 X2.
Proof.
  intros Hij HD Hact Hmean Hvar Hdelay Hphase Hmi Hmj Hpair.
  unfold UncoupledMultiOutputSpectralKernel.Ksub, MultiOutputSpectralKernel.Ksub,
    UncoupledMultiOutputSpectralKernel.twopi, MultiOutputSpectralKernel.twopi.
  rewrite HD, Hact, Hmean, Hvar, Hdelay, Hphase.
  destruct (Kernel._active_input _ X1 X2) as [[S1 S2]|]; [|done].
  cbn [mbind result_bind fst snd]. rewrite !decide_False by done.
  destruct (at_channel (UncoupledMultiOutputSpectralKernel.variance u) i) as [vi|]; [|done].
  cbn [mbind result_bind].
  destruct (at_channel (UncoupledMultiOutputSpectralKernel.variance u) j) as [vj|]; [|done].
  cbn [mbind result_bind].
  destruct (at_channel (UncoupledMultiOutputSpectralKernel.mean u) i) as [ui|]; [|done].
  cbn [mbind result_bind].
  destruct (at_channel (UncoupledMultiOutputSpectralKernel.mean u) j) as [uj|]; [|done].
  cbn [mbind result_bind].
  rewrite Hpair. unfold at_channel. rewrite Hmi, Hmj. cbn [of_option mbind result_bind].
  destruct (UncoupledMultiOutputSpectralKernel.delay u) as [delays|]; [|done].
  cbn [attribute of_option mbind result_bind].
  destruct (delays !! i) as [di|]; [|done]. cbn [of_option mbind result_bind].
  destruct (delays !! j) as [dj|]; [|done]. cbn [of_option mbind result_bind].
  destruct (UncoupledMultiOutputSpectralKernel.phase u) as [phases|]; [|done].
  cbn [fmap option_fmap option_map attribute of_option mbind result_bind].
  rewrite !list_lookup_fmap.
  destruct (phases !! i) as [pi|]; [|done].
  cbn [fmap option_fmap option_map of_option mbind result_bind].
  destruct (phases !! j) as [pj|]; [|done].
  cbn [fmap option_fmap option_map of_option mbind result_bind].
  f_equal. unfold mat_map. f_equal. apply map_ext. intros row. apply map_ext. intros tau.
  f_equal. f_equal. pose proof PI_RGT_0. field. lra.
Qed.

Section uncoupled_example.
Local Open Scope R_scope.

(** C4 at a failing input: the cross-channel block between channels 0 and
    1 at the single point 0.  The spectral kernel multiplies the phase
    difference by 2 pi inside the cosine, the uncoupled kernel adds it
    behind the product: with the same mean, variance, delay and phase and
    with the magnitude product replaced by (L L^T)[0,1], the blocks are
    -sqrt(2 pi) and sqrt(2 pi) cos(1/2). *)
Lemma umosm_cross_failing_input :
  let X := Mat 1 [[0]] in
  UncoupledMultiOutputSpectralKernel.at_pair
    (UncoupledMultiOutputSpectralKernel.magnitude_product example_umosm) 0 1 = Ok 1
  ∧ MultiOutputSpectralKernel.Ksub example_mosm 0 1 X (Some X) = Ok (Mat 1 [[- sqrt (2 * PI)]])
  ∧ UncoupledMultiOutputSpectralKernel.Ksub example_umosm 0 1 X (Some X)
    = Ok (Mat 1 [[sqrt (2 * PI) * cos (1 / 2)]])
  ∧ UncoupledMultiOutputSpectralKernel.Ksub example_umosm 0 1 X (Some X)
    ≠ MultiOutputSpectralKernel.Ksub example_mosm 0 1 X (Some X).
Proof.
  intros X.
  assert (MultiOutputSpectralKernel.Ksub example_mosm 0 1 X (Some X)
          = Ok (Mat 1 [[- sqrt (2 * PI)]])) as Hmosm.
  { cbn. rewrite decide_False by done.
    unfold Kernel.distance, pairwise, mat_map, MultiOutputSpectralKernel.twopi.
    cbn. apply single_entry.
    unfold dot, vsum, vmul, vsquare, vsub, vscale, vadd, vinv, vprod. cbn.
    at_zero. replace (2 * PI * ((0 - 0 + (0 - 0)) * (1 / (1 + 1) * (1 * 1 + 1 * 1)) + 0 + (1 / 2 - 0)))
      with PI by lra.
    rewrite cos_PI. replace (2 * 1 * (1 / (1 + 1)) * 1 * 1) with 1 by lra.
    rewrite sqrt_1. replace (1 / 2) with (/ 2) by lra.
    rewrite Rpower_sqrt by apply twopi_pos. lra. }
  assert (UncoupledMultiOutputSpectralKernel.Ksub example_umosm 0 1 X (Some X)
          = Ok (Mat 1 [[sqrt (2 * PI) * cos (1 / 2)]])) as Humosm.
  { cbn. rewrite decide_False by done. rewrite !decide_True by lia.
    rewrite decide_False by lia.
    unfold Kernel.distance, pairwise, mat_map, UncoupledMultiOutputSpectralKernel.twopi.
    cbn. apply single_entry.
    unfold dot, vsum, vmul, vsquare, vsub, vscale, vadd, vinv, vprod. cbn.
    at_zero.
    replace (2 * PI * ((0 - 0 + (0 - 0)) * (1 / (1 + 1) * (1 * 1 + 1 * 1)) + 0) + (1 / 2 - 0))
      with (1 / 2) by lra.
    replace (2 * 1 * (1 / (1 + 1)) * 1 * 1) with 1 by lra.
    rewrite sqrt_1. replace (1 / 2) with (/ 2) at 1 by lra.
    rewrite Rpower_sqrt by apply twopi_pos. lra. }
  split_and!; [| done | done |].
  - cbn. rewrite !decide_True by lia. rewrite decide_False by lia.
    unfold dot, vsum, vmul. cbn. f_equal. lra.
  - rewrite Hmosm, Humosm. intros [= Heq].
    assert (0 < sqrt (2 * PI)) as Hs by (apply sqrt_lt_R0, twopi_pos).
    assert (0 < cos (1 / 2)) as Hc.
    { apply cos_gt_0; pose proof PI2_1; lra. }
    nra.
Qed.
End uncoupled_example.

(** ** The convolution kernel without a second point set

    [GaussianConvolutionProcessKernel.Ksub] takes the same-channel formula
    whenever [X2] is omitted, whatever [j] is.  For two different channels
    the call without [X2] is therefore not the call with [X2 = X1], and the
    two orders of the channels are not transposes of each other.  The
    symmetry above is about two point sets that are both given. *)

Section convolution_example.
Local Open Scope R_scope.

Lemma sqrt_quarter : sqrt (1 / 4) = 1 / 2.
Proof. replace (1 / 4) with ((1 / 2) * (1 / 2)) by lra. apply sqrt_square. lra. Qed.

Remark conv_second_omitted :
  let X := Mat 1 [[0]] in
  GaussianConvolutionProcessKernel.Ksub example_conv 0 1 X None = Ok (Mat 1 [[1]])
  ∧ GaussianConvolutionProcessKernel.Ksub example_conv 1 0 X None = Ok (Mat 1 [[1 / 2]])
  ∧ mat_transpose <$> GaussianConvolutionProcessKernel.Ksub example_conv 0 1 X None
    ≠ GaussianConvolutionProcessKernel.Ksub example_conv 1 0 X None.
Proof.
  intros X.
  assert (GaussianConvolutionProcessKernel.Ksub example_conv 0 1 X None = Ok (Mat 1 [[1]]))
    as H01.
  { cbn. unfold Kernel.squared_distance, pairwise, mat_map. cbn. apply single_entry.
    unfold dot, vsum, vmul, vsquare, vsub, vscale, vadd, vinv, vprod. cbn.
    at_zero. replace (1 * 1 / ((2 * 0 + 1) * 1)) with 1 by lra. rewrite sqrt_1. lra. }
  assert (GaussianConvolutionProcessKernel.Ksub example_conv 1 0 X None = Ok (Mat 1 [[1 / 2]]))
    as H10.
  { cbn. unfold Kernel.squared_distance, pairwise, mat_map. cbn. apply single_entry.
    unfold dot, vsum, vmul, vsquare, vsub, vscale, vadd, vinv, vprod. cbn.
    at_zero. replace (1 * 1 / ((2 * (3 / 2) + 1) * 1)) with (1 / 4) by lra.
    rewrite sqrt_quarter. lra. }
  split_and!; [done | done |]. rewrite H01, H10. cbn. intros [= Heq]. lra.
Qed.
End convolution_example.

(** * Further properties *)

(** ** util.py: stacking and splitting *)

Section util_more.
Context {A : Type}.
Variable zero : A.
Variable of_channel : nat → A.

(** The rows that stacking writes for channel [channel + c]: the channel
    number, then the row of the channel broadcast to [D] columns. *)
Local Abbreviation stacked D channel xs :=
  (concat (imap (λ c x, (λ r, of_channel (channel + c) :: Util.broadcast_row D (ncols x) r)
                          <$> rows x) xs)).

Lemma payload_step_broadcast (D n channel m : nat) (x : matrix A) (pre : list (list A)) :
  ncols x = D ∨ ncols x = 1 → length pre = n →
  Util.assign_payload n (nrows x) x
    (Util.assign_channel of_channel n (nrows x) channel
       (Mat (1 + D) (pre ++ replicate (nrows x + m) (replicate (1 + D) zero))))
  = Ok (Mat (1 + D)
          ((pre ++ ((λ r, of_channel channel :: Util.broadcast_row D (ncols x) r) <$> rows x))
             ++ replicate m (replicate (1 + D) zero))).
Proof.
  intros HD Hn. unfold Util.assign_payload, Util.assign_channel. simpl.
  rewrite Nat.sub_0_r. rewrite decide_True by done.
  rewrite replicate_add.
  rewrite (update_slice_mid n (nrows x)) by (done || by rewrite length_replicate).
  rewrite (update_slice_mid n (nrows x)) by (done || by rewrite length_imap, length_replicate).
  do 2 f_equal. rewrite <- app_assoc. do 2 f_equal.
  apply list_eq. intros q.
  rewrite !list_lookup_imap, list_lookup_fmap.
  destruct (rows x !! q) as [xr|] eqn:Hq.
  - apply lookup_lt_Some in Hq as Hlt.
    rewrite lookup_replicate_2 by done. done.
  - apply lookup_ge_None in Hq.
    rewrite (proj1 (lookup_replicate_None _ _ _)) by (unfold nrows; lia). done.
Qed.

Lemma imap_cons_shift {B C : Type} (g : nat → B → C) (x : B) (l : list B) :
  imap g (x :: l) = g 0 x :: imap (λ c, g (S c)) l.
Proof. done. Qed.

Lemma merge_loop_broadcast (D : nat) (xs : list (matrix A)) :
  ∀ (channel n : nat) (pre : list (list A)),
  Forall (λ x, ncols x = D ∨ ncols x = 1) xs → length pre = n →
  Util.merge_loop of_channel None channel xs
    (n, Mat (1 + D) (pre ++ replicate (sum_list (nrows <$> xs)) (replicate (1 + D) zero)), None)
  = Ok (n + sum_list (nrows <$> xs), Mat (1 + D) (pre ++ stacked D channel xs), None).
Proof.
  induction xs as [|x xs IH]; intros channel n pre Hxs Hn.
  - simpl. rewrite Nat.add_0_r. done.
  - apply Forall_cons in Hxs as [Hx Hxs].
    cbn [Util.merge_loop fmap list_fmap sum_list foldr].
    unfold Util.merge_step. fold (sum_list (nrows <$> xs)).
    rewrite (payload_step_broadcast D n) by done. cbn [mbind result_bind].
    rewrite IH by (done || rewrite length_app, length_fmap; unfold nrows; lia).
    rewrite imap_cons_shift. cbn [concat]. rewrite Nat.add_0_r.
    rewrite <- app_assoc, Nat.add_assoc.
    set (F := λ (k : nat) (y : matrix A),
                (λ r, of_channel k :: Util.broadcast_row D (ncols y) r) <$> rows y).
    assert (imap (λ c, F (channel + S c)) xs = imap (λ c, F (S channel + c)) xs) as Hshift.
    { apply imap_ext. intros c y _. cbn. by rewrite Nat.add_succ_r. }
    unfold F in Hshift. by rewrite Hshift.
Qed.

(** A channel whose width is neither that of the target nor one stops the
    loop with torch's shape error; nothing else can stop it. *)
Lemma merge_loop_width (D : nat) (xs : list (matrix A)) :
  ∀ (channel n : nat) (X : matrix A),
  ncols X = 1 + D →
  match Util.merge_loop of_channel None channel xs (n, X, None) with
  | Ok _ => Forall (λ x, ncols x = D ∨ ncols x = 1) xs
  | Err e => e = RuntimeError ∧ ¬ Forall (λ x, ncols x = D ∨ ncols x = 1) xs
  end.
Proof.
  induction xs as [|x xs IH]; intros channel n X HX; [by constructor|].
  cbn [Util.merge_loop]. unfold Util.merge_step, Util.assign_payload.
  cbn [Util.assign_channel ncols]. rewrite HX.
  replace (1 + D - 1) with D by lia.
  destruct (decide (ncols x = D ∨ ncols x = 1)) as [Hx|Hx]; cbn [mbind result_bind].
  - match goal with |- context [Util.merge_loop _ _ _ _ (?n', ?X', _)] =>
      specialize (IH (S channel) n' X' eq_refl) end.
    destruct (Util.merge_loop _ _ _ _ _) as [st|e].
    + by constructor.
    + destruct IH as [-> IH]. split; [done|]. intros [_ ?]%Forall_cons. done.
  - split; [done|]. intros [? _]%Forall_cons. done.
Qed.

(** X1. Stacking the channels [xs] (all [D] columns wide) with their
    outputs [ys] (one column, as many rows as the channel) returns the row
    counts of the channels, a tensor with one row per data point and
    [1 + D] columns and the stacked outputs; splitting these by the returned
    counts gives every channel back with its channel number in front of
    each row, and every output tensor exactly.  Without outputs, the same
    holds for the inputs. *)
Theorem merge_then_split (D : nat) (xs ys : list (matrix A)) :
  xs ≠ [] → Forall (λ x, ncols x = D) xs →
  Forall2 (λ x y, nrows y = nrows x ∧ ncols y = 1) xs ys →
  let N := nrows <$> xs in
  (∃ X Y, Util.merge_data zero of_channel xs (Some ys) = Ok (N, X, Some Y)
      ∧ nrows X = sum_list N ∧ ncols X = 1 + D
      ∧ nrows Y = sum_list N ∧ ncols Y = 1
      ∧ Util.split_data N [X; Y] = Ok (Util.Tuple [Util.tag_channels of_channel xs; ys]))
  ∧ (∃ X, Util.merge_data zero of_channel xs None = Ok (N, X, None)
      ∧ nrows X = sum_list N ∧ ncols X = 1 + D
      ∧ Util.split_data N [X] = Ok (Util.Single (Util.tag_channels of_channel xs))).
Proof.
  intros Hne Hxs Hys N. subst N. set (N := nrows <$> xs).
  destruct (tag_channels_rows of_channel D xs 0 Hxs) as [Htag Hlen].
  fold (Util.tag_channels of_channel xs) in Htag, Hlen.
  assert (nrows (Mat (1 + D) (concat (rows <$> Util.tag_channels of_channel xs)))
          = sum_list N) as HX.
  { unfold nrows. cbn [rows]. by rewrite length_concat_sum, Hlen. }
  assert (nrows <$> ys = N) as HysN.
  { unfold N. clear -Hys. induction Hys as [|x y xs ys [? _] _ IH]; [done|].
    cbn [fmap list_fmap]. by f_equal. }
  assert (nrows (Mat 1 (concat (rows <$> ys))) = sum_list N) as HY.
  { unfold nrows. cbn [rows]. rewrite length_concat_sum, <- list_fmap_compose.
    by rewrite <- HysN. }
  assert (Util.split_loop N 0 (Mat 1 (concat (rows <$> ys))) = ys) as Hsplit.
  { rewrite <- HysN.
    replace (nrows <$> ys) with (length <$> (rows <$> ys)) by (by rewrite <- list_fmap_compose).
    etrans; [apply (split_loop_blocks 1 _ [])|].
    rewrite <- list_fmap_compose. clear -Hys.
    induction Hys as [|x y xs ys [_ Hy] _ IH]; [done|].
    cbn [fmap list_fmap]. f_equal; [|done]. destruct y as [d r]. cbn in *. by subst. }
  split.
  - eexists _, _. split; [by apply (merge_data_outputs zero of_channel D)|].
    split_and!; [done | done | done | done |].
    rewrite split_data_pair by done. unfold N at 1. by rewrite (split_merged of_channel D xs Hxs), Hsplit.
  - eexists. split; [by apply (merge_data_inputs zero of_channel D)|].
    split_and!; [done | done |].
    rewrite split_data_single by done. unfold N at 1. by rewrite (split_merged of_channel D xs Hxs).
Qed.

(** X2. [split_data(N, X)] on a tensor with [sum(N)] rows cuts it into
    consecutive pieces: piece [c] has [N[c]] rows and the columns of [X],
    and the pieces in order are the rows of [X]; nothing is lost, repeated or
    reordered.  On a tensor with another number of rows it raises the
    [ValueError]. *)
Theorem split_data_pieces (N : list nat) (X : matrix A) :
  (nrows X = sum_list N →
   ∃ pieces, Util.split_data N [X] = Ok (Util.Single pieces)
     ∧ nrows <$> pieces = N
     ∧ Forall (λ P, ncols P = ncols X) pieces
     ∧ concat (rows <$> pieces) = rows X)
  ∧ (nrows X ≠ sum_list N →
     Util.split_data N [X]
     = Err (ValueError "inputs must have number of data points that correspond to N")).
Proof.
  split.
  - intros HX. exists (Util.split_loop N 0 X).
    destruct (split_loop_pieces N X 0) as (HN & Hc & Hr); [lia|].
    split_and!; [by apply split_data_single | done | done |].
    rewrite Hr, drop_0. apply take_ge. unfold nrows in HX. lia.
  - intros HX. unfold Util.split_data. rewrite bool_decide_eq_false_2; [done|].
    intros [? _]%Forall_cons. done.
Qed.

(** X3. What [merge_data] refuses, in the order of its tests: outputs for
    another number of channels; then outputs with other row counts than the
    inputs; then an empty list of channels, which fails on [xs[0]]; then,
    while stacking, a channel whose column count is neither that of the first
    channel nor one, which is the only way the loop without outputs
    fails. *)
Theorem merge_data_refuses (xs : list (matrix A)) :
  (∀ ys, length ys ≠ length xs →
     Util.merge_data zero of_channel xs (Some ys)
     = Err (ValueError "inputs must have the same number of output dimensions"))
  ∧ (∀ ys, length ys = length xs → nrows <$> ys ≠ nrows <$> xs →
     Util.merge_data zero of_channel xs (Some ys)
     = Err (ValueError "inputs must have the same number of data points per output dimension"))
  ∧ (xs = [] →
     Util.merge_data zero of_channel xs None = Err IndexError
     ∧ Util.merge_data zero of_channel xs (Some []) = Err IndexError)
  ∧ (∀ x0, xs !! 0 = Some x0 →
     match Util.merge_data zero of_channel xs None with
     | Ok _ => Forall (λ x, ncols x = ncols x0 ∨ ncols x = 1) xs
     | Err e => e = RuntimeError ∧ ¬ Forall (λ x, ncols x = ncols x0 ∨ ncols x = 1) xs
     end).
Proof.
  split_and!.
  - intros ys Hlen. unfold Util.merge_data. by rewrite bool_decide_eq_true_2.
  - intros ys Hlen HN. unfold Util.merge_data.
    rewrite bool_decide_eq_false_2 by (intros H; by apply H).
    by rewrite bool_decide_eq_true_2.
  - intros ->. done.
  - intros x0 Hx0. unfold Util.merge_data. rewrite Hx0. cbn [of_option mbind result_bind].
    pose proof (merge_loop_width (ncols x0) xs 0 0
                  (Util.zeros zero (sum_list (nrows <$> xs)) (1 + ncols x0)) eq_refl) as Hloop.
    destruct (Util.merge_loop _ _ _ _ _) as [st|e]; done.
Qed.

(** X4. A channel with a single column is accepted beside channels with
    [D] columns: its value is repeated over the [D] payload columns of its
    rows.  For channels whose column count is that of the first channel or
    one, [merge_data] returns the row counts and the stacked tensor whose
    rows are, channel after channel, the channel number followed by the
    channel's row broadcast to [D] columns. *)
Theorem merge_data_broadcasts (xs : list (matrix A)) (x0 : matrix A) :
  xs !! 0 = Some x0 →
  Forall (λ x, ncols x = ncols x0 ∨ ncols x = 1) xs →
  Util.merge_data zero of_channel xs None
  = Ok (nrows <$> xs, Mat (1 + ncols x0) (stacked (ncols x0) 0 xs), None).
Proof.
  intros Hx0 Hxs. unfold Util.merge_data. rewrite Hx0.
  cbn [of_option mbind result_bind]. unfold Util.zeros.
  pose proof (merge_loop_broadcast (ncols x0) xs 0 0 [] Hxs eq_refl) as Hloop.
  cbn [app] in Hloop. rewrite Hloop. done.
Qed.
End util_more.

Lemma merge_then_split_witness :
  let xs := [Mat 1 [[5]; [6]]; Mat 1 [[7]]]%Z in
  let ys := [Mat 1 [[50]; [60]]; Mat 1 [[70]]]%Z in
  ∃ X Y, Util.merge_data 0%Z Z.of_nat xs (Some ys) = Ok ([2; 1], X, Some Y)
    ∧ X = Mat 2 [[0; 5]; [0; 6]; [1; 7]]%Z
    ∧ Util.split_data [2; 1] [X; Y]
      = Ok (Util.Tuple [[Mat 2 [[0; 5]; [0; 6]]; Mat 2 [[1; 7]]]%Z; ys]).
Proof.
  intros xs ys.
  destruct (merge_then_split 0%Z Z.of_nat 1 xs ys) as [(X & Y & Hm & _ & _ & _ & _ & Hs) _].
  - done.
  - by repeat constructor.
  - by repeat constructor.
  - exists X, Y. split_and!; [exact Hm | | exact Hs].
    vm_compute in Hm. by injection Hm as <- _.
Defined.

Lemma split_data_pieces_witness :
  ∃ pieces, Util.split_data [2; 0; 1] [Mat 1 [[1]; [2]; [3]]%Z] = Ok (Util.Single pieces)
    ∧ pieces = [Mat 1 [[1]; [2]]; Mat 1 []; Mat 1 [[3]]]%Z
    ∧ concat (rows <$> pieces) = [[1]; [2]; [3]]%Z.
Proof.
  destruct (split_data_pieces [2; 0; 1] (Mat 1 [[1]; [2]; [3]]%Z)) as [H _].
  destruct (H eq_refl) as (pieces & Hs & _ & _ & Hc).
  exists pieces. split_and!; [exact Hs | | exact Hc].
  vm_compute in Hs. by injection Hs as <-.
Defined.

Lemma merge_data_refuses_witness :
  Util.merge_data 0%Z Z.of_nat [Mat 2 [[1; 2]]; Mat 3 [[1; 2; 3]]]%Z None = Err RuntimeError.
Proof.
  destruct (merge_data_refuses 0%Z Z.of_nat [Mat 2 [[1; 2]]; Mat 3 [[1; 2; 3]]]%Z)
    as (_ & _ & _ & H).
  specialize (H _ eq_refl).
  destruct (Util.merge_data _ _ _ _) as [st|e]; [|by destruct H as [-> _]].
  apply Forall_cons in H as [_ [[H|H] _]%Forall_cons]; done.
Defined.

Lemma merge_data_broadcasts_witness :
  Util.merge_data 0%Z Z.of_nat [Mat 2 [[1; 2]]; Mat 1 [[7]; [8]]]%Z None
  = Ok ([1; 2], Mat 3 [[0; 1; 2]; [1; 7; 7]; [1; 8; 8]]%Z, None).
Proof.
  apply (merge_data_broadcasts 0%Z Z.of_nat [Mat 2 [[1; 2]]; Mat 1 [[7]; [8]]]%Z
           (Mat 2 [[1; 2]]%Z)).
  - reflexivity.
  - apply Forall_cons_2; [by left|]. apply Forall_cons_2; [by right|]. apply Forall_nil_2.
Defined.

(** ** MultiOutputLikelihood: validation, rows of no channel, and when it returns *)

Lemma gather_rows_returns {A : Type} (ri : list nat) (f : matrix A) :
  (∀ p, p ∈ ri → p < nrows f) →
  ∃ fsub, gather_rows ri f = Ok fsub ∧ nrows fsub = length ri ∧ ncols fsub = ncols f.
Proof.
  intros Hri. unfold gather_rows.
  destruct (mapM_is_Some_2 (λ p, rows f !! p) ri) as [rs Hrs].
  { apply Forall_forall. intros p Hp. apply lookup_lt_is_Some. by apply Hri. }
  rewrite Hrs. eexists. split; [done|]. split; [|done].
  unfold nrows. cbn. apply length_mapM in Hrs. done.
Qed.

Section validation.
Context {A : Type}.
Variable long : A → Z.
Variable validate_y_of : Likelihood.t A → matrix A → result unit.
Implicit Types (self : MultiOutputLikelihood.t (A:=A)) (y X : matrix A).

Lemma validate_y_loop_spec self r y :
  length r = MultiOutputLikelihood.output_dims self →
  (∀ j rj p, r !! j = Some rj → p ∈ rj → p < nrows y) →
  ∀ n i, i + n ≤ MultiOutputLikelihood.output_dims self →
  match MultiOutputLikelihood.validate_y_loop validate_y_of self r y i n with
  | Ok _ => ∀ j, i ≤ j < i + n → channel_valid validate_y_of self r y j
  | Err e =>
      ∃ j L rj ysub, i ≤ j < i + n
        ∧ MultiOutputLikelihood.likelihoods self !! j = Some L
        ∧ r !! j = Some rj
        ∧ gather_rows rj y = Ok ysub
        ∧ validate_y_of L ysub = Err e
        ∧ ∀ j', i ≤ j' < j → channel_valid validate_y_of self r y j'
  end.
Proof.
  intros Hlen Hrange. induction n as [|n IH]; intros i Hi.
  - cbn. intros j ?. lia.
  - cbn [MultiOutputLikelihood.validate_y_loop].
    unfold MultiOutputLikelihood.likelihood_at, MultiOutputLikelihood.indices_at.
    destruct (lookup_lt_is_Some_2 (MultiOutputLikelihood.likelihoods self) i) as [L HL].
    { unfold MultiOutputLikelihood.output_dims in Hi. lia. }
    destruct (lookup_lt_is_Some_2 r i) as [ri Hri]; [lia|].
    rewrite HL, Hri. cbn [of_option mbind result_bind].
    destruct (gather_rows_returns ri y) as (ysub & Hy & _);
      [intros p Hp; by eapply Hrange|].
    rewrite Hy. cbn [mbind result_bind].
    destruct (validate_y_of L ysub) as [[]|e] eqn:Hv; cbn [mbind result_bind].
    + specialize (IH (S i) ltac:(lia)).
      destruct (MultiOutputLikelihood.validate_y_loop _ _ _ _ _ _) as [[]|e].
      * intros j Hj. destruct (decide (j = i)) as [->|?]; [|apply IH; lia].
        by exists L, ri, ysub.
      * destruct IH as (j & L' & rj & ysub' & Hj & ? & ? & ? & ? & Hbefore).
        exists j, L', rj, ysub'. split_and!; [lia | lia | done..|].
        intros j' Hj'. destruct (decide (j' = i)) as [->|?]; [|apply Hbefore; lia].
        by exists L, ri, ysub.
    + exists i, L, ri, ysub. split_and!; [lia | lia | done..|]. intros j' ?. lia.
Qed.

(** X5. [MultiOutputLikelihood.validate_y].  With a single likelihood it
    hands all of [y] to that likelihood and never looks at [X].  With
    several (and an [X] that names rows of [y]) it returns exactly when
    every channel's likelihood accepts the rows of [y] that carry the
    channel's number; otherwise it raises what the first channel that
    refuses raises, the channels before it having accepted. *)
Theorem validate_y_per_channel self y X :
  (∀ L, MultiOutputLikelihood.likelihoods self = [L] →
        MultiOutputLikelihood.validate_y long validate_y_of self y X = validate_y_of L y)
  ∧ (∀ r, MultiOutputLikelihood.output_dims self ≠ 1 →
          MultiOutputLikelihood._channel_indices long self X = Ok r →
          nrows X ≤ nrows y →
          match MultiOutputLikelihood.validate_y long validate_y_of self y X with
          | Ok _ => ∀ j, j < MultiOutputLikelihood.output_dims self → channel_valid validate_y_of self r y j
          | Err e =>
              ∃ j L rj ysub, j < MultiOutputLikelihood.output_dims self
                ∧ MultiOutputLikelihood.likelihoods self !! j = Some L
                ∧ r !! j = Some rj
                ∧ gather_rows rj y = Ok ysub
                ∧ validate_y_of L ysub = Err e
                ∧ ∀ j', j' < j → channel_valid validate_y_of self r y j'
          end).
Proof.
  split.
  - intros L HL. unfold MultiOutputLikelihood.validate_y, MultiOutputLikelihood.output_dims,
      MultiOutputLikelihood.likelihood_at.
    rewrite HL. done.
  - intros r Hdims Hr Hrows. unfold MultiOutputLikelihood.validate_y.
    rewrite decide_False by done. rewrite Hr. cbn [mbind result_bind].
    pose proof (channel_indices_spec long self X r Hr) as [Hlen _].
    pose proof (validate_y_loop_spec self r y Hlen) as Hloop.
    specialize (Hloop (λ j rj p Hj Hp,
      Nat.lt_le_trans _ _ _ (channel_indices_range long self X r j rj p Hr Hj Hp) Hrows)).
    specialize (Hloop (MultiOutputLikelihood.output_dims self) 0 ltac:(lia)).
    destruct (MultiOutputLikelihood.validate_y_loop _ _ _ _ _ _) as [[]|e].
    + intros j Hj. apply Hloop. lia.
    + destruct Hloop as (j & L & rj & ysub & Hj & ? & ? & ? & ? & Hbefore).
      exists j, L, rj, ysub. split_and!; [lia | done..|]. intros j' Hj'. apply Hbefore. lia.
Qed.
End validation.

Section unrouted.
Context {A : Type}.
Variable long : A → Z.
Variable uninit : nat → nat → A.
Implicit Types (self : MultiOutputLikelihood.t (A:=A)) (h : store A).

(** A row of no channel keeps what [torch.empty] handed out. *)
Lemma rows_loop_unrouted self X r (step : nat → result (list nat * tvalue A)) n0 m0 new p :
  MultiOutputLikelihood._channel_indices long self X = Ok r →
  (∀ j s, step j = Ok s → r !! j = Some s.1 ∧ ∀ q, q ∈ s.1 → q < n0) →
  MultiOutputLikelihood.rows_loop step 0 (MultiOutputLikelihood.output_dims self)
    (MultiOutputLikelihood.empty uninit n0 m0) = Ok new →
  (∀ i, i < MultiOutputLikelihood.output_dims self →
        MultiOutputLikelihood.channel_of long X p ≠ Some (Z.of_nat i)) →
  rows new !! p = rows (MultiOutputLikelihood.empty uninit n0 m0) !! p.
Proof.
  intros Hr Hstep Hloop Hp.
  pose proof (channel_indices_spec long self X r Hr) as [Hlen Hspec].
  assert (∀ j rj q, r !! j = Some rj → q ∈ rj → q < n0) as Hrange.
  { intros j rj q Hj Hq.
    destruct (rows_loop_steps _ _ _ _ _ Hloop j) as [s Hs].
    { apply lookup_lt_Some in Hj. lia. }
    destruct (Hstep j s Hs) as [Hj' Hlt]. apply Hlt. congruence. }
  eapply (rows_loop_spec r step) in Hloop as (_ & _ & _ & Hout).
  - apply Hout. intros j rj Hj Hrj Hin.
    apply (Hspec j rj Hrj) in Hin. apply (Hp j); [lia | done].
  - intros j s Hs. by apply Hstep.
  - intros j rj Hj. by apply (Hspec j rj).
  - intros i j ri rj q. by apply (channel_indices_disjoint long self X r).
  - intros j rj q Hj Hq. rewrite nrows_empty. by eapply Hrange.
Qed.

(** X6. A row of [X] whose channel number names no likelihood (it is
    negative, or not below [output_dims]) is written by no channel: in the
    result of [log_prob], [mean], [variance] and [predict] that row is the
    row of the tensor that [torch.empty] handed out, uninitialised
    memory. *)
Theorem rows_of_no_channel_uninitialised self h X y f mu var Xv yv fv muv varv p :
  h !! X = Some Xv → h !! y = Some yv → h !! f = Some fv →
  h !! mu = Some muv → h !! var = Some varv →
  (∀ i, i < MultiOutputLikelihood.output_dims self →
        MultiOutputLikelihood.channel_of long Xv p ≠ Some (Z.of_nat i)) →
  let left_by_empty n m res h' :=
    ∃ resv, h' !! res = Some resv
      ∧ rows resv !! p = rows (MultiOutputLikelihood.empty uninit n m) !! p in
  (∀ res h', MultiOutputLikelihood.log_prob long uninit self y f X h = Ok (res, h') →
             left_by_empty (nrows fv) (ncols fv) res h')
  ∧ (∀ res h', MultiOutputLikelihood.mean long uninit self f X h = Ok (res, h') →
               left_by_empty (nrows fv) (ncols fv) res h')
  ∧ (∀ res h', MultiOutputLikelihood.variance long uninit self f X h = Ok (res, h') →
               left_by_empty (nrows fv) (ncols fv) res h')
  ∧ (∀ sigma n res h',
       MultiOutputLikelihood.predict long uninit self mu var None sigma n X h
       = Ok (MultiOutputLikelihood.PointRef res, h') →
       left_by_empty (nrows muv) (ncols muv) res h').
Proof.
  intros HX Hy Hf Hmu Hvar Hp left_by_empty. unfold left_by_empty. split_and!.
  - intros res h'. rewrite (log_prob_run long uninit self y f X h Xv yv fv) by done.
    destruct (MultiOutputLikelihood._channel_indices long self Xv) as [r|] eqn:Hr; [|done].
    destruct (MultiOutputLikelihood.rows_loop _ _ _ _) as [new|] eqn:Hloop; [|done].
    intros [= <- <-]. exists new. rewrite lookup_insert_eq. split; [done|].
    eapply rows_loop_unrouted; [exact Hr | | exact Hloop | exact Hp].
    apply log_prob_step_indices.
  - intros res h'. unfold MultiOutputLikelihood.mean.
    rewrite (moment_run long uninit _ self f X h Xv fv) by done.
    destruct (MultiOutputLikelihood._channel_indices long self Xv) as [r|] eqn:Hr; [|done].
    destruct (MultiOutputLikelihood.rows_loop _ _ _ _) as [new|] eqn:Hloop; [|done].
    intros [= <- <-]. exists new. rewrite lookup_insert_eq. split; [done|].
    eapply rows_loop_unrouted; [exact Hr | | exact Hloop | exact Hp].
    apply moment_step_indices.
  - intros res h'. unfold MultiOutputLikelihood.variance.
    rewrite (moment_run long uninit _ self f X h Xv fv) by done.
    destruct (MultiOutputLikelihood._channel_indices long self Xv) as [r|] eqn:Hr; [|done].
    destruct (MultiOutputLikelihood.rows_loop _ _ _ _) as [new|] eqn:Hloop; [|done].
    intros [= <- <-]. exists new. rewrite lookup_insert_eq. split; [done|].
    eapply rows_loop_unrouted; [exact Hr | | exact Hloop | exact Hp].
    apply moment_step_indices.
  - intros sigma n res h'.
    rewrite (predict_point_run long uninit self mu var sigma n X h Xv muv varv) by done.
    destruct (MultiOutputLikelihood._channel_indices long self Xv) as [r|] eqn:Hr; [|done].
    destruct (MultiOutputLikelihood.rows_loop _ _ _ _) as [new|] eqn:Hloop; [|done].
    intros [= <- <-]. exists new. rewrite lookup_insert_eq. split; [done|].
    eapply rows_loop_unrouted; [exact Hr | | exact Hloop | exact Hp].
    apply predict_point_step_indices.
Qed.
End unrouted.

Section returns.
Context {A : Type}.
Variable long : A → Z.
Variable uninit : nat → nat → A.
Implicit Types (self : MultiOutputLikelihood.t (A:=A)) (h : store A).

Lemma rows_loop_returns (step : nat → result (list nat * tvalue A)) (m0 : nat) :
  ∀ n i cur, ncols cur = m0 →
  (∀ j, i ≤ j < i + n →
     ∃ rj v, step j = Ok (rj, v) ∧ is_Some (broadcast_to (length rj) m0 v)) →
  ∃ new, MultiOutputLikelihood.rows_loop step i n cur = Ok new.
Proof.
  induction n as [|n IH]; intros i cur Hcur Hstep; [by eexists|].
  cbn [MultiOutputLikelihood.rows_loop].
  destruct (Hstep i) as (ri & v & -> & [src Hsrc]); [lia|].
  cbn [mbind result_bind fst snd]. unfold index_put_rows. rewrite Hcur, Hsrc.
  cbn [of_option mbind result_bind]. apply IH; [done|]. intros j Hj. apply Hstep. lia.
Qed.

Lemma moment_returns method self h f X Xv fv :
  h !! X = Some Xv → h !! f = Some fv →
  ncols Xv ≠ 0 → wf_matrix Xv → nrows Xv ≤ nrows fv →
  (∀ L fsub, L ∈ MultiOutputLikelihood.likelihoods self → ncols fsub = ncols fv →
     ∃ v, method L fsub = Ok v ∧ is_Some (broadcast_to (nrows fsub) (ncols fv) v)) →
  ∃ res h', MultiOutputLikelihood.moment long uninit method self f X h = Ok (res, h').
Proof.
  intros HX Hf Hc Hwf Hrows Hmethod.
  rewrite (moment_run long uninit method self f X h Xv fv) by done.
  destruct (channel_indices_ok long self Xv) as [r Hr]; [done | |].
  { eapply Forall_impl; [exact Hwf|]. intros row Hrow ->. cbn in Hrow. lia. }
  rewrite Hr. pose proof (channel_indices_spec long self Xv r Hr) as [Hlen _].
  destruct (rows_loop_returns (MultiOutputLikelihood.moment_step method self r fv) (ncols fv)
              (MultiOutputLikelihood.output_dims self) 0
              (MultiOutputLikelihood.empty uninit (nrows fv) (ncols fv))) as [new ->];
    [done | | by eexists _, _].
  intros j Hj. unfold MultiOutputLikelihood.moment_step,
    MultiOutputLikelihood.likelihood_at, MultiOutputLikelihood.indices_at.
  destruct (lookup_lt_is_Some_2 (MultiOutputLikelihood.likelihoods self) j) as [L HL].
  { unfold MultiOutputLikelihood.output_dims in Hj. lia. }
  destruct (lookup_lt_is_Some_2 r j) as [rj Hrj]; [lia|].
  rewrite HL, Hrj. cbn [of_option mbind result_bind].
  destruct (gather_rows_returns rj fv) as (fsub & Hsub & Hn & Hm).
  { intros p Hp. pose proof (channel_indices_range long self Xv r j rj p Hr Hrj Hp). lia. }
  rewrite Hsub. cbn [mbind result_bind].
  destruct (Hmethod L fsub) as (v & -> & Hv); [by eapply list_elem_of_lookup_2 | done |].
  cbn [mbind result_bind]. exists rj, v. split; [done|]. by rewrite <- Hn.
Qed.

(** X7. [mean] and [variance] of a multi-output likelihood raise only
    through the channel column or through a channel's likelihood: when [X]
    has a column 0 and no more rows than [f], and every channel's method
    returns, on every tensor with the columns of [f], a value that torch
    broadcasts to the rows it was given, the call returns. *)
Theorem moments_return self h f X Xv fv :
  h !! X = Some Xv → h !! f = Some fv →
  ncols Xv ≠ 0 → wf_matrix Xv → nrows Xv ≤ nrows fv →
  let returns method :=
    ∀ L fsub, L ∈ MultiOutputLikelihood.likelihoods self → ncols fsub = ncols fv →
      ∃ v, method L fsub = Ok v ∧ is_Some (broadcast_to (nrows fsub) (ncols fv) v) in
  (returns Likelihood.mean →
   ∃ res h', MultiOutputLikelihood.mean long uninit self f X h = Ok (res, h'))
  ∧ (returns Likelihood.variance →
     ∃ res h', MultiOutputLikelihood.variance long uninit self f X h = Ok (res, h')).
Proof.
  intros HX Hf Hc Hwf Hrows returns.
  split; intros Hmethod; by apply (moment_returns _ self h f X Xv fv).
Qed.
End returns.

Lemma validate_y_per_channel_witness :
  MultiOutputLikelihood.validate_y (λ z : Z, z) example_validate example_self example_f example_X
  = Ok tt
  ∧ ∀ j, j < 2 → channel_valid example_validate example_self [[0; 1]; [2; 3; 4]] example_f j.
Proof.
  split; [reflexivity|].
  destruct (validate_y_per_channel (λ z : Z, z) example_validate example_self
              example_f example_X) as [_ H].
  exact (H [[0; 1]; [2; 3; 4]] ltac:(discriminate) eq_refl ltac:(cbn; lia)).
Defined.

Lemma rows_of_no_channel_witness :
  ∃ res h' resv,
    MultiOutputLikelihood.mean (λ z : Z, z) (λ _ _, (-1)%Z) example_self 2%positive 1%positive
      example_store_stray = Ok (res, h')
    ∧ h' !! res = Some resv
    ∧ rows resv !! 0 = Some [101%Z]
    ∧ rows resv !! 1 = Some [(-1)%Z].
Proof.
  set (new := Mat 1 [[101]; [-1]]%Z).
  destruct (rows_of_no_channel_uninitialised (λ z : Z, z) (λ _ _, (-1)%Z) example_self
              example_store_stray 1%positive 2%positive 2%positive 2%positive 2%positive
              example_X_stray example_f_stray example_f_stray example_f_stray example_f_stray 1)
    as (_ & Hmean & _); try reflexivity.
  { intros i Hi. change (i < 2)%nat in Hi. cbn. intros [= Heq].
    clear -Hi Heq. lia. }
  destruct (Hmean 3%positive (<[3%positive := new]> example_store_stray))
    as (resv & Hres & Hrow); [vm_compute; reflexivity|].
  exists 3%positive, (<[3%positive := new]> example_store_stray), resv.
  split_and!; [vm_compute; reflexivity | exact Hres | | exact Hrow].
  rewrite lookup_insert_eq in Hres. by injection Hres as <-.
Defined.

Lemma moments_return_witness :
  ∃ res h', MultiOutputLikelihood.mean (λ z : Z, z) (λ _ _, (-1)%Z) example_self
              2%positive 1%positive example_store = Ok (res, h').
Proof.
  assert (wf_matrix example_X) as Hwf by (by repeat constructor).
  destruct (moments_return (λ z : Z, z) (λ _ _, (-1)%Z) example_self example_store
              2%positive 1%positive example_X example_f eq_refl eq_refl
              ltac:(discriminate) Hwf (le_n 5)) as [H _].
  apply H. intros L fsub HL Hsub. cbn in HL.
  assert (∃ g, Likelihood.mean L = λ f, Ok (Tensor (mat_map g f))) as [g Hg].
  { apply elem_of_cons in HL as [->|HL]; [by eexists|].
    apply list_elem_of_singleton in HL as ->. by eexists. }
  rewrite Hg. eexists. split; [done|]. cbn. unfold nrows, mat_map. cbn.
  rewrite length_map, Hsub. rewrite decide_True by auto. done.
Defined.

(** ** Likelihood.predict: the interval *)

Section quantiles.
Variable eps : nat → nat → nat → R.
Variable quadrature : GaussHermiteQuadrature.t.
Variable mean : matrix R → result (tvalue R).
Variable sample : list (matrix R) → result (list (matrix R)).

(** X8. The upper index [int(ci[1]*n + 0.5)] is not clamped: when
    [ci[1]*n + 0.5] reaches [n] (for [ci[1] = 1] it always does),
    [samples_y[upper,:]] is out of range and [Likelihood.predict], given a
    variance that is positive everywhere, raises an [IndexError] instead of
    returning an interval, whatever the lower bound is.  A variance with an
    entry that is not positive does not get that far: [Normal] refuses it
    with a [ValueError]. *)
Theorem predict_upper_index_out_of_range mu var ci0 ci1 sigma n point samples_y :
  GaussHermiteQuadrature.call quadrature mu var mean = Ok point →
  (¬ Forall (Forall (λ v, (0 < v)%R)) (rows var) →
   ∃ msg, LikelihoodBase.predict eps quadrature mean sample mu var (Some (ci0, ci1)) sigma n
          = Err (ValueError msg))
  ∧ (Forall (Forall (λ v, (0 < v)%R)) (rows var) →
     sample (LikelihoodBase.Normal_draws eps point var n) = Ok samples_y →
     length samples_y = n →
     (INR n <= ci1 * INR n + 1 / 2)%R →
     LikelihoodBase.predict eps quadrature mean sample mu var (Some (ci0, ci1)) sigma n
     = Err IndexError).
Proof.
  intros Hq. unfold LikelihoodBase.predict. rewrite Hq. cbn [mbind result_bind]. split.
  - intros Hvar. destruct (Normal_sample_refused eps point var n Hvar) as [msg ->].
    by exists msg.
  - intros Hvar Hs Hlen Hci. rewrite Normal_sample_accepted by done.
    cbn [mbind result_bind]. rewrite Hs. cbn [mbind result_bind].
    destruct (py_index _ (py_int (ci0 * INR n + 1 / 2))) as [lo|e] eqn:Hlo;
      cbn [mbind result_bind].
    + rewrite py_index_beyond; [done|]. rewrite length_sort0, Hlen. by apply py_int_lower.
    + by rewrite (py_index_error _ _ _ Hlo).
Qed.

(** X9. The interval that [Likelihood.predict] returns is ordered: for
    [0 <= ci[0] <= ci[1]] and samples of the shape of the predicted mean,
    the lower bound is at most the upper bound at every data point, since
    both are rows of the samples sorted along the first axis. *)
Theorem predict_interval_ordered mu var ci0 ci1 sigma n point samples_y mu' lo up :
  GaussHermiteQuadrature.call quadrature mu var mean = Ok point →
  sample (LikelihoodBase.Normal_draws eps point var n) = Ok samples_y →
  Forall (λ m, ∀ p q, p < nrows point → q < ncols point →
                      is_Some (rows m !! p ≫= (.!! q))) samples_y →
  (0 <= ci0 <= ci1)%R →
  LikelihoodBase.predict eps quadrature mean sample mu var (Some (ci0, ci1)) sigma n
  = Ok (Interval mu' (Tensor lo) (Tensor up)) →
  ∀ p q, (entry lo p q <= entry up p q)%R.
Proof.
  intros Hq Hs Hshape [H0 Hci]. unfold LikelihoodBase.predict.
  rewrite Hq. cbn [mbind result_bind]. unfold LikelihoodBase.Normal_sample.
  destruct (forallb _ (rows var)); [|done].
  cbn [mbind result_bind]. rewrite Hs. cbn [mbind result_bind].
  set (sorted := LikelihoodBase.sort0 (nrows point) (ncols point) samples_y).
  set (lower := py_int (ci0 * INR n + 1 / 2)). set (upper := py_int (ci1 * INR n + 1 / 2)).
  destruct (py_index sorted lower) as [lo'|] eqn:Hlo; [|done]. cbn [mbind result_bind].
  destruct (py_index sorted upper) as [up'|] eqn:Hup; [|done]. cbn [mbind result_bind].
  intros [= _ <- <-] p q.
  pose proof (pos_INR n) as Hn.
  assert (0 <= ci0 * INR n)%R as Hc0 by (by apply Rmult_le_pos).
  assert (ci0 * INR n <= ci1 * INR n)%R as Hc1 by (by apply Rmult_le_compat_r).
  assert (0 ≤ lower)%Z as Hl0 by (apply py_int_nonneg; lra).
  assert (lower ≤ upper)%Z as Hlu by (apply py_int_mono; lra).
  apply py_index_nonneg in Hlo; [|done]. apply py_index_nonneg in Hup; [|lia].
  destruct (decide (p < nrows point ∧ q < ncols point)) as [[Hp Hq']|Hout].
  - rewrite (entry_sort0 _ _ _ _ _ _ _ Hlo), (entry_sort0 _ _ _ _ _ _ _ Hup) by done.
    apply Sorted_nth_le; [apply Sorted_merge_sort, _|].
    split; [lia|]. apply lookup_lt_Some in Hup. unfold sorted in Hup.
    rewrite length_sort0 in Hup.
    rewrite merge_sort_Permutation. unfold LikelihoodBase.cell.
    rewrite length_omap_all; [done|].
    eapply Forall_impl; [exact Hshape|]. intros m Hm. by apply Hm.
  - by rewrite (entry_sort0_outside _ _ _ _ _ _ _ Hlo), (entry_sort0_outside _ _ _ _ _ _ _ Hup).
Qed.
End quantiles.

Section quantile_examples.
Local Open Scope R_scope.

(** The interval (0, 1/2) with two samples at one data point. *)
Lemma example_predict_interval :
  LikelihoodBase.predict example_eps (BernoulliLikelihood.quadrature example_bernoulli)
    example_mean example_sample (Mat 1 [[0]]) (Mat 1 [[4]]) (Some (0, 1 / 2)) None 2
  = Ok (Interval (Tensor (Mat 1 [[1 / 2]])) (Tensor (Mat 1 [[1 / 2]])) (Tensor (Mat 1 [[9 / 2]]))).
Proof.
  unfold LikelihoodBase.predict, example_mean, example_sample. rewrite example_call.
  cbn [mbind result_bind]. rewrite Normal_sample_accepted by (repeat constructor; lra).
  cbn [mbind result_bind BernoulliLikelihood.sample].
  unfold LikelihoodBase.Normal_draws, LikelihoodBase.sort0, LikelihoodBase.cell, example_eps.
  cbn. rewrite !decide_True by lra.
  rewrite (py_int_unit (0 * (1 + 1) + 1 / 2)) by lra.
  rewrite (py_int_between (1 / 2 * (1 + 1) + 1 / 2) 1) by (simpl; lra).
  cbn [list_merge nth]. rewrite py_index_0, py_index_1. cbn [mbind result_bind].
  replace (1 / 2 + 4 * 0) with (1 / 2) by lra.
  by replace (1 / 2 + 4 * 1) with (9 / 2) by lra.
Qed.

Lemma predict_upper_index_witness :
  LikelihoodBase.predict example_eps (BernoulliLikelihood.quadrature example_bernoulli)
    example_mean example_sample (Mat 1 [[0]]) (Mat 1 [[4]]) (Some (0, 1)) None 2
  = Err IndexError.
Proof.
  eapply (predict_upper_index_out_of_range example_eps _ example_mean example_sample).
  - apply example_call.
  - apply Forall_cons_2; [|apply Forall_nil_2].
    apply Forall_cons_2; [lra | apply Forall_nil_2].
  - reflexivity.
  - reflexivity.
  - simpl. lra.
Defined.

Lemma predict_interval_ordered_witness :
  entry (Mat 1 [[1 / 2]]) 0 0 <= entry (Mat 1 [[9 / 2]]) 0 0.
Proof.
  eapply (predict_interval_ordered example_eps _ example_mean example_sample
            (Mat 1 [[0]]) (Mat 1 [[4]]) 0 (1 / 2) None 2).
  - apply example_call.
  - reflexivity.
  - repeat apply Forall_cons_2; [| |apply Forall_nil_2];
      intros [|p] [|q] Hp Hq; cbn in *; (by eexists) || lia.
  - lra.
  - apply example_predict_interval.
Defined.
End quantile_examples.

(** ** validate_y: the supports *)





Section supports.
Local Open Scope R_scope.
Variable out_of_range : observation → Z.


End supports.


(** ** The link functions *)

Section link_ranges.
Local Open Scope R_scope.
Variable erf : R → R.

Lemma logistic_range (x : R) : 0 < apply_link erf logistic x < 1.
Proof.
  cbn. pose proof (exp_pos (- x)) as He.
  assert (0 < / (1 + Rtrigo_def.exp (- x))) as Hinv by (apply Rinv_0_lt_compat; lra).
  split; [lra|].
  replace (1 / (1 + Rtrigo_def.exp (- x))) with (/ (1 + Rtrigo_def.exp (- x))) by lra.
  rewrite <- Rinv_1 at 2. apply Rinv_lt_contravar; lra.
Qed.

(** X12. Every link maps into the range that the likelihoods using it
    need: [exp] and [square] into the numbers that are not negative,
    [logistic] into the unit interval from 0 to 1; and [inv_probit], which
    shrinks the probit by the jitter 0.001, stays inside [0.001, 0.999]
    (given that the error function stays inside [-1, 1]), so that it
    never returns the probabilities 0 and 1.  The bounds of [exp] and
    [logistic] are the closed ones, which floating point keeps as well,
    where [exp] can underflow to 0 and [logistic] can reach 1. *)
Theorem links_stay_in_range (x : R) :
  0 <= apply_link erf exp x
  ∧ 0 <= apply_link erf square x
  ∧ 0 <= apply_link erf logistic x <= 1
  ∧ ((∀ z, -1 <= erf z <= 1) →
     1 / 1000 <= apply_link erf inv_probit x <= 999 / 1000).
Proof.
  split_and!.
  - apply Rlt_le, exp_pos.
  - cbn. nra.
  - apply Rlt_le, logistic_range.
  - apply Rlt_le, logistic_range.
  - intros Herf. cbn. specialize (Herf (x / sqrt 2)). lra.
Qed.
End link_ranges.

Lemma links_stay_in_range_witness :
  (1 / 1000 <= apply_link (λ _, 1%R) inv_probit 0 <= 999 / 1000)%R.
Proof.
  destruct (links_stay_in_range (λ _, 1%R) 0%R) as (_ & _ & _ & H).
  apply H. intros z. lra.
Defined.

(** ** Means and variances *)

Lemma mat_map_compose {B C D : Type} (g : C → D) (h : B → C) (X : matrix B) :
  mat_map g (mat_map h X) = mat_map (λ x, g (h x)) X.
Proof.
  unfold mat_map. cbn. f_equal. rewrite map_map. apply map_ext. intros row. apply map_map.
Qed.

Lemma mat_map_ext {B C : Type} (g h : B → C) (X : matrix B) :
  (∀ x, g x = h x) → mat_map g X = mat_map h X.
Proof.
  intros Hgh. unfold mat_map. f_equal. apply map_ext. intros row. by apply map_ext.
Qed.

Section moments.
Local Open Scope R_scope.
Variable erf : R → R.

(** X13. How the variance follows the mean, entry by entry: for the
    exponential likelihood the variance is the square of the mean, for the
    Poisson likelihood it is the mean, for the gamma likelihood [shape]
    times the variance is the square of the mean, and for the Bernoulli
    likelihood the variance is [mean * (1 - mean)], which with the logistic
    link lies between 0 and 1/4 everywhere, the bounds included. *)
Theorem variance_follows_mean (f : matrix R)
    (e : ExponentialLikelihood.t) (p : PoissonLikelihood.t) (g : GammaLikelihood.t)
    (b : BernoulliLikelihood.t) :
  ExponentialLikelihood.variance erf e f
  = mat_map (λ m, m * m) (ExponentialLikelihood.mean erf e f)
  ∧ PoissonLikelihood.variance erf p f = PoissonLikelihood.mean erf p f
  ∧ mat_map (Rmult (GammaLikelihood.shape g)) (GammaLikelihood.variance erf g f)
    = mat_map (λ m, m * m) (GammaLikelihood.mean erf g f)
  ∧ (∃ m, BernoulliLikelihood.mean erf b f = Ok (Tensor m)
        ∧ BernoulliLikelihood.variance erf b f = mat_map (λ m, m * (1 - m)) m)
  ∧ (BernoulliLikelihood.link_of b = logistic →
     Forall (Forall (λ v, 0 <= v <= 1 / 4)) (rows (BernoulliLikelihood.variance erf b f))).
Proof.
  split_and!.
  - unfold ExponentialLikelihood.variance, ExponentialLikelihood.mean.
    by rewrite mat_map_compose.
  - done.
  - unfold GammaLikelihood.variance, GammaLikelihood.mean. rewrite !mat_map_compose.
    apply mat_map_ext. intros x. ring.
  - eexists. split; [done|]. unfold BernoulliLikelihood.variance. rewrite mat_map_compose.
    apply mat_map_ext. intros x. ring.
  - intros Hlink. unfold BernoulliLikelihood.variance, mat_map. cbn [rows]. rewrite Hlink.
    apply Forall_forall. intros row [frow [<- _]]%list_elem_of_In%in_map_iff.
    apply Forall_forall. intros v [x [<- _]]%list_elem_of_In%in_map_iff.
    pose proof (logistic_range erf x) as Hp.
    set (q := apply_link erf logistic x) in *.
    assert (0 <= q * (1 - q)) by (apply Rmult_le_pos; lra).
    pose proof (Rle_0_sqr (q - 1 / 2)) as Hsq. unfold Rsqr in Hsq. lra.
Qed.
End moments.

Lemma variance_follows_mean_witness :
  Forall (Forall (λ v, (0 <= v <= 1 / 4)%R))
    (rows (BernoulliLikelihood.variance (λ _, 0%R) example_bernoulli (Mat 1 [[0%R]]))).
Proof.
  destruct (variance_follows_mean (λ _, 0%R) (Mat 1 [[0%R]]) (ExponentialLikelihood.Make exp)
              (PoissonLikelihood.Make exp) (GammaLikelihood.Make 1 exp) example_bernoulli)
    as (_ & _ & _ & _ & H).
  by apply H.
Defined.

(** ** The Bernoulli likelihood: the two outcomes *)

Lemma against_constant_column (h : R → R → R) (a : R) (f : matrix R) :
  against_column h (constant_column (nrows f) a) f = Ok (mat_map (h a) f).
Proof.
  unfold against_column, constant_column, nrows. cbn [ncols rows].
  rewrite length_replicate, decide_True by done. unfold mat_map. do 2 f_equal.
  induction (rows f) as [|frow l IH]; [done|]. cbn. by rewrite IH.
Qed.

Lemma mat_zip_with_maps {B C D E : Type} (k : C → D → E) (g : B → C) (h : B → D)
    (X : matrix B) :
  mat_zip_with k (mat_map g X) (mat_map h X) = mat_map (λ x, k (g x) (h x)) X.
Proof.
  unfold mat_zip_with, mat_map. cbn. f_equal.
  induction (rows X) as [|row l IH]; [done|]. cbn. f_equal; [|done].
  clear. induction row as [|x row IH]; [done|]. cbn. by f_equal.
Qed.

Section bernoulli_outcomes.
Local Open Scope R_scope.
Variable erf : R → R.

(** X14. The Bernoulli log-probabilities of the two outcomes are those of
    a probability distribution: for a link with values strictly between 0
    and 1 (the logistic link is one) and every [f], the exponentials of
    [log_prob(1, f)] and of [log_prob(0, f)] add up to 1, at every
    entry. *)
Theorem bernoulli_outcomes_sum_to_one (self : BernoulliLikelihood.t) (f : matrix R) :
  (∀ x, 0 < apply_link erf (BernoulliLikelihood.link_of self) x < 1) →
  (lp1 ← BernoulliLikelihood.log_prob erf self (constant_column (nrows f) 1) f ;
   lp0 ← BernoulliLikelihood.log_prob erf self (constant_column (nrows f) 0) f ;
   Ok (mat_zip_with (λ a b, Rtrigo_def.exp a + Rtrigo_def.exp b) lp1 lp0))
  = Ok (mat_map (λ _, 1) f).
Proof.
  intros Hlink. unfold BernoulliLikelihood.log_prob.
  rewrite !against_constant_column. cbn [mbind result_bind]. f_equal.
  rewrite mat_zip_with_maps. apply mat_map_ext. intros x. cbn.
  rewrite decide_True by lra. rewrite decide_False by lra.
  specialize (Hlink x). rewrite !exp_ln by lra. lra.
Qed.
End bernoulli_outcomes.

Lemma bernoulli_outcomes_witness :
  (lp1 ← BernoulliLikelihood.log_prob (λ _, 0%R) example_bernoulli
           (constant_column 2 1) (Mat 1 [[0]; [3]]%R) ;
   lp0 ← BernoulliLikelihood.log_prob (λ _, 0%R) example_bernoulli
           (constant_column 2 0) (Mat 1 [[0]; [3]]%R) ;
   Ok (mat_zip_with (λ a b, Rtrigo_def.exp a + Rtrigo_def.exp b)%R lp1 lp0))
  = Ok (Mat 1 [[1]; [1]]%R).
Proof.
  apply (bernoulli_outcomes_sum_to_one (λ _, 0%R) example_bernoulli (Mat 1 [[0]; [3]]%R)).
  intros x. apply logistic_range.
Defined.

(** ** The Gaussian likelihood: the variational expectation in closed form *)

Section gaussian_props.
Local Open Scope R_scope.

Lemma vsum_app (a b : list R) : vsum (a ++ b) = vsum a + vsum b.
Proof. unfold vsum. induction a as [|x a IH]; cbn; [lra|]. rewrite IH. lra. Qed.

(** X15. The Gaussian variational expectation is the log-likelihood at the
    posterior mean, lowered by the posterior variance: for [y], [mu] and
    [var] of shape (N, 1) and a scale that is not zero,
    [variational_expectation(y, mu, var)] is the sum of [log_prob(y, mu)]
    minus half the sum of [var / scale^2]; with [var = 0] it is the sum of
    the log-probabilities. *)
Theorem gaussian_variational_expectation (self : GaussianLikelihood.t) (y mu var : matrix R) :
  GaussianLikelihood.scale self ≠ 0 →
  wf_matrix y → wf_matrix mu → wf_matrix var →
  ncols y = 1%nat → ncols mu = 1%nat → ncols var = 1%nat →
  nrows y = nrows mu → nrows y = nrows var →
  ∃ lp, GaussianLikelihood.log_prob self y mu = Ok lp
    ∧ GaussianLikelihood.variational_expectation self y mu var
      = Ok (vsum (concat (rows lp))
            - 1 / 2 * vsum (concat (rows var))
              / (GaussianLikelihood.scale self * GaussianLikelihood.scale self)).
Proof.
  intros Hs Hy Hmu Hvar Hcy Hcmu Hcvar Hn1 Hn2.
  unfold GaussianLikelihood.log_prob, GaussianLikelihood.variational_expectation,
    against_column.
  rewrite !decide_True by done. eexists. split; [done|]. f_equal.
  unfold mat_map, mat_zip_with, wf_matrix, nrows in *. cbn [rows ncols].
  rewrite Hcy in Hy. rewrite Hcmu in Hmu. rewrite Hcvar in Hvar. clear Hcy Hcmu Hcvar.
  revert Hy Hmu Hvar Hn1 Hn2. generalize (rows y) (rows mu) (rows var).
  set (s := GaussianLikelihood.scale self) in *.
  induction l as [|yr ly IH]; intros [|mr lm] [|vr lv] Hy Hmu Hvar Hn1 Hn2;
    try done; cbn in *.
  - lra.
  - apply Forall_cons in Hy as [Hyr Hy]. apply Forall_cons in Hmu as [Hmr Hmu].
    apply Forall_cons in Hvar as [Hvr Hvar].
    destruct yr as [|a [|??]]; try done. destruct mr as [|b [|??]]; try done.
    destruct vr as [|c [|??]]; try done. cbn.
    specialize (IH lm lv Hy Hmu Hvar ltac:(lia) ltac:(lia)).
    unfold vsum in *. cbn in *. 
    assert (∀ P Q T U : R, 1 / 2 * P = Q - 1 / 2 * T / U →
              ∀ p q t, 1 / 2 * p = q - 1 / 2 * t / U →
              1 / 2 * (p + P) = q + Q - 1 / 2 * (t + T) / U) as Hadd.
    { intros. lra. }
    apply Hadd; [exact IH|]. field. done.
Qed.
End gaussian_props.

Lemma gaussian_variational_expectation_witness :
  GaussianLikelihood.variational_expectation (GaussianLikelihood.Make 1)
    (Mat 1 [[1]]%R) (Mat 1 [[1]]%R) (Mat 1 [[0]]%R)
  = Ok (vsum [(- (1 / 2) * (ln (2 * PI) + 2 * ln 1 + (1 - 1) / 1 * ((1 - 1) / 1)))%R]
        - 1 / 2 * vsum [0%R] / (1 * 1))%R.
Proof.
  destruct (gaussian_variational_expectation (GaussianLikelihood.Make 1)
              (Mat 1 [[1]]%R) (Mat 1 [[1]]%R) (Mat 1 [[0]]%R)) as (lp & Hlp & Hve);
    try reflexivity; try (by repeat constructor).
  - cbn. lra.
  - cbn in Hlp. injection Hlp as <-. exact Hve.
Defined.

(** ** The shape of a block *)

(** Takes the next parameter lookup of a call that has returned apart. *)
Ltac returned H :=
  repeat match type of H with
    | context [@of_option ?T ?e ?o] =>
        let v := fresh "v" in
        destruct o as [v|] eqn:?;
        cbn [of_option mbind result_bind] in H; [|discriminate H]
    end.

Section shapes.
Local Open Scope R_scope.
Implicit Types (X G : matrix R).

Lemma pairwise_shape {B : Type} (F : list R → list R → B) X1 X2 :
  nrows (pairwise F X1 X2) = nrows X1 ∧ ncols (pairwise F X1 X2) = nrows X2
  ∧ Forall (λ r, length r = nrows X2) (rows (pairwise F X1 X2)).
Proof.
  unfold pairwise, nrows. cbn. rewrite length_fmap. split_and!; [done..|].
  apply Forall_fmap, Forall_forall. intros x _. cbn. by rewrite length_fmap.
Qed.

Lemma mat_map_shape {B C : Type} (h : B → C) (T : matrix B) (n m : nat) :
  nrows T = n ∧ ncols T = m ∧ Forall (λ r, length r = m) (rows T) →
  nrows (mat_map h T) = n ∧ ncols (mat_map h T) = m ∧ wf_matrix (mat_map h T).
Proof.
  intros (Hn & Hm & Hwf). unfold mat_map, nrows, wf_matrix in *. cbn.
  rewrite length_map. split_and!; [done..|].
  rewrite Forall_forall in Hwf. apply Forall_forall.
  intros r [r0 [<- Hr0%list_elem_of_In]]%list_elem_of_In%in_map_iff.
  rewrite length_map, Hm. by apply Hwf.
Qed.

Lemma active_input_returned active_dims X1 X2 (X : matrix R * option (matrix R)) :
  Kernel._active_input active_dims X1 (Some X2) = Ok X →
  ∃ S1 S2, X = (S1, Some S2) ∧ nrows S1 = nrows X1 ∧ nrows S2 = nrows X2.
Proof.
  unfold Kernel._active_input. destruct active_dims as [dims|].
  - destruct (Kernel.index_select dims X1) as [S1|] eqn:H1; [|done]. cbn [mbind result_bind].
    destruct (Kernel.index_select dims X2) as [S2|] eqn:H2; [|done]. cbn [mbind result_bind].
    intros [= <-]. exists S1, S2.
    split_and!; [done | by eapply index_select_nrows | by eapply index_select_nrows].
  - intros [= <-]. by exists X1, X2.
Qed.

Lemma pairwise_block_shape (h : list R → R) (F : list R → list R → list R) X1 X2 n m :
  nrows X1 = n → nrows X2 = m →
  nrows (mat_map h (pairwise F X1 X2)) = n ∧ ncols (mat_map h (pairwise F X1 X2)) = m
  ∧ wf_matrix (mat_map h (pairwise F X1 X2)).
Proof.
  intros <- <-. apply mat_map_shape. apply pairwise_shape.
Qed.

Lemma pairwise_wf (F : list R → list R → R) X1 X2 n m :
  nrows X1 = n → nrows X2 = m →
  nrows (pairwise F X1 X2) = n ∧ ncols (pairwise F X1 X2) = m ∧ wf_matrix (pairwise F X1 X2).
Proof.
  intros <- <-. destruct (pairwise_shape F X1 X2) as (? & ? & ?). done.
Qed.

Lemma table_shape (n m : nat) (f : nat → nat → R) :
  nrows (Mat m (table n m f)) = n ∧ wf_matrix (Mat m (table n m f)).
Proof.
  unfold nrows, wf_matrix, table. cbn. rewrite length_fmap, length_seq. split; [done|].
  apply Forall_fmap, Forall_forall. intros a _. cbn. by rewrite length_fmap, length_seq.
Qed.

(** X16. Every block has the shape (|X1|, |X2|): when [Ksub(i, j, X1, X2)]
    of one of the seven kernels returns, it returns a matrix with one row
    for each point of [X1] and one column for each point of [X2], whatever
    the channels and the active dimensions are (the kernels that wrap
    single-output kernels rely on those for it). *)
Theorem Ksub_shape (k : mokernel) (i j : nat) (X1 X2 G : matrix R) :
  Forall Kernel.contract (subkernels k) →
  Ksub k i j X1 (Some X2) = Ok G →
  nrows G = nrows X1 ∧ ncols G = nrows X2 ∧ wf_matrix G.
Proof.
  intros Hks HG. destruct k as [k|k|k|k|k|k|k]; cbn [Ksub subkernels] in *.
  - unfold IndependentMultiOutputKernel.Ksub in HG. cbn in HG.
    destruct (decide (i = j)) as [->|_].
    + unfold at_channel in HG. returned HG. rewrite Forall_forall in Hks.
      eapply Kernel.K_shape; [|exact HG]. apply Hks. by eapply list_elem_of_lookup_2.
    + injection HG as <-. unfold nrows, wf_matrix. cbn. rewrite length_replicate.
      split_and!; [done..|]. apply Forall_replicate. apply length_replicate.
  - unfold MultiOutputSpectralKernel.Ksub in HG.
    destruct (Kernel._active_input _ X1 _) as [X|] eqn:HX; [|done].
    apply active_input_returned in HX as (S1 & S2 & -> & H1 & H2).
    cbn [mbind result_bind fst snd] in HG. unfold at_channel, attribute in HG.
    destruct (decide (i = j)); returned HG; injection HG as <-;
      by apply pairwise_block_shape.
  - unfold UncoupledMultiOutputSpectralKernel.Ksub,
      UncoupledMultiOutputSpectralKernel.at_pair in HG.
    destruct (Kernel._active_input _ X1 _) as [X|] eqn:HX; [|done].
    apply active_input_returned in HX as (S1 & S2 & -> & H1 & H2).
    cbn [mbind result_bind fst snd] in HG. unfold at_channel, attribute in HG.
    destruct (decide (i = j)); returned HG; injection HG as <-;
      by apply pairwise_block_shape.
  - unfold CrossSpectralKernel.Ksub in HG.
    destruct (Kernel._active_input _ X1 _) as [X|] eqn:HX; [|done].
    apply active_input_returned in HX as (S1 & S2 & -> & H1 & H2).
    cbn [mbind result_bind fst snd] in HG. unfold at_channel, attribute in HG.
    destruct (decide (i = j)); returned HG; injection HG as <-;
      by apply pairwise_block_shape.
  - unfold LinearModelOfCoregionalizationKernel.Ksub in HG. cbn in HG.
    unfold at_channel in HG. returned HG.
    destruct (collect _ _) as [Ks|] eqn:HKs; [|done]. cbn [mbind result_bind] in HG.
    apply collect_shape in HKs; [|done].
    unfold LinearModelOfCoregionalizationKernel.stack_dot in HG.
    destruct Ks as [|K0 Ks]; [done|]. injection HG as <-.
    apply Forall_cons in HKs as [[Hn Hm] _]. rewrite <- Hn, <- Hm.
    split_and!; [apply table_shape | done | apply table_shape].
  - unfold GaussianConvolutionProcessKernel.Ksub in HG.
    destruct (Kernel._active_input _ X1 _) as [X|] eqn:HX; [|done].
    apply active_input_returned in HX as (S1 & S2 & -> & H1 & H2).
    cbn [mbind result_bind fst snd] in HG. unfold at_channel in HG.
    returned HG; injection HG as <-. by apply pairwise_block_shape.
  - unfold MultiOutputHarmonizableSpectralKernel.Ksub in HG.
    destruct (Kernel._active_input _ X1 _) as [X|] eqn:HX; [|done].
    apply active_input_returned in HX as (S1 & S2 & -> & H1 & H2).
    cbn [mbind result_bind fst snd] in HG. unfold at_channel, attribute in HG.
    unfold Kernel.distance, Kernel.average in HG.
    destruct (decide (i = j)); returned HG; injection HG as <-;
      rewrite mat_zip_with_pairwise; by apply pairwise_wf.
Qed.
End shapes.

Lemma Ksub_shape_witness :
  let k := IMO (IndependentMultiOutputKernel.Make [constant_kernel 1; constant_kernel 2]) in
  let X1 := Mat 1 [[0%R]; [1%R]] in
  let X2 := Mat 1 [[2%R]] in
  Ksub k 1 1 X1 (Some X2) = Ok (Mat 1 [[2%R]; [2%R]])
  ∧ nrows (Mat 1 [[2%R]; [2%R]]) = nrows X1 ∧ ncols (Mat 1 [[2%R]; [2%R]]) = nrows X2.
Proof.
  intros k X1 X2. split; [reflexivity|].
  destruct (Ksub_shape k 1 1 X1 X2 (Mat 1 [[2%R]; [2%R]])) as (Hn & Hm & _).
  - repeat (apply Forall_cons_2; [apply constant_kernel_contract|]). apply Forall_nil_2.
  - reflexivity.
  - by split.
Defined.

(** ** The second point set, when it is omitted *)

Section second_default.
Local Open Scope R_scope.
Implicit Types (X : matrix R).

Lemma active_input_default active_dims X :
  Kernel._active_input active_dims X (Some X)
  = (λ S : matrix R * option (matrix R), (S.1, Some S.1))
      <$> Kernel._active_input active_dims X None.
Proof.
  unfold Kernel._active_input. destruct active_dims as [dims|]; [|done].
  by destruct (Kernel.index_select dims X).
Qed.

Lemma active_input_none active_dims X (S : matrix R * option (matrix R)) :
  Kernel._active_input active_dims X None = Ok S → S.2 = None.
Proof.
  unfold Kernel._active_input. destruct active_dims as [dims|]; [|by intros [= <-]].
  destruct (Kernel.index_select dims X); [|done]. by intros [= <-].
Qed.

Lemma collect_ext {T U : Type} (f g : T → result U) (l : list T) :
  (∀ x, x ∈ l → f x = g x) → collect f l = collect g l.
Proof.
  induction l as [|x l IH]; intros Hfg; [done|]. cbn.
  rewrite Hfg by (by left). rewrite IH; [done|]. intros y Hy. apply Hfg. by right.
Qed.

(** Rewrites a call without the second point set into the shape of the
    call with it. *)
Ltac second_given X :=
  rewrite (active_input_default _ X);
  destruct (Kernel._active_input _ X None) as [[S1 S2]|] eqn:HS;
  cbn [fmap result_fmap mbind result_bind fst snd];
  [apply active_input_none in HS; cbn in HS; subst S2 | done].

(** X17. Leaving [X2] out means [X2 = X1]: for every kernel and channel,
    [Ksub(i, i, X)] is [Ksub(i, i, X, X)], and for two different channels
    too, except for the convolution kernel, whose branch on [X2 is None]
    takes the same-channel formula (the wrapped single-output kernels are
    taken to follow the same convention). *)
Theorem Ksub_second_defaults (k : mokernel) (i j : nat) (X : matrix R) :
  (∀ sk, sk ∈ subkernels k → ∀ X', Kernel.K sk X' None = Kernel.K sk X' (Some X')) →
  i = j ∨ (∀ c, k ≠ CONV c) →
  Ksub k i j X None = Ksub k i j X (Some X).
Proof.
  intros Hks Hij. destruct k as [k|k|k|k|k|k|k]; cbn [Ksub subkernels] in *.
  - unfold IndependentMultiOutputKernel.Ksub. cbn.
    destruct (decide (i = j)); [|done]. unfold at_channel.
    destruct (IndependentMultiOutputKernel.kernels k !! i) as [sk|] eqn:Hsk; [|done].
    cbn. apply Hks. by eapply list_elem_of_lookup_2.
  - unfold MultiOutputSpectralKernel.Ksub. second_given X. reflexivity.
  - unfold UncoupledMultiOutputSpectralKernel.Ksub. second_given X. reflexivity.
  - unfold CrossSpectralKernel.Ksub. second_given X. reflexivity.
  - unfold LinearModelOfCoregionalizationKernel.Ksub. cbn.
    by rewrite (collect_ext (λ kernel, Kernel.K kernel X None)
                  (λ kernel, Kernel.K kernel X (Some X)))
      by (intros sk Hsk; by apply Hks).
  - destruct Hij as [<-|Hne]; [|by destruct (Hne k)].
    unfold GaussianConvolutionProcessKernel.Ksub. second_given X. unfold at_channel.
    destruct (GaussianConvolutionProcessKernel.variance k !! i) as [v|]; [|done].
    cbn [of_option mbind result_bind]. rewrite vadd_self.
    by destruct (GaussianConvolutionProcessKernel.weight k !! i).
  - unfold MultiOutputHarmonizableSpectralKernel.Ksub. second_given X. reflexivity.
Qed.
End second_default.

Lemma Ksub_second_defaults_witness :
  let X := Mat 1 [[0%R]; [1%R]] in
  let imo := IMO (IndependentMultiOutputKernel.Make [constant_kernel 1; constant_kernel 2]) in
  Ksub (CONV example_conv) 1 1 X None = Ksub (CONV example_conv) 1 1 X (Some X)
  ∧ Ksub imo 0 1 X None = Ksub imo 0 1 X (Some X).
Proof.
  intros X imo. split.
  - apply (Ksub_second_defaults (CONV example_conv) 1 1 X).
    + intros sk Hsk. cbn in Hsk. by apply elem_of_nil in Hsk.
    + by left.
  - apply (Ksub_second_defaults imo 0 1 X).
    + intros sk Hsk X'. cbn in Hsk.
      apply elem_of_cons in Hsk as [->|Hsk]; [reflexivity|].
      apply list_elem_of_singleton in Hsk as ->. reflexivity.
    + right. intros c. discriminate.
Defined.

(** ** The diagonal is a variance *)

Section variances.
Local Open Scope R_scope.
Implicit Types (X G : matrix R).

Lemma twopi_power_pos (x : R) : 0 < Rpower (2 * PI) x.
Proof. unfold Rpower. apply exp_pos. Qed.

Lemma square_nonneg (x : R) : 0 <= x * x.
Proof. pose proof (Rle_0_sqr x) as Hx. unfold Rsqr in Hx. lra. Qed.

Lemma twopi_power_nonneg (x : R) : 0 <= Rpower (2 * PI) x.
Proof. apply Rlt_le, twopi_power_pos. Qed.

Lemma dot_self_nonneg (a : list R) : 0 <= dot a a.
Proof.
  unfold dot, vsum, vmul. induction a as [|x a IH]; cbn; [lra|].
  pose proof (Rle_0_sqr x) as Hx. unfold Rsqr in Hx. lra.
Qed.

Lemma dot_nonneg (a b : list R) :
  Forall (λ x, 0 <= x) a → Forall (λ x, 0 <= x) b → 0 <= dot a b.
Proof.
  unfold dot, vsum, vmul. intros Ha. revert b.
  induction Ha as [|x a Hx Ha IH]; intros b Hb; [cbn; lra|].
  destruct Hb as [|y b Hy Hb]; cbn; [lra|].
  specialize (IH b Hb). pose proof (Rmult_le_pos x y Hx Hy). lra.
Qed.

Lemma vsquare_nonneg (a : list R) : Forall (λ x, 0 <= x) (vsquare a).
Proof.
  unfold vsquare. apply Forall_fmap, Forall_forall. intros x _. cbn.
  pose proof (Rle_0_sqr x) as Hx. unfold Rsqr in Hx. lra.
Qed.

Lemma at_pair_diagonal_nonneg (self : UncoupledMultiOutputSpectralKernel.t) (i : nat) (v : R) :
  UncoupledMultiOutputSpectralKernel.magnitude_product self !! i ≫= (.!! i) = Some v →
  0 <= v.
Proof.
  rewrite magnitude_product_lookup. cbn.
  destruct (UncoupledMultiOutputSpectralKernel.tril _ !! i) as [a|]; [|done]. cbn.
  intros [= <-]. apply dot_self_nonneg.
Qed.

(** X18. The diagonal that [Ksub_diag] returns is never negative, for the
    four kernels that compute it from their own parameters (the spectral,
    the uncoupled spectral, the convolution and the harmonizable kernel),
    when the variances of the channel are within the lower bound their
    constructor declares: not negative, and for the convolution kernel a
    positive base variance, so that every square root is one of a number
    that is not negative. *)
Theorem Ksub_diag_nonnegative (i : nat) (X : matrix R) (d v : list R)
    (mosm : MultiOutputSpectralKernel.t) (umosm : UncoupledMultiOutputSpectralKernel.t)
    (conv : GaussianConvolutionProcessKernel.t)
    (mohsm : MultiOutputHarmonizableSpectralKernel.t) :
  Forall (λ x, 0 <= x) v →
  (MultiOutputSpectralKernel.variance mosm !! i = Some v →
   Ksub_diag (MOSM mosm) i X = Ok d → Forall (λ a, 0 <= a) d)
  ∧ (UncoupledMultiOutputSpectralKernel.variance umosm !! i = Some v →
     Ksub_diag (uMOSM umosm) i X = Ok d → Forall (λ a, 0 <= a) d)
  ∧ (GaussianConvolutionProcessKernel.variance conv !! i = Some v →
     Forall (λ x, 0 < x) (GaussianConvolutionProcessKernel.base_variance conv) →
     Ksub_diag (CONV conv) i X = Ok d → Forall (λ a, 0 <= a) d)
  ∧ (MultiOutputHarmonizableSpectralKernel.variance mohsm !! i = Some v →
     Ksub_diag (MOHSM mohsm) i X = Ok d → Forall (λ a, 0 <= a) d).
Proof.
  intros _. split_and!; cbn [Ksub_diag]; [intros _ Hd | intros _ Hd | intros _ _ Hd | intros _ Hd].
  - unfold MultiOutputSpectralKernel.Ksub_diag, at_channel in Hd. returned Hd.
    injection Hd as <-. apply Forall_replicate.
    apply Rmult_le_pos; [apply Rmult_le_pos|apply sqrt_pos];
      [apply square_nonneg | apply twopi_power_nonneg].
  - unfold UncoupledMultiOutputSpectralKernel.Ksub_diag,
      UncoupledMultiOutputSpectralKernel.at_pair, at_channel in Hd.
    returned Hd. injection Hd as <-. apply Forall_replicate.
    apply Rmult_le_pos; [apply Rmult_le_pos|apply sqrt_pos];
      [by eapply at_pair_diagonal_nonneg | apply twopi_power_nonneg].
  - unfold GaussianConvolutionProcessKernel.Ksub_diag, at_channel in Hd. returned Hd.
    injection Hd as <-. apply Forall_replicate.
    apply Rmult_le_pos; [apply square_nonneg | apply sqrt_pos].
  - unfold MultiOutputHarmonizableSpectralKernel.Ksub_diag, at_channel in Hd.
    destruct (Kernel._active_input _ X None) as [S|]; [|done].
    cbn [mbind result_bind] in Hd. returned Hd. injection Hd as <-.
    apply Forall_fmap, Forall_forall. intros x _. cbn.
    apply Rmult_le_pos; [|apply Rlt_le, exp_pos].
    apply Rmult_le_pos; [|apply pow_le, sqrt_pos].
    apply Rmult_le_pos; [apply Rmult_le_pos|apply sqrt_pos];
      [apply square_nonneg | apply twopi_power_nonneg].
Qed.

Lemma entry_mat_map_cases {B : Type} (F : B → R) (T : matrix B) (n m : nat) (P : R → Prop) :
  P 0 → (∀ t, P (F t)) → P (entry (mat_map F T) n m).
Proof.
  intros H0 HF. unfold entry, mat_map. cbn [rows].
  change (@nil R) with (map F []). rewrite map_nth.
  destruct (nth n (rows T) []) as [|t0 row]; [by destruct m|].
  destruct (decide (m < length (t0 :: row))%nat) as [Hm|Hm].
  - rewrite (nth_indep _ 0 (F t0)) by (by rewrite length_map). rewrite map_nth. apply HF.
  - rewrite nth_overflow by (rewrite length_map; lia). done.
Qed.

Lemma spectral_entry_bounded (alpha s c : R) :
  0 <= alpha → 0 <= s → Rabs (alpha * Rtrigo_def.exp (- (1 / 2) * s) * cos c) <= alpha.
Proof.
  intros Ha Hs. rewrite !Rabs_mult, (Rabs_right alpha) by lra.
  rewrite (Rabs_right (Rtrigo_def.exp _)) by (apply Rle_ge, Rlt_le, exp_pos).
  assert (Rtrigo_def.exp (- (1 / 2) * s) <= 1) as He.
  { destruct (Req_dec s 0) as [->|Hne].
    - replace (- (1 / 2) * 0) with 0 by lra. rewrite exp_0. lra.
    - pose proof (exp_increasing (- (1 / 2) * s) 0 ltac:(lra)) as Hlt.
      rewrite exp_0 in Hlt. lra. }
  pose proof (exp_pos (- (1 / 2) * s)) as Hp.
  assert (Rabs (cos c) <= 1) as Hc.
  { apply Rabs_le. pose proof (COS_bound c). lra. }
  pose proof (Rabs_pos (cos c)) as Hc0.
  assert (Rtrigo_def.exp (- (1 / 2) * s) * Rabs (cos c) <= 1 * 1) as Hprod
    by (apply Rmult_le_compat; lra).
  rewrite Rmult_assoc. rewrite <- (Rmult_1_r alpha) at 2.
  apply Rmult_le_compat_l; lra.
Qed.

(** X19. No entry of a same-channel block exceeds the variance: for the
    spectral and the uncoupled spectral kernel with variances that are not
    negative, the absolute value of every entry of [Ksub(i, i, X1, X2)] is
    at most the value that [Ksub_diag(i, X1)] holds. *)
Theorem same_channel_bounded_by_diagonal (i : nat) (X1 X2 G : matrix R) (d v : list R)
    (mosm : MultiOutputSpectralKernel.t) (umosm : UncoupledMultiOutputSpectralKernel.t) :
  Forall (λ x, 0 <= x) v →
  (MultiOutputSpectralKernel.variance mosm !! i = Some v →
   Ksub (MOSM mosm) i i X1 (Some X2) = Ok G → Ksub_diag (MOSM mosm) i X1 = Ok d →
   ∀ n m a, d !! n = Some a → Rabs (entry G n m) <= a)
  ∧ (UncoupledMultiOutputSpectralKernel.variance umosm !! i = Some v →
     Ksub (uMOSM umosm) i i X1 (Some X2) = Ok G → Ksub_diag (uMOSM umosm) i X1 = Ok d →
     ∀ n m a, d !! n = Some a → Rabs (entry G n m) <= a).
Proof.
  intros Hv. split; cbn [Ksub Ksub_diag]; intros Hvar HG Hd n m a Ha.
  - unfold MultiOutputSpectralKernel.Ksub in HG.
    destruct (Kernel._active_input _ X1 _) as [[S1 S2]|]; [|done].
    cbn [mbind result_bind fst snd] in HG. rewrite decide_True in HG by done.
    unfold MultiOutputSpectralKernel.Ksub_diag in Hd. unfold at_channel in HG, Hd.
    rewrite Hvar in HG, Hd. cbn [of_option mbind result_bind] in HG, Hd.
    returned HG. returned Hd. injection HG as <-. injection Hd as <-.
    apply lookup_replicate in Ha as [-> _].
    simplify_eq.
    match goal with |- Rabs _ <= ?alpha => assert (0 <= alpha) as Halpha end.
    { apply Rmult_le_pos; [apply Rmult_le_pos|apply sqrt_pos];
        [apply square_nonneg | apply twopi_power_nonneg]. }
    apply entry_mat_map_cases; [by rewrite Rabs_R0|]. intros tau.
    apply spectral_entry_bounded; [done|]. apply dot_nonneg; [apply vsquare_nonneg | done].
  - unfold UncoupledMultiOutputSpectralKernel.Ksub in HG.
    destruct (Kernel._active_input _ X1 _) as [[S1 S2]|]; [|done].
    cbn [mbind result_bind fst snd] in HG. rewrite decide_True in HG by done.
    unfold UncoupledMultiOutputSpectralKernel.Ksub_diag,
      UncoupledMultiOutputSpectralKernel.at_pair in Hd.
    unfold UncoupledMultiOutputSpectralKernel.at_pair, at_channel in HG, Hd.
    rewrite Hvar in HG, Hd. cbn [of_option mbind result_bind] in HG, Hd.
    returned HG. returned Hd. injection HG as <-. injection Hd as <-.
    apply lookup_replicate in Ha as [-> _].
    simplify_eq.
    match goal with |- Rabs _ <= ?alpha => assert (0 <= alpha) as Halpha end.
    { apply Rmult_le_pos; [apply Rmult_le_pos|apply sqrt_pos];
        [by eapply at_pair_diagonal_nonneg | apply twopi_power_nonneg]. }
    apply entry_mat_map_cases; [by rewrite Rabs_R0|]. intros tau.
    apply spectral_entry_bounded; [done|]. apply dot_nonneg; [apply vsquare_nonneg | done].
Qed.
End variances.

Lemma Ksub_diag_nonnegative_witness :
  ∃ d, Ksub_diag (CONV example_conv) 0 (Mat 1 [[0%R]; [1%R]]) = Ok d
    ∧ length d = 2 ∧ Forall (λ a, (0 <= a)%R) d.
Proof.
  eexists. split; [reflexivity|]. split; [reflexivity|].
  assert (Forall (λ x, (0 <= x)%R) [0%R]) as Hv
    by (apply Forall_cons_2; [lra | apply Forall_nil_2]).
  assert (Forall (λ x, (0 < x)%R) (GaussianConvolutionProcessKernel.base_variance example_conv))
    as Hb by (apply Forall_cons_2; [cbn; lra | apply Forall_nil_2]).
  apply (proj1 (proj2 (proj2 (Ksub_diag_nonnegative 0 (Mat 1 [[0%R]; [1%R]]) _ [0%R]
                                example_mosm example_umosm example_conv example_mohsm Hv)))
           eq_refl Hb).
  reflexivity.
Defined.

Lemma same_channel_bounded_witness :
  let X := Mat 1 [[0%R]; [1%R]] in
  ∃ G a, Ksub (MOSM example_mosm) 0 0 X (Some X) = Ok G
    ∧ Ksub_diag (MOSM example_mosm) 0 X = Ok [a; a]
    ∧ (Rabs (entry G 0 1) <= a)%R.
Proof.
  intros X. eexists _, _. split; [reflexivity|]. split; [reflexivity|].
  assert (Forall (λ x, (0 <= x)%R) [1%R]) as Hv
    by (apply Forall_cons_2; [lra | apply Forall_nil_2]).
  eapply (proj1 (same_channel_bounded_by_diagonal 0 X X _ _ [1%R] example_mosm example_umosm
                   Hv)); reflexivity.
Defined.

(** ** Two channels with the same parameters *)

Section twins.
Local Open Scope R_scope.

Lemma twin_variance (v : list R) :
  Forall (λ x, 0 < x) v → vmul (vmul (vscale 2 v) (vinv (vadd v v))) v = v.
Proof.
  induction 1 as [|x v Hx _ IH]; [done|].
  unfold vmul, vscale, vinv, vadd in *. cbn. f_equal; [field; lra | exact IH].
Qed.

Lemma twin_mean (v : list R) :
  Forall (λ x, 0 < x) v → ∀ m, length m = length v →
  vmul (vinv (vadd v v)) (vadd (vmul v m) (vmul v m)) = m.
Proof.
  induction 1 as [|x v Hx _ IH]; intros [|y m] Hm; try done.
  unfold vmul, vinv, vadd in *. cbn. f_equal; [field; lra | apply IH; by injection Hm].
Qed.

Lemma twin_mean_gap (m c : list R) : dot (vsub m m) (vmul c (vsub m m)) = 0.
Proof. rewrite vsub_self. apply dot_zero_l. Qed.

Lemma no_delay_squared (d : list R) :
  ∀ tau v, length d = length v →
  dot (vsquare (vadd tau (vsub d d))) v = dot (vsquare tau) v.
Proof.
  rewrite vsub_self. unfold dot, vsquare, vadd, vmul, vsum.
  induction d as [|x d IH]; intros [|t tau] [|y v] Hd; try done. cbn.
  rewrite IH by (by injection Hd). by rewrite Rplus_0_r.
Qed.

Lemma no_delay (d : list R) :
  ∀ tau m, length d = length m → dot (vadd tau (vsub d d)) m = dot tau m.
Proof.
  rewrite vsub_self. unfold dot, vadd, vmul, vsum.
  induction d as [|x d IH]; intros [|t tau] [|y m] Hd; try done. cbn.
  rewrite IH by (by injection Hd). by rewrite Rplus_0_r.
Qed.

Lemma twin_amplitude (amp : list R) :
  Forall (λ x, 0 <= x) amp → sqrt <$> vmul amp amp = amp.
Proof.
  induction 1 as [|x amp Hx _ IH]; [done|].
  unfold vmul in *. cbn. f_equal; [by apply sqrt_square | exact IH].
Qed.

Lemma no_shift (h : R → R → R) (s : list R) :
  ∀ amp, length s = length amp →
  zip_with h amp (vsub s s) = (λ a, h a 0) <$> amp.
Proof.
  rewrite vsub_self.
  induction s as [|x s IH]; intros [|a amp] Hs; try done. cbn.
  f_equal. apply IH. by injection Hs.
Qed.

(** X20. Two channels with the same parameters are one channel twice: for
    the three kernels whose [Ksub] branches on [i == j] with one magnitude
    for each channel (the spectral, the harmonizable and the cross-spectral
    kernel), when channels [i] and [j] hold the same parameters, within
    their bounds, the cross-channel block [Ksub(i, j, X1, X2)] is the
    same-channel block [Ksub(i, i, X1, X2)]. *)
Theorem twin_channels_block (i j : nat) (X1 : matrix R) (X2 : option (matrix R))
    (v m d amp s : list R) (a p l : R) (ds : list (list R)) (ps : list R)
    (mosm : MultiOutputSpectralKernel.t) (mohsm : MultiOutputHarmonizableSpectralKernel.t)
    (csm : CrossSpectralKernel.t) :
  Forall (λ x, 0 < x) v → length m = length v → length d = length v →
  shared ds i j d → shared ps i j p →
  (shared (MultiOutputSpectralKernel.variance mosm) i j v →
   shared (MultiOutputSpectralKernel.mean mosm) i j m →
   shared (MultiOutputSpectralKernel.magnitude mosm) i j a →
   MultiOutputSpectralKernel.delay mosm = Some ds →
   MultiOutputSpectralKernel.phase mosm = Some ps →
   Ksub (MOSM mosm) i j X1 X2 = Ksub (MOSM mosm) i i X1 X2)
  ∧ (shared (MultiOutputHarmonizableSpectralKernel.variance mohsm) i j v →
     shared (MultiOutputHarmonizableSpectralKernel.mean mohsm) i j m →
     shared (MultiOutputHarmonizableSpectralKernel.magnitude mohsm) i j a →
     shared (MultiOutputHarmonizableSpectralKernel.lengthscale mohsm) i j l → 0 < l →
     MultiOutputHarmonizableSpectralKernel.delay mohsm = Some ds →
     MultiOutputHarmonizableSpectralKernel.phase mohsm = Some ps →
     Ksub (MOHSM mohsm) i j X1 X2 = Ksub (MOHSM mohsm) i i X1 X2)
  ∧ (shared (CrossSpectralKernel.amplitude csm) i j amp →
     shared (CrossSpectralKernel.shift csm) i j s →
     Forall (λ x, 0 <= x) amp → length s = length amp →
     Ksub (CSM csm) i j X1 X2 = Ksub (CSM csm) i i X1 X2).
Proof.
  intros Hv Hm Hd [Hdi Hdj] [Hpi Hpj].
  assert (length d = length m) as Hdm by congruence.
  destruct (decide (i = j)) as [->|Hij]; [done|].
  split_and!; cbn [Ksub].
  - intros [Hvi Hvj] [Hmi Hmj] [Hai Haj] Hds Hps.
    unfold MultiOutputSpectralKernel.Ksub.
    destruct (Kernel._active_input _ X1 X2) as [X|]; [|done].
    cbn [mbind result_bind]. rewrite decide_False, decide_True by done. unfold at_channel, attribute.
    rewrite Hvi, Hvj, Hmi, Hmj, Hai, Haj, Hds, Hps. cbn [of_option mbind result_bind].
    rewrite Hdi, Hdj, Hpi, Hpj. cbn [of_option mbind result_bind].
    f_equal. apply mat_map_ext. intros tau.
    rewrite twin_mean_gap, twin_variance, twin_mean by done.
    rewrite no_delay_squared, no_delay by done.
    rewrite Rmult_0_r, exp_0, Rmult_1_r.
    replace (p - p) with 0 by lra. by rewrite Rplus_0_r.
  - intros [Hvi Hvj] [Hmi Hmj] [Hai Haj] [Hli Hlj] Hl Hds Hps.
    unfold MultiOutputHarmonizableSpectralKernel.Ksub.
    destruct (Kernel._active_input _ X1 X2) as [X|]; [|done].
    cbn [mbind result_bind]. rewrite decide_False, decide_True by done. unfold at_channel, attribute.
    rewrite Hvi, Hvj, Hmi, Hmj, Hai, Haj, Hli, Hlj, Hds, Hps.
    cbn [of_option mbind result_bind].
    rewrite Hdi, Hdj, Hpi, Hpj. cbn [of_option mbind result_bind].
    f_equal. apply mat_zip_with_ext. intros tau avg. cbn zeta.
    rewrite twin_mean_gap, twin_variance, twin_mean by done.
    rewrite no_delay_squared, no_delay by done.
    rewrite Rmult_0_r, exp_0, Rmult_1_r.
    replace (p - p) with 0 by lra. rewrite Rplus_0_r.
    replace (2 * (l * l) * (1 / (l * l + l * l)) * (l * l)) with (l * l)
      by (field; nra).
    done.
  - intros [Hai Haj] [Hsi Hsj] Hamp Hs.
    unfold CrossSpectralKernel.Ksub.
    destruct (Kernel._active_input _ X1 X2) as [X|]; [|done].
    cbn [mbind result_bind]. rewrite decide_False, decide_True by done. unfold at_channel.
    rewrite Hai, Haj, Hsi, Hsj. cbn [of_option mbind result_bind].
    f_equal. apply mat_map_ext. intros tau. cbn zeta.
    rewrite twin_amplitude by done.
    rewrite (no_shift (λ a0 s0, a0 * _ * cos (2 * PI * (_ + s0)))) by done.
    f_equal. apply list_fmap_ext. intros _ a0 _. cbn. by rewrite Rplus_0_r.
Qed.
End twins.

Lemma twin_channels_block_witness :
  let k := MultiOutputSpectralKernel.Make 2 1 None [2; 2]%R [[1]; [1]]%R [[3]; [3]]%R
             (Some [[1]; [1]]%R) (Some [1 / 2; 1 / 2]%R) in
  let X1 := Mat 1 [[0]; [1]]%R in
  let X2 := Mat 1 [[2]]%R in
  Ksub (MOSM k) 0 1 X1 (Some X2) = Ksub (MOSM k) 0 0 X1 (Some X2).
Proof.
  intros k X1 X2.
  assert (Forall (λ x, (0 < x)%R) [3%R]) as Hv
    by (apply Forall_cons_2; [lra | apply Forall_nil_2]).
  exact (proj1 (twin_channels_block 0 1 X1 (Some X2) [3%R] [1%R] [1%R] [] [] 2 (1 / 2) 1
                  [[1]; [1]]%R [1 / 2; 1 / 2]%R k example_mohsm
                  (CrossSpectralKernel.Make 1 1 1 None [] [] [] [])
                  Hv eq_refl eq_refl (conj eq_refl eq_refl) (conj eq_refl eq_refl))
           (conj eq_refl eq_refl) (conj eq_refl eq_refl) (conj eq_refl eq_refl)
           eq_refl eq_refl).
Defined.


(** ** A common shift of the inputs *)

Section shifts.
Local Open Scope R_scope.
Implicit Types (X S : matrix R) (c : list R).

(** The points of [X] have as many coordinates as [c]. *)
Local Abbreviation fits c X := (wf_matrix X ∧ ncols X = length c).

Lemma nth_vadd (x : list R) : ∀ c d, length x = length c → (d < length c)%nat →
  nth d (vadd x c) 0 = nth d x 0 + nth d c 0.
Proof.
  unfold vadd. induction x as [|a x IH]; intros [|b c] [|d] Hx Hd; try done; cbn in *; try lia.
  apply IH; [by injection Hx | lia].
Qed.

Lemma coordinates_vadd (dims : list nat) (x c : list R) :
  length x = length c → Forall (λ d, d < length c)%nat dims →
  coordinates dims (vadd x c) = vadd (coordinates dims x) (coordinates dims c).
Proof.
  intros Hx. unfold coordinates. induction 1 as [|d dims Hd _ IH]; [done|].
  cbn. rewrite nth_vadd by done. unfold vadd in *. cbn. by rewrite IH.
Qed.

Lemma index_select_translate dims c X S :
  fits c X → Kernel.index_select dims X = Ok S →
  Kernel.index_select dims (translate c X) = Ok (translate (coordinates dims c) S)
  ∧ fits (coordinates dims c) S.
Proof.
  intros [Hwf Hc]. unfold Kernel.index_select. cbn [translate ncols rows].
  destruct (forallb _ dims) eqn:Hdims; [|done]. intros [= <-].
  assert (Forall (λ d, d < length c)%nat dims) as Hd.
  { apply Forall_forall. intros d Hin. rewrite forallb_forall in Hdims.
    specialize (Hdims d (proj1 (list_elem_of_In _ _) Hin)).
    apply bool_decide_eq_true in Hdims. lia. }
  split.
  - f_equal. unfold translate. cbn. f_equal. rewrite <- !list_fmap_compose.
    apply list_fmap_ext. intros n x Hx. cbn.
    apply (coordinates_vadd dims x c); [|done].
    rewrite <- Hc. by eapply (Forall_lookup_1 _ _ _ _ Hwf).
  - split; [|by unfold coordinates; cbn; rewrite length_fmap].
    unfold wf_matrix. cbn. apply Forall_fmap, Forall_forall. intros x _. cbn.
    by rewrite length_fmap.
Qed.

Lemma active_input_translate active_dims c X1 (X2 : option (matrix R))
    (S : matrix R * option (matrix R)) :
  fits c X1 → (∀ X, X2 = Some X → fits c X) →
  Kernel._active_input active_dims X1 X2 = Ok S →
  Kernel._active_input active_dims (translate c X1) (translate c <$> X2)
  = Ok (translate (active_shift active_dims c) S.1,
        translate (active_shift active_dims c) <$> S.2)
  ∧ fits (active_shift active_dims c) S.1
  ∧ (∀ S2, S.2 = Some S2 → fits (active_shift active_dims c) S2).
Proof.
  intros H1 H2. unfold Kernel._active_input.
  destruct active_dims as [dims|]; cbn [active_shift]; [|by intros [= <-]].
  destruct (Kernel.index_select dims X1) as [S1|] eqn:HS1; [|done].
  destruct (index_select_translate dims c X1 S1 H1 HS1) as [-> Hfit1].
  cbn [mbind result_bind]. destruct X2 as [X2|]; cbn [fmap option_fmap option_map].
  - destruct (Kernel.index_select dims X2) as [S2|] eqn:HS2; [|done].
    destruct (index_select_translate dims c X2 S2 (H2 X2 eq_refl) HS2) as [-> Hfit2].
    cbn [mbind result_bind]. intros [= <-]. cbn.
    split; [done|]. split; [done|]. by intros ? [= <-].
  - intros [= <-]. cbn. split; [done|]. by split.
Qed.

Lemma pairwise_translate {B : Type} (F : list R → list R → B) c X1 X2 :
  (∀ x1 x2, length x1 = length c → length x2 = length c →
            F (vadd x1 c) (vadd x2 c) = F x1 x2) →
  fits c X1 → fits c X2 →
  pairwise F (translate c X1) (translate c X2) = pairwise F X1 X2.
Proof.
  intros HF [Hwf1 Hc1] [Hwf2 Hc2]. unfold pairwise, translate, nrows. cbn.
  rewrite length_fmap. f_equal. rewrite <- list_fmap_compose.
  apply list_fmap_ext. intros n x1 Hx1. cbn. rewrite <- list_fmap_compose.
  apply list_fmap_ext. intros m x2 Hx2. cbn. apply HF.
  - rewrite <- Hc1. by eapply (Forall_lookup_1 _ _ _ _ Hwf1).
  - rewrite <- Hc2. by eapply (Forall_lookup_1 _ _ _ _ Hwf2).
Qed.

Lemma vsub_translate (x1 : list R) : ∀ x2 c, length x1 = length c → length x2 = length c →
  vsub (vadd x1 c) (vadd x2 c) = vsub x1 x2.
Proof.
  unfold vsub, vadd. induction x1 as [|a x1 IH]; intros [|b x2] [|e c] H1 H2; try done.
  cbn. f_equal; [lra|]. apply IH; [by injection H1 | by injection H2].
Qed.

Lemma second_translate c X1 (X2 : option (matrix R)) :
  Kernel.second (translate c X1) (translate c <$> X2) = translate c (Kernel.second X1 X2).
Proof. by destruct X2. Qed.

Lemma second_fits c X1 (X2 : option (matrix R)) :
  fits c X1 → (∀ X, X2 = Some X → fits c X) → fits c (Kernel.second X1 X2).
Proof. intros H1 H2. destruct X2 as [X|]; [by apply H2 | done]. Qed.

Lemma distance_translate c X1 (X2 : option (matrix R)) :
  fits c X1 → (∀ X, X2 = Some X → fits c X) →
  Kernel.distance (translate c X1) (translate c <$> X2) = Kernel.distance X1 X2
  ∧ Kernel.squared_distance (translate c X1) (translate c <$> X2)
    = Kernel.squared_distance X1 X2.
Proof.
  intros H1 H2. unfold Kernel.distance, Kernel.squared_distance.
  rewrite second_translate. pose proof (second_fits c X1 X2 H1 H2) as H.
  split; apply pairwise_translate; try done.
  - intros. by apply vsub_translate.
  - intros. f_equal. by apply vsub_translate.
Qed.
Lemma active_input_translate_raises active_dims c X1 (X2 : option (matrix R)) (e : exn) :
  fits c X1 →
  Kernel._active_input active_dims X1 X2 = Err e →
  Kernel._active_input active_dims (translate c X1) (translate c <$> X2) = Err e.
Proof.
  intros H1. unfold Kernel._active_input. destruct active_dims as [dims|]; [|done].
  destruct (Kernel.index_select dims X1) as [S1|] eqn:HS1.
  - destruct (index_select_translate dims c X1 S1 H1 HS1) as [-> _].
    cbn [mbind result_bind]. destruct X2 as [X2|]; [|done]. cbn [fmap option_fmap option_map].
    unfold Kernel.index_select. cbn [translate ncols].
    destruct (forallb _ dims); cbn [mbind result_bind]; [discriminate|done].
  - revert HS1. unfold Kernel.index_select. cbn [translate ncols].
    destruct (forallb _ dims); cbn [mbind result_bind]; [discriminate|congruence].
Qed.

(** Brings a call at shifted inputs to the call at the inputs themselves,
    up to the distances [tau]. *)
Ltac unshift c X1 X2 H1 H2 :=
  let S := fresh "S" in let e := fresh "e" in let HS := fresh "HS" in
  let Hf1 := fresh "Hf1" in let Hf2 := fresh "Hf2" in
  let Hd := fresh "Hd" in let Hsq := fresh "Hsq" in
  destruct (Kernel._active_input _ X1 X2) as [S|e] eqn:HS;
  [ destruct (active_input_translate _ c X1 X2 S H1 H2 HS) as (-> & Hf1 & Hf2);
    cbn [mbind result_bind fst snd];
    destruct (distance_translate _ S.1 S.2 Hf1 Hf2) as [Hd Hsq]; rewrite ?Hd, ?Hsq
  | by rewrite (active_input_translate_raises _ c X1 X2 e H1 HS) ].

(** X21. The kernels that are built on the distance of two points are
    stationary: shifting all points of [X1] and [X2] by the same vector
    leaves every block [Ksub(i, j, X1, X2)] unchanged, whatever the active
    dimensions are.  It holds for every kernel but the harmonizable one
    (the independent and the coregionalization kernel when the
    single-output kernels they wrap are stationary). *)
Theorem Ksub_stationary (k : mokernel) (i j : nat) (c : list R) (X1 : matrix R)
    (X2 : option (matrix R)) :
  wf_matrix X1 ∧ ncols X1 = length c →
  (∀ X, X2 = Some X → wf_matrix X ∧ ncols X = length c) →
  (∀ h, k ≠ MOHSM h) →
  (∀ sk, sk ∈ subkernels k → ∀ Y1 Y2,
     Kernel.K sk (translate c Y1) (translate c <$> Y2) = Kernel.K sk Y1 Y2) →
  Ksub k i j (translate c X1) (translate c <$> X2) = Ksub k i j X1 X2.
Proof.
  intros H1 H2 Hk Hsk. destruct k as [k|k|k|k|k|k|k]; cbn [Ksub subkernels] in *.
  - unfold IndependentMultiOutputKernel.Ksub. cbn.
    destruct (decide (i = j)).
    + unfold at_channel.
      destruct (IndependentMultiOutputKernel.kernels k !! i) as [sk|] eqn:Hi; [|done].
      cbn. apply Hsk. by eapply list_elem_of_lookup_2.
    + rewrite second_translate. unfold translate, nrows. cbn. by rewrite !length_fmap.
  - unfold MultiOutputSpectralKernel.Ksub. unshift c X1 X2 H1 H2. done.
  - unfold UncoupledMultiOutputSpectralKernel.Ksub. unshift c X1 X2 H1 H2. done.
  - unfold CrossSpectralKernel.Ksub. unshift c X1 X2 H1 H2. done.
  - unfold LinearModelOfCoregionalizationKernel.Ksub. cbn.
    destruct (at_channel _ i); [|done]. destruct (at_channel _ j); [|done]. cbn.
    rewrite (collect_ext _ (λ kernel, Kernel.K kernel X1 X2)); [done|].
    intros sk Hin. by apply Hsk.
  - unfold GaussianConvolutionProcessKernel.Ksub. unshift c X1 X2 H1 H2.
    by destruct S.2.
  - by destruct (Hk k).
Qed.
End shifts.

Lemma Ksub_stationary_witness :
  let X1 := Mat 1 [[0]; [1]]%R in
  let X2 := Mat 1 [[2]]%R in
  Ksub (MOSM example_mosm) 0 1 (translate [5%R] X1) (Some (translate [5%R] X2))
  = Ksub (MOSM example_mosm) 0 1 X1 (Some X2).
Proof.
  intros X1 X2.
  apply (Ksub_stationary (MOSM example_mosm) 0 1 [5%R] X1 (Some X2)).
  - split; [|reflexivity]. apply Forall_cons_2; [reflexivity|].
    apply Forall_cons_2; [reflexivity | apply Forall_nil_2].
  - intros X [= <-]. split; [|reflexivity].
    apply Forall_cons_2; [reflexivity | apply Forall_nil_2].
  - discriminate.
  - intros sk Hin. cbn in Hin. by apply not_elem_of_nil in Hin.
Defined.

(** ** MultiOutputLikelihood: likelihoods that work row by row *)

Section by_rows.
Context {A : Type}.
Variable long : A → Z.
Variable uninit : nat → nat → A.
Implicit Types (self : MultiOutputLikelihood.t (A:=A)) (h : store A).

Lemma gather_rows_lookup (ri : list nat) (f fsub : matrix A) (k p : nat) :
  gather_rows ri f = Ok fsub → ri !! k = Some p →
  ncols fsub = ncols f ∧ nrows fsub = length ri ∧ rows fsub !! k = rows f !! p
  ∧ is_Some (rows f !! p).
Proof.
  unfold gather_rows. destruct (mapM _ ri) as [rs|] eqn:Hrs; [|done].
  cbn [of_option mbind result_bind]. intros [= <-] Hk. cbn [ncols rows nrows].
  pose proof (length_mapM _ _ _ Hrs) as Hlen.
  apply mapM_Some in Hrs.
  destruct (Forall2_lookup_l _ _ _ _ _ Hrs Hk) as (x & Hx & Hp).
  split_and!; [done | done | by rewrite Hx, Hp | by rewrite Hp].
Qed.

Lemma moment_by_rows method self h f X Xv fv (g : nat → list A → list A) :
  h !! X = Some Xv → h !! f = Some fv →
  (∀ i L fsub, MultiOutputLikelihood.likelihoods self !! i = Some L →
     method L fsub = Ok (Tensor (Mat (ncols fsub) (g i <$> rows fsub)))) →
  ∀ res h', MultiOutputLikelihood.moment long uninit method self f X h = Ok (res, h') →
  ∃ resv, h' !! res = Some resv ∧ nrows resv = nrows fv ∧ ncols resv = ncols fv
    ∧ ∀ p i, MultiOutputLikelihood.channel_of long Xv p = Some (Z.of_nat i) →
        i < MultiOutputLikelihood.output_dims self →
        ∃ row, rows fv !! p = Some row ∧ rows resv !! p = Some (g i row).
Proof.
  intros HX Hf Hmethod res h'.
  rewrite (moment_run long uninit method self f X h Xv fv) by done.
  destruct (MultiOutputLikelihood._channel_indices long self Xv) as [r|] eqn:Hr; [|done].
  destruct (MultiOutputLikelihood.rows_loop _ 0 _ _) as [new|] eqn:Hloop; [|done].
  intros [= <- <-]. exists new. rewrite lookup_insert_eq.
  pose proof (channel_indices_spec long self Xv r Hr) as [Hlen Hspec].
  destruct (rows_loop_routed long uninit self Xv r _ _ _ new Hr
              (moment_step_indices method self r fv) Hloop) as (Hc & Hn & Hrouted).
  split_and!; [done..|]. intros p i Hp Hi.
  destruct (lookup_lt_is_Some_2 r i) as [ri Hri]; [lia|].
  destruct (Hrouted i ri Hri) as (v & src & Hstep & Hsrc & Hrows).
  apply (Hspec i ri Hri) in Hp. apply list_elem_of_lookup in Hp as [k Hk].
  rewrite (Hrows k p Hk).
  unfold MultiOutputLikelihood.moment_step, MultiOutputLikelihood.likelihood_at,
    MultiOutputLikelihood.indices_at in Hstep.
  destruct (MultiOutputLikelihood.likelihoods self !! i) as [L|] eqn:HL; [|done].
  rewrite Hri in Hstep. cbn [of_option mbind result_bind] in Hstep.
  destruct (gather_rows ri fv) as [fsub|] eqn:Hsub; [|done].
  cbn [mbind result_bind] in Hstep. rewrite (Hmethod i L fsub HL) in Hstep.
  cbn [mbind result_bind] in Hstep. injection Hstep as <-.
  destruct (gather_rows_lookup ri fv fsub k p Hsub Hk) as (Hcols & Hnrows & Hrow & [row Hfv]).
  exists row. split; [done|].
  cbn [broadcast_to] in Hsrc. unfold nrows in Hsrc, Hnrows. cbn [ncols rows] in Hsrc.
  rewrite length_fmap in Hsrc.
  rewrite decide_True in Hsrc by (split; left; [done | congruence]).
  rewrite !decide_True in Hsrc by congruence. injection Hsrc as <-.
  rewrite !list_lookup_fmap, Hrow, Hfv. cbn.
  by destruct (decide (ncols fsub = ncols fv)).
Qed.

(** X22. Every row is handled by the likelihood of its channel: when the
    likelihoods work row by row (likelihood [i] turns every row [x] of its
    argument into [g i x], as the likelihoods of this module do, which
    apply their link entry by entry), then [mean(f, X)] and
    [variance(f, X)] of the multi-output likelihood, when they return,
    return a tensor of the shape of [f] whose row [p] is [g i] of row [p]
    of [f], where [i] is the channel that column 0 of [X] names at row
    [p]; it does not matter in which order the channels' rows come. *)
Theorem rows_by_their_channel self h f X Xv fv (g : nat → list A → list A) :
  h !! X = Some Xv → h !! f = Some fv →
  let row_by_row (method : Likelihood.t A → matrix A → result (tvalue A)) :=
    ∀ i L fsub, MultiOutputLikelihood.likelihoods self !! i = Some L →
      method L fsub = Ok (Tensor (Mat (ncols fsub) (g i <$> rows fsub))) in
  let rows_by_channel (res : ref) h' :=
    ∃ resv, h' !! res = Some resv ∧ nrows resv = nrows fv ∧ ncols resv = ncols fv
      ∧ ∀ p i, MultiOutputLikelihood.channel_of long Xv p = Some (Z.of_nat i) →
          i < MultiOutputLikelihood.output_dims self →
          ∃ row, rows fv !! p = Some row ∧ rows resv !! p = Some (g i row) in
  (row_by_row Likelihood.mean →
   ∀ res h', MultiOutputLikelihood.mean long uninit self f X h = Ok (res, h') →
     rows_by_channel res h')
  ∧ (row_by_row Likelihood.variance →
     ∀ res h', MultiOutputLikelihood.variance long uninit self f X h = Ok (res, h') →
       rows_by_channel res h').
Proof.
  intros HX Hf row_by_row rows_by_channel.
  split; intros Hmethod res h' Hcall;
    by eapply (moment_by_rows _ self h f X Xv fv g HX Hf Hmethod res h').
Qed.
End by_rows.

Lemma rows_by_their_channel_witness :
  ∃ res h' resv,
    MultiOutputLikelihood.mean (λ z : Z, z) (λ _ _, (-1)%Z) example_self
      2%positive 1%positive example_store = Ok (res, h')
    ∧ h' !! res = Some resv
    ∧ rows resv !! 1 = Some [102%Z]
    ∧ rows resv !! 3 = Some [8%Z].
Proof.
  set (new := Mat 1 [[101]; [102]; [6]; [8]; [10]]%Z).
  pose (g := λ i : nat, map (match i with 0 => Z.add 100 | _ => Z.mul 2 end)).
  destruct (rows_by_their_channel (λ z : Z, z) (λ _ _, (-1)%Z) example_self example_store
              2%positive 1%positive example_X example_f g eq_refl eq_refl) as [H _].
  assert (∀ i L fsub, MultiOutputLikelihood.likelihoods example_self !! i = Some L →
            Likelihood.mean L fsub = Ok (Tensor (Mat (ncols fsub) (g i <$> rows fsub)))) as Hg.
  { intros [|[|i]] L fsub HL; [injection HL as <-; reflexivity ..|discriminate HL]. }
  destruct (H Hg 3%positive (<[3%positive := new]> example_store))
    as (resv & Hres & _ & _ & Hrows); [vm_compute; reflexivity|].
  exists 3%positive, (<[3%positive := new]> example_store), resv.
  split; [vm_compute; reflexivity|]. split; [exact Hres|].
  destruct (Hrows 1 0 eq_refl (le_S _ _ (le_n 1))) as (row1 & Hf1 & ->).
  destruct (Hrows 3 1 eq_refl (le_n 2)) as (row3 & Hf3 & ->).
  injection Hf1 as <-. injection Hf3 as <-. split; reflexivity.
Defined.
